(** * a-cli: the rendering loop of [src/model.go], embedded in Rocq

    The Go program is a bubbletea application: a [Model] value, an [Update]
    function that consumes one message and returns the next model with a
    command, and a [View] function that renders the model.  This file
    embeds the model, the projection of a query result into the derived
    artifacts (query meta, matches table, totals table, graphs), the
    controller and the view, and then states and proves properties of them.

    Conventions of the embedding:
    - a Go panic (nil dereference, index out of range) is an explicit
      outcome [Panic] of the [res] monad;
    - Go's [int] is 64 bits wide; arithmetic on it wraps ([wrap_int]),
      lengths are kept as [nat];
    - [float64] is Rocq's primitive binary64 [float];
    - [map[string]any] is [gmap string any]; the order in which a Go
      [range] statement enumerates a map is not fixed by the language, so
      every such loop takes the enumeration as an argument ([MapOrder]);
    - the two table widgets are reached through pointers; they live in a
      [Heap] and the model holds their addresses;
    - the operations of the linked libraries (fmt, time, strings, json,
      bubbles, lipgloss, asciigraph) whose code is not part of the
      repository are the fields of the class [Toolkit]. *)

From Stdlib Require Import ZArith String Ascii PrimFloat List Lia DecimalString.
From stdpp Require Import base option list gmap strings sorting.

Local Open Scope string_scope.
Local Open Scope list_scope.

(** ** Panics *)

Inductive panic := NilDereference | IndexOutOfRange.

Inductive res (A : Type) : Type :=
| Ok (a : A)
| Panic (p : panic).
Arguments Ok {A} a.
Arguments Panic {A} p.

#[global] Instance res_ret : MRet res := fun A a => Ok a.
#[global] Instance res_bind : MBind res := fun A B k r =>
  match r with
  | Ok a => k a
  | Panic p => Panic p
  end.

(** [s[i]] on a slice. *)
Definition index {A} (s : list A) (i : nat) : res A :=
  match s !! i with
  | Some a => Ok a
  | None => Panic IndexOutOfRange
  end.

(** [s[i]] where [i] is a Go [int]. *)
Definition indexZ {A} (s : list A) (i : Z) : res A :=
  if (i <? 0)%Z then Panic IndexOutOfRange else index s (Z.to_nat i).

(** [s[i] = v] on a slice. *)
Definition store {A} (s : list A) (i : nat) (v : A) : res (list A) :=
  if (i <? length s)%nat then Ok (<[i := v]> s) else Panic IndexOutOfRange.

(** [*p] on a pointer that may be nil. *)
Definition deref {A} (p : option A) : res A :=
  match p with
  | Some a => Ok a
  | None => Panic NilDereference
  end.

(** Left-to-right loop over a slice whose body may panic. *)
Fixpoint foldM {A S} (body : S → A → res S) (s : S) (l : list A) : res S :=
  match l with
  | [] => Ok s
  | a :: l' => s' ← body s a; foldM body s' l'
  end.

(** [for i, a := range l] with the index made explicit. *)
Definition enumerate {A} (l : list A) : list (nat * A) := zip (seq 0 (length l)) l.

(** ** Machine integers *)

Definition wrap_int (z : Z) : Z := ((z + 2 ^ 63) mod 2 ^ 64 - 2 ^ 63)%Z.
Definition int_add (a b : Z) : Z := wrap_int (a + b).
Definition int_sub (a b : Z) : Z := wrap_int (a - b).

(** [fmt.Sprintf("%v", n)] for an [int]. *)
Definition formatInt (n : Z) : string := NilZero.string_of_int (Z.to_int n).

(** ** Strings: order, sort.Strings, sort.SearchStrings *)

(** Go compares strings bytewise; [a <= b]. *)
Definition strLe (a b : string) : Prop := String.leb a b = true.

(** [sort.Strings]: the result of sorting is determined by the order (equal
    strings are identical), so an insertion sort stands for it. *)
Fixpoint insertSorted (x : string) (l : list string) : list string :=
  match l with
  | [] => [x]
  | y :: l' => if String.leb x y then x :: y :: l' else y :: insertSorted x l'
  end.

Definition sort_Strings (l : list string) : list string :=
  foldr insertSorted [] l.

(** [sort.Search(n, f)]:
      i, j := 0, n
      for i < j { h := int(uint(i+j) >> 1); if !f(h) { i = h + 1 } else { j = h } }
      return i
    with [f(h) = a[h] >= x] for [sort.SearchStrings(a, x)].  Each round
    shrinks [j - i], so [length a] rounds are enough;
    [SearchStrings_least] shows the loop has ended when they are used up. *)
Fixpoint searchLoop (fuel : nat) (a : list string) (x : string) (i j : nat) : nat :=
  match fuel with
  | O => i
  | S fuel' =>
      if (i <? j)%nat then
        let h := ((i + j) / 2)%nat in
        match a !! h with
        | Some ah =>
            if negb (String.leb x ah) then searchLoop fuel' a x (h + 1)%nat j
            else searchLoop fuel' a x i h
        | None => i
        end
      else i
  end.

Definition SearchStrings (a : list string) (x : string) : nat :=
  searchLoop (length a) a x 0 (length a).

(** [stringInSlice] *)
Fixpoint stringInSlice (str : string) (slice : list string) : bool :=
  match slice with
  | [] => false
  | s :: slice' => if String.eqb s str then true else stringInSlice str slice'
  end.

(** [appendIfNotEmpty] *)
Definition appendIfNotEmpty (slice : list string) (str : string) : list string :=
  if negb (String.eqb str "") then slice ++ [str] else slice.

(** [slices.IndexFunc]: index of the first element satisfying [f], or -1. *)
Fixpoint IndexFunc {A} (s : list A) (f : A → bool) : Z :=
  match s with
  | [] => (-1)%Z
  | a :: s' =>
      if f a then 0%Z
      else match IndexFunc s' f with
           | Z.neg _ => (-1)%Z
           | i => (i + 1)%Z
           end
  end.

(** [hash]: 32-bit FNV-1a of the bytes of the string, as a non-negative [int]. *)
Definition fnv32a_step (h : Z) (b : ascii) : Z :=
  ((Z.lxor h (Z.of_N (N_of_ascii b))) * 16777619 mod 2 ^ 32)%Z.

Definition hash (s : string) : Z :=
  fold_left fnv32a_step (list_ascii_of_string s) 2166136261%Z.

(** ** The query result (package axiom/query), as far as the program reads it *)

(** A dynamically typed value: the cases the type switches of the program
    tell apart, and [AOther] for a value of any other dynamic type, given
    by its [%v] rendering. *)
Inductive any :=
| ANil
| AString (s : string)
| AInt (n : Z)
| AFloat (f : float)
| ABool (b : bool)
| AOther (shown : string).

Record EntryGroupAgg := { Alias : string; Value : any }.
Record EntryGroup := { Group : gmap string any; Aggregations : list EntryGroupAgg }.
Record Interval := { Groups : list EntryGroup }.
Record Timeseries := { Series : list Interval; Totals : list EntryGroup }.
(** [Time] is the instant of the entry in nanoseconds. *)
Record Entry := { Time : Z; Data : gmap string any }.
Record Result := { Matches : list Entry; Buckets : Timeseries }.

(** [group[k]]: a missing key reads as the nil interface. *)
Definition mapIndex (group : gmap string any) (k : string) : any :=
  default ANil (group !! k).

(** The enumeration a [range] loop makes of a map's keys. *)
Abbreviation RangeOrder := (gmap string any → list string).

(** One run of the projection ranges over a group map (in
    [UpdateQueryMeta]) and over a data map (in [UpdateMatchesTable]). *)
Record MapOrder := { rangeGroup : RangeOrder; rangeData : RangeOrder }.

Definition keysOf (m : gmap string any) : list string := (map_to_list m).*1.

(** Go guarantees only that every key is visited once. *)
Definition validRange (r : RangeOrder) : Prop := ∀ m, r m ≡ₚ keysOf m.
Definition validOrder (o : MapOrder) : Prop :=
  validRange (rangeGroup o) ∧ validRange (rangeData o).

(** ** Colors (package asciigraph) *)

Inductive AnsiColor :=
| Default | Blue | Magenta | Cyan | Green | Yellow | Red | AliceBlue | Cornsilk
| Crimson | DarkViolet | DeepPink | Gold | Indigo | Lavender | LightCoral
| LightSalmon | SlateGray.

Definition COLORS : list AnsiColor :=
  [Blue; Magenta; Cyan; Green; Yellow; Red; AliceBlue; Cornsilk; Crimson;
   DarkViolet; DeepPink; Gold; Indigo; Lavender; LightCoral; LightSalmon].

Definition PULSE_STEP_COLORS : list string :=
  ["#432155"; "#4e2667"; "#5f2d84"; "#7938b2"; "#8e4ec6";
   "#9d5bd2"; "#8e4ec6"; "#7938b2"; "#5f2d84"; "#4e2667"].

(** ** Widgets (package bubbles) as the program uses them *)

Record Column := { Title : string; Width : Z }.
Abbreviation Row := (list string).

(** The two style sets the program installs in a table:
    [StylesPlain] is [table.DefaultStyles()] with [Selected] replaced by
    [lipgloss.NewStyle()]; [StylesSelected] is [table.DefaultStyles()] with
    [Selected] given foreground 229, background 57 and no bold. *)
Inductive Styles := StylesPlain | StylesSelected.

(** A [table.Model]: columns, rows, cursor, focus and styles.  The viewport
    the widget keeps is a rendering of these and is not modelled. *)
Record Table := {
  tcols : list Column;
  trows : list Row;
  tcursor : Z;
  tfocus : bool;
  tstyles : Styles }.

(** [table.New(WithColumns(c), WithRows(r), ...)] *)
Definition table_New (c : list Column) (r : list Row) (focused : bool) : Table :=
  {| tcols := c; trows := r; tcursor := 0; tfocus := focused; tstyles := StylesPlain |}.

Definition table_SetStyles (t : Table) (s : Styles) : Table :=
  {| tcols := tcols t; trows := trows t; tcursor := tcursor t; tfocus := tfocus t;
     tstyles := s |}.

Definition table_setFocus (t : Table) (b : bool) : Table :=
  {| tcols := tcols t; trows := trows t; tcursor := tcursor t; tfocus := b;
     tstyles := tstyles t |}.

(** [SelectedRow]: the row under the cursor, nil when the cursor is outside. *)
Definition table_SelectedRow (t : Table) : Row :=
  if ((tcursor t <? 0) || (Z.of_nat (length (trows t)) <=? tcursor t))%Z then []
  else default [] (trows t !! Z.to_nat (tcursor t)).

(** A [textarea.Model]. *)
Record Textarea := {
  tavalue : string;
  tafocus : bool;
  taplaceholder : string;
  tawidth : Z }.

Definition textarea_setFocus (t : Textarea) (b : bool) : Textarea :=
  {| tavalue := tavalue t; tafocus := b; taplaceholder := taplaceholder t;
     tawidth := tawidth t |}.

(** A [spinner.Model]: the frame shown. *)
Record Spinner := { frame : nat }.

(** The heap of table widgets; a pointer is an address in it. *)
Abbreviation ptr := nat (only parsing).
Abbreviation Heap := (list Table).

(** [&t] for a fresh table value [t]. *)
Definition alloc (h : Heap) (t : Table) : ptr * Heap := (length h, h ++ [t]).

(** Reading through a pointer held by the model.  A non-nil pointer of a
    reachable model always points into the heap ([heapOk]). *)
Definition load (h : Heap) (p : option ptr) : res Table :=
  p' ← deref p; deref (h !! p').

(** ** Model *)

Inductive State := TYPING | QUERYING | REFRESHING.

Record Query := { apl : string; result : option Result; err : option string }.

Record Op := { name : string }.

Record QueryMeta := {
  orderedGroupKeys : list string;
  opsCount : nat;
  intervals : nat;
  groups : list string;
  ops : list Op;
  groupColors : gmap string AnsiColor }.

Record GraphData := {
  title : string;
  data : list (list float);
  colors : list AnsiColor }.

(** The [client] field is only handed to the query transport and is left out. *)
Record Model := {
  ready : bool;
  textarea : Textarea;
  spinner : Spinner;
  state : State;
  query : Query;
  msg : string;
  matchesTable : option ptr;
  matchesTableHighlightedIdx : Z;
  graphs : option (list GraphData);
  queryMeta : option QueryMeta;
  otherMsg : string;
  totalsTable : option ptr;
  highlightedGroup : string;
  refreshTimeout : Z;
  pulseStep : Z }.

Definition set_ready (m : Model) (v : bool) : Model :=
  {| ready := v; textarea := textarea m; spinner := spinner m; state := state m;
     query := query m; msg := msg m; matchesTable := matchesTable m;
     matchesTableHighlightedIdx := matchesTableHighlightedIdx m; graphs := graphs m;
     queryMeta := queryMeta m; otherMsg := otherMsg m; totalsTable := totalsTable m;
     highlightedGroup := highlightedGroup m; refreshTimeout := refreshTimeout m;
     pulseStep := pulseStep m |}.

Definition set_textarea (m : Model) (v : Textarea) : Model :=
  {| ready := ready m; textarea := v; spinner := spinner m; state := state m;
     query := query m; msg := msg m; matchesTable := matchesTable m;
     matchesTableHighlightedIdx := matchesTableHighlightedIdx m; graphs := graphs m;
     queryMeta := queryMeta m; otherMsg := otherMsg m; totalsTable := totalsTable m;
     highlightedGroup := highlightedGroup m; refreshTimeout := refreshTimeout m;
     pulseStep := pulseStep m |}.

Definition set_spinner (m : Model) (v : Spinner) : Model :=
  {| ready := ready m; textarea := textarea m; spinner := v; state := state m;
     query := query m; msg := msg m; matchesTable := matchesTable m;
     matchesTableHighlightedIdx := matchesTableHighlightedIdx m; graphs := graphs m;
     queryMeta := queryMeta m; otherMsg := otherMsg m; totalsTable := totalsTable m;
     highlightedGroup := highlightedGroup m; refreshTimeout := refreshTimeout m;
     pulseStep := pulseStep m |}.

Definition set_state (m : Model) (v : State) : Model :=
  {| ready := ready m; textarea := textarea m; spinner := spinner m; state := v;
     query := query m; msg := msg m; matchesTable := matchesTable m;
     matchesTableHighlightedIdx := matchesTableHighlightedIdx m; graphs := graphs m;
     queryMeta := queryMeta m; otherMsg := otherMsg m; totalsTable := totalsTable m;
     highlightedGroup := highlightedGroup m; refreshTimeout := refreshTimeout m;
     pulseStep := pulseStep m |}.

Definition set_query (m : Model) (v : Query) : Model :=
  {| ready := ready m; textarea := textarea m; spinner := spinner m; state := state m;
     query := v; msg := msg m; matchesTable := matchesTable m;
     matchesTableHighlightedIdx := matchesTableHighlightedIdx m; graphs := graphs m;
     queryMeta := queryMeta m; otherMsg := otherMsg m; totalsTable := totalsTable m;
     highlightedGroup := highlightedGroup m; refreshTimeout := refreshTimeout m;
     pulseStep := pulseStep m |}.

Definition set_msg (m : Model) (v : string) : Model :=
  {| ready := ready m; textarea := textarea m; spinner := spinner m; state := state m;
     query := query m; msg := v; matchesTable := matchesTable m;
     matchesTableHighlightedIdx := matchesTableHighlightedIdx m; graphs := graphs m;
     queryMeta := queryMeta m; otherMsg := otherMsg m; totalsTable := totalsTable m;
     highlightedGroup := highlightedGroup m; refreshTimeout := refreshTimeout m;
     pulseStep := pulseStep m |}.

Definition set_matchesTable (m : Model) (v : option ptr) : Model :=
  {| ready := ready m; textarea := textarea m; spinner := spinner m; state := state m;
     query := query m; msg := msg m; matchesTable := v;
     matchesTableHighlightedIdx := matchesTableHighlightedIdx m; graphs := graphs m;
     queryMeta := queryMeta m; otherMsg := otherMsg m; totalsTable := totalsTable m;
     highlightedGroup := highlightedGroup m; refreshTimeout := refreshTimeout m;
     pulseStep := pulseStep m |}.

Definition set_matchesTableHighlightedIdx (m : Model) (v : Z) : Model :=
  {| ready := ready m; textarea := textarea m; spinner := spinner m; state := state m;
     query := query m; msg := msg m; matchesTable := matchesTable m;
     matchesTableHighlightedIdx := v; graphs := graphs m; queryMeta := queryMeta m;
     otherMsg := otherMsg m; totalsTable := totalsTable m;
     highlightedGroup := highlightedGroup m; refreshTimeout := refreshTimeout m;
     pulseStep := pulseStep m |}.

Definition set_graphs (m : Model) (v : option (list GraphData)) : Model :=
  {| ready := ready m; textarea := textarea m; spinner := spinner m; state := state m;
     query := query m; msg := msg m; matchesTable := matchesTable m;
     matchesTableHighlightedIdx := matchesTableHighlightedIdx m; graphs := v;
     queryMeta := queryMeta m; otherMsg := otherMsg m; totalsTable := totalsTable m;
     highlightedGroup := highlightedGroup m; refreshTimeout := refreshTimeout m;
     pulseStep := pulseStep m |}.

Definition set_queryMeta (m : Model) (v : option QueryMeta) : Model :=
  {| ready := ready m; textarea := textarea m; spinner := spinner m; state := state m;
     query := query m; msg := msg m; matchesTable := matchesTable m;
     matchesTableHighlightedIdx := matchesTableHighlightedIdx m; graphs := graphs m;
     queryMeta := v; otherMsg := otherMsg m; totalsTable := totalsTable m;
     highlightedGroup := highlightedGroup m; refreshTimeout := refreshTimeout m;
     pulseStep := pulseStep m |}.

Definition set_totalsTable (m : Model) (v : option ptr) : Model :=
  {| ready := ready m; textarea := textarea m; spinner := spinner m; state := state m;
     query := query m; msg := msg m; matchesTable := matchesTable m;
     matchesTableHighlightedIdx := matchesTableHighlightedIdx m; graphs := graphs m;
     queryMeta := queryMeta m; otherMsg := otherMsg m; totalsTable := v;
     highlightedGroup := highlightedGroup m; refreshTimeout := refreshTimeout m;
     pulseStep := pulseStep m |}.

Definition set_highlightedGroup (m : Model) (v : string) : Model :=
  {| ready := ready m; textarea := textarea m; spinner := spinner m; state := state m;
     query := query m; msg := msg m; matchesTable := matchesTable m;
     matchesTableHighlightedIdx := matchesTableHighlightedIdx m; graphs := graphs m;
     queryMeta := queryMeta m; otherMsg := otherMsg m; totalsTable := totalsTable m;
     highlightedGroup := v; refreshTimeout := refreshTimeout m; pulseStep := pulseStep m |}.

Definition set_refreshTimeout (m : Model) (v : Z) : Model :=
  {| ready := ready m; textarea := textarea m; spinner := spinner m; state := state m;
     query := query m; msg := msg m; matchesTable := matchesTable m;
     matchesTableHighlightedIdx := matchesTableHighlightedIdx m; graphs := graphs m;
     queryMeta := queryMeta m; otherMsg := otherMsg m; totalsTable := totalsTable m;
     highlightedGroup := highlightedGroup m; refreshTimeout := v;
     pulseStep := pulseStep m |}.

Definition set_pulseStep (m : Model) (v : Z) : Model :=
  {| ready := ready m; textarea := textarea m; spinner := spinner m; state := state m;
     query := query m; msg := msg m; matchesTable := matchesTable m;
     matchesTableHighlightedIdx := matchesTableHighlightedIdx m; graphs := graphs m;
     queryMeta := queryMeta m; otherMsg := otherMsg m; totalsTable := totalsTable m;
     highlightedGroup := highlightedGroup m; refreshTimeout := refreshTimeout m;
     pulseStep := v |}.

(** ** Messages and commands (package bubbletea) *)

(** The messages [Update] tells apart.  [KeyMsg] is a key press, given by
    its [String()]; [UpdateMsg row] is the [Msg] value whose [update]
    closure [HighlightRow row] builds (the only such closure in the
    program); [OtherMsg] is any other message of the runtime. *)
Inductive Msg :=
| KeyMsg (key : string)
| ResultMsg (apl : string) (result : option Result) (err : option string)
| UpdateMsg (row : Row)
| SpinnerTickMsg
| RefreshMsg
| ReRunMsg
| PulseMsg
| OtherMsg (tag : nat).

(** The commands [Update] returns.  [QueryCmd apl] is the closure of
    [RunQuery] that asks the client and answers with a [ResultMsg];
    [HighlightRowCmd row] answers with [UpdateMsg row]; [TickCmd d msg] is
    [tea.Tick] of [d] milliseconds answering with [msg]; [WidgetCmd] is a
    command made by a widget. *)
#[warnings="-register-all"] Inductive Cmd :=
| CmdNil
| Quit
| EnterAltScreen
| Batch (cmds : list Cmd)
| SpinnerTick
| QueryCmd (apl : string)
| HighlightRowCmd (row : Row)
| TickCmd (d : Z) (msg : Msg)
| Blink
| WidgetCmd (tag : nat).

(** ** Operations of the linked libraries *)

Class Toolkit := {
  (** [fmt.Sprintf("%v", f)] for a [float64] *)
  formatFloat : float → string;
  (** [time.Time.String] *)
  Time_String : Z → string;
  (** [strings.TrimSpace] *)
  TrimSpace : string → string;
  (** [json.MarshalIndent(entry, "", "  ")] *)
  MarshalIndent : Entry → string;
  textarea_Update : Textarea → Msg → Textarea * Cmd;
  textarea_View : Textarea → string;
  spinner_Update : Spinner → Msg → Spinner * Cmd;
  spinner_View : Spinner → string;
  table_Update : Table → Msg → Table * Cmd;
  table_View : Table → string;
  (** [tableStyle.Render] *)
  tableStyle_Render : string → string;
  (** [focusedModelStyle.Render] of [ViewGraphs] *)
  focusedModelStyle_Render : string → string;
  (** [splashStyle.Render] for a foreground color *)
  splashStyle_Render : string → string → string;
  (** [lipgloss.JoinHorizontal(lipgloss.Left, ...)] *)
  JoinHorizontal : list string → string;
  (** [lipgloss.JoinVertical(lipgloss.Left, ...)] *)
  JoinVertical : list string → string;
  (** [asciigraph.PlotMany] with the series, their colors and the caption *)
  PlotMany : list (list float) → list AnsiColor → string → string }.

(** [fmt.Sprintf("%v", v)] *)
Definition Sprintf_v `{Toolkit} (v : any) : string :=
  match v with
  | ANil => "<nil>"
  | AString s => s
  | AInt n => formatInt n
  | AFloat f => formatFloat f
  | ABool b => if b then "true" else "false"
  | AOther shown => shown
  end.

(** ** Result projection *)

(** [getGroupKey] *)
Definition getGroupKey `{Toolkit} (orderedGroupKeys : list string)
    (group : gmap string any) : string :=
  let keyVals :=
    fold_left (fun keyVals k => keyVals ++ [Sprintf_v (mapIndex group k)])
      orderedGroupKeys [] in
  String.concat ", " keyVals.

(** [UpdateQuery] *)
Definition UpdateQuery (m : Model) (apl : string) (result : option Result)
    (err : option string) : Model :=
  set_query m {| apl := apl; result := result; err := err |}.

(** Body of the inner loop of [UpdateQueryMeta] over the entry groups of an
    interval; the loop state is [(orderedGroupKeys, opsCount, groups)]. *)
Definition metaGroupStep `{Toolkit} (range : RangeOrder)
    (acc : list string * nat * list string) (group : EntryGroup)
    : list string * nat * list string :=
  let '(orderedGroupKeys, opsCount, groups) := acc in
  let orderedGroupKeys :=
    if (length orderedGroupKeys =? 0)%nat && (0 <? size (Group group))%nat
    then sort_Strings (fold_left (fun keys key => keys ++ [key])
                         (range (Group group)) orderedGroupKeys)
    else orderedGroupKeys in
  let opsCount :=
    if (opsCount <? length (Aggregations group))%nat
    then length (Aggregations group) else opsCount in
  let key := getGroupKey orderedGroupKeys (Group group) in
  let groups := if negb (stringInSlice key groups) then groups ++ [key] else groups in
  (orderedGroupKeys, opsCount, groups).

(** Body of the loop of [UpdateQueryMeta] over the aggregations of a total. *)
Definition opsStep (ops : list Op) (aggregation : EntryGroupAgg) : list Op :=
  let idx := IndexFunc ops (fun op => String.eqb (name op) (Alias aggregation)) in
  if (idx =? -1)%Z then ops ++ [{| name := Alias aggregation |}] else ops.

(** Body of the loop of [UpdateQueryMeta] that assigns the colors. *)
Definition colorStep (groupColors : gmap string AnsiColor) (group : string)
    : res (gmap string AnsiColor) :=
  let hashed := hash group in
  let colorIdx := Z.rem hashed (Z.of_nat (length COLORS)) in
  c ← indexZ COLORS colorIdx;
  Ok (<[group := c]> groupColors).

(** [UpdateQueryMeta] *)
Definition UpdateQueryMeta `{Toolkit} (range : RangeOrder) (m : Model)
    (result : option Result) : res Model :=
  match result with
  | None => Ok (set_queryMeta m None)
  | Some r =>
      if (length (Series (Buckets r)) =? 0)%nat then Ok (set_queryMeta m None)
      else
        let intervals := length (Series (Buckets r)) in
        let '(orderedGroupKeys, opsCount, groups) :=
          fold_left (fun acc interval =>
                       fold_left (metaGroupStep range) (Groups interval) acc)
            (Series (Buckets r)) ([], 0%nat, []) in
        let ops :=
          fold_left (fun ops total => fold_left opsStep (Aggregations total) ops)
            (Totals (Buckets r)) [] in
        let groups := sort_Strings groups in
        groupColors ← foldM colorStep ∅ groups;
        Ok (set_queryMeta m (Some {|
              orderedGroupKeys := orderedGroupKeys;
              opsCount := opsCount;
              intervals := intervals;
              groups := groups;
              ops := ops;
              groupColors := groupColors |}))
  end.

(** The cell of a match under a column: the type switch of
    [UpdateMatchesTable]. *)
Definition matchCell `{Toolkit} (match_ : Entry) (column : Column) : string :=
  let value := mapIndex (Data match_) (Title column) in
  match value with
  | AString s => s
  | AInt _ => Sprintf_v value
  | AFloat _ => Sprintf_v value
  | _ => Sprintf_v value
  end.

Definition matchRow `{Toolkit} (columns : list Column) (match_ : Entry) : Row :=
  fold_left (fun row column => row ++ [matchCell match_ column])
    (drop 1 columns) ([] ++ [Time_String (Time match_)]).

(** [UpdateMatchesTable] *)
Definition UpdateMatchesTable `{Toolkit} (range : RangeOrder) (m : Model) (h : Heap)
    (result : option Result) : Model * Heap :=
  let m := set_matchesTableHighlightedIdx m (-1) in
  match result with
  | None => (set_matchesTable m None, h)
  | Some r =>
      match Matches r with
      | [] => (set_matchesTable m None, h)
      | first :: _ =>
          let columns :=
            fold_left (fun columns k => columns ++ [{| Title := k; Width := 10 |}])
              (range (Data first)) [{| Title := "_time"; Width := 20 |}] in
          let rows :=
            fold_left (fun rows match_ => rows ++ [matchRow columns match_])
              (Matches r) [] in
          let t := table_New columns rows true in
          let t := table_SetStyles t StylesPlain in
          let '(p, h) := alloc h t in
          (set_matchesTable m (Some p), h)
      end
  end.

(** [UpdateMatchesHighlight] *)
Definition UpdateMatchesHighlight (m : Model) (h : Heap) (inc : Z) : res Model :=
  let nextIdx := int_add (matchesTableHighlightedIdx m) inc in
  if (nextIdx <? 0)%Z then Ok (set_matchesTableHighlightedIdx m 0)
  else
    t ← load h (matchesTable m);
    let n := Z.of_nat (length (trows t)) in
    if (n <=? nextIdx)%Z then Ok (set_matchesTableHighlightedIdx m (int_sub n 1))
    else Ok (set_matchesTableHighlightedIdx m nextIdx).

(** [makeGraphs] *)
Definition makeGraphs (m : Model) : res (list GraphData) :=
  queryMeta ← deref (queryMeta m);
  Ok (fold_left (fun graphs op =>
        let data := replicate (length (groups queryMeta))
                      (replicate (intervals queryMeta) 0%float) in
        let seriesColors :=
          fold_left (fun seriesColors group =>
              let color := default Default (groupColors queryMeta !! group) in
              let color :=
                if negb (String.eqb (highlightedGroup m) "")
                   && negb (String.eqb group (highlightedGroup m))
                then SlateGray else color in
              seriesColors ++ [color])
            (groups queryMeta) [] in
        graphs ++ [{| title := name op; data := data; colors := seriesColors |}])
      (ops queryMeta) []).

(** The assignment [graphs[graphIdx].data[graphsDataIdx][intervalIdx] = v]
    that the innermost loop of [UpdateGraphs] performs through the shared
    backing arrays. *)
Definition writeCell (graphs : list GraphData) (graphIdx graphsDataIdx intervalIdx : nat)
    (intervalValue : float) : res (list GraphData) :=
  graph ← index graphs graphIdx;
  row ← index (data graph) graphsDataIdx;
  row ← store row intervalIdx intervalValue;
  Ok (<[graphIdx := {| title := title graph;
                       data := <[graphsDataIdx := row]> (data graph);
                       colors := colors graph |}]> graphs).

(** The value [UpdateGraphs] plots for an aggregation. *)
Definition intervalValueOf (aggregation : EntryGroupAgg) : float :=
  match Value aggregation with
  | AFloat f => f
  | _ => nan
  end.

(** Body of the loop of [UpdateGraphs] over the entry groups of an interval. *)
Definition graphsGroupStep `{Toolkit} (m : Model) (intervalIdx : nat)
    (graphs : list GraphData) (group : EntryGroup) : res (list GraphData) :=
  queryMeta ← deref (queryMeta m);
  let groupKey := getGroupKey (orderedGroupKeys queryMeta) (Group group) in
  let graphsDataIdx := SearchStrings (groups queryMeta) groupKey in
  foldM (fun graphs '(graphIdx, aggregation) =>
           writeCell graphs graphIdx graphsDataIdx intervalIdx
             (intervalValueOf aggregation))
    graphs (enumerate (Aggregations group)).

(** [UpdateGraphs].  (The local [data] of four rows that the function fills
    first is never read and is left out.) *)
Definition UpdateGraphs `{Toolkit} (m : Model) (result : option Result) : res Model :=
  match result with
  | None => Ok (set_graphs m None)
  | Some r =>
      if (length (Series (Buckets r)) =? 0)%nat then Ok (set_graphs m None)
      else
        graphs ← makeGraphs m;
        graphs ← foldM (fun graphs '(intervalIdx, interval) =>
                          foldM (graphsGroupStep m intervalIdx) graphs (Groups interval))
                   graphs (enumerate (Series (Buckets r)));
        Ok (set_graphs m (Some graphs))
  end.

(** A row of the totals table. *)
Definition totalsRow `{Toolkit} (orderedGroupKeys : list string) (total : EntryGroup) : Row :=
  let row :=
    fold_left (fun row orderedKey => row ++ [Sprintf_v (mapIndex (Group total) orderedKey)])
      orderedGroupKeys [] in
  fold_left (fun row aggregation => row ++ [Sprintf_v (Value aggregation)])
    (Aggregations total) row.

(** [UpdateTotals] *)
Definition UpdateTotals `{Toolkit} (m : Model) (h : Heap) (result : option Result)
    : res (Model * Heap) :=
  match result with
  | None => Ok (set_totalsTable m None, h)
  | Some r =>
      if (length (Totals (Buckets r)) =? 0)%nat then Ok (set_totalsTable m None, h)
      else
        queryMeta ← deref (queryMeta m);
        let columns :=
          fold_left (fun columns orderedKey =>
                       columns ++ [{| Title := orderedKey; Width := 20 |}])
            (orderedGroupKeys queryMeta) [] in
        let columns :=
          fold_left (fun columns op => columns ++ [{| Title := name op; Width := 20 |}])
            (ops queryMeta) columns in
        let rows :=
          fold_left (fun rows total => rows ++ [totalsRow (orderedGroupKeys queryMeta) total])
            (Totals (Buckets r)) [] in
        let t := table_New columns rows false in
        let t := table_SetStyles t StylesPlain in
        let t := table_setFocus t false in
        let '(p, h) := alloc h t in
        Ok (set_totalsTable m (Some p), h)
  end.

(** ** Controller *)

(** [setMsg], [setState] are [set_msg], [set_state]. *)

(** [RunQuery] *)
Definition RunQuery (m : Model) (apl : string) : Model * Cmd :=
  let m := set_msg m "Running query..." in
  let m := set_state m QUERYING in
  (m, Batch [SpinnerTick; QueryCmd apl]).

(** [HighlightRow]: the command that delivers the closure. *)
Definition HighlightRow (row : Row) : Cmd := HighlightRowCmd row.

(** The group key the [update] closure of [HighlightRow row] forms from the
    row: the cells are put in a map under the ordered keys and the map is
    formatted by [getGroupKey]. *)
Definition rowGroupKey `{Toolkit} (orderedGroupKeys : list string) (row : Row)
    : res string :=
  group ← foldM (fun (group : gmap string any) '(i, key) =>
                   cell ← index row i;
                   Ok (<[key := AString cell]> group))
            ∅ (enumerate orderedGroupKeys);
  Ok (getGroupKey orderedGroupKeys group).

(** The [update] closure built by [HighlightRow row], applied to the model. *)
Definition highlightUpdate `{Toolkit} (row : Row) (m : Model) : res Model :=
  queryMeta ← deref (queryMeta m);
  groupKey ← rowGroupKey (orderedGroupKeys queryMeta) row;
  let m := set_highlightedGroup m groupKey in
  UpdateGraphs m (result (query m)).

(** [SetRefreshing] *)
Definition SetRefreshing (m : Model) : Model * Cmd :=
  let m := set_refreshTimeout m 5 in
  let m := set_state m REFRESHING in
  (m, TickCmd 1000 RefreshMsg).

(** [UpdateRefreshing]: the tick closure reads the counter it has just
    decremented. *)
Definition UpdateRefreshing (m : Model) : Model * Cmd :=
  let m := set_refreshTimeout m (int_sub (refreshTimeout m) 1) in
  (m, TickCmd 1000 (if (refreshTimeout m <=? 1)%Z then ReRunMsg else RefreshMsg)).

(** [UpdatePulse] *)
Definition UpdatePulse (m : Model) : Model * Cmd :=
  let m :=
    if (pulseStep m <=? 0)%Z then set_pulseStep m 9
    else set_pulseStep m (int_sub (pulseStep m) 1) in
  (m, TickCmd 150 PulseMsg).

(** The [REFRESHING] branch of [Update] for a key other than [esc]. *)
Definition updateTables `{Toolkit} (m : Model) (h : Heap) (key : string)
    : res (Model * Heap * list Cmd) :=
  match totalsTable m with
  | Some p =>
      t ← deref (h !! p);
      if negb (tfocus t) then
        let t := table_setFocus t true in
        let h := <[p := t]> h in
        Ok (m, h, [HighlightRow (table_SelectedRow t)])
      else
        let '(totalsTable, cmd) := table_Update t (KeyMsg key) in
        let '(p, h) := alloc h totalsTable in
        let m := set_totalsTable m (Some p) in
        Ok (m, h, [cmd; HighlightRow (table_SelectedRow totalsTable)])
  | None =>
      match matchesTable m with
      | Some p =>
          t ← deref (h !! p);
          let '(matchesTable, cmd) := table_Update t (KeyMsg key) in
          let '(p, h) := alloc h matchesTable in
          let m := set_matchesTable m (Some p) in
          m ← (if String.eqb key "down" then UpdateMatchesHighlight m h 1
               else if String.eqb key "up" then UpdateMatchesHighlight m h (-1)
               else Ok m);
          Ok (m, h, [cmd])
      | None => Ok (m, h, [])
      end
  end.

(** The [tea.KeyMsg] case of [Update]. *)
Definition updateKey `{Toolkit} (m : Model) (h : Heap) (key : string)
    : res (Model * Heap * Cmd) :=
  if negb (ready m) then Ok (set_ready m true, h, Batch [])
  else if String.eqb key "ctrl+c" then Ok (m, h, Quit)
  else
    match state m with
    | TYPING =>
        if String.eqb key "enter" then
          let query := TrimSpace (tavalue (textarea m)) in
          if negb (String.eqb query "") then
            let '(m, cmd) := RunQuery m query in Ok (m, h, Batch [cmd])
          else Ok (m, h, Batch [])
        else
          let '(ta, cmd) := textarea_Update (textarea m) (KeyMsg key) in
          Ok (set_textarea m ta, h, Batch [cmd])
    | REFRESHING =>
        if String.eqb key "esc" then
          let m :=
            if negb (tafocus (textarea m))
            then set_textarea m (textarea_setFocus (textarea m) true) else m in
          let m := set_state m TYPING in
          Ok (m, h, Batch [Blink])
        else
          '(m, h, cmds) ← updateTables m h key;
          Ok (m, h, Batch cmds)
    | QUERYING => Ok (m, h, Batch [])
    end.

(** The [ResultMsg] case of [Update]. *)
Definition updateResult `{Toolkit} (order : MapOrder) (m : Model) (h : Heap)
    (apl : string) (result : option Result) (err : option string)
    : res (Model * Heap * Cmd) :=
  let m := set_textarea m (textarea_setFocus (textarea m) false) in
  let m := set_highlightedGroup m "" in
  let m := UpdateQuery m apl result err in
  m ← UpdateQueryMeta (rangeGroup order) m result;
  let '(m, h) := UpdateMatchesTable (rangeData order) m h result in
  '(m, h) ← UpdateTotals m h result;
  m ← UpdateGraphs m result;
  let '(m, cmd) := SetRefreshing m in
  Ok (m, h, Batch [cmd]).

(** [Update].  [order] is the order in which this call enumerates the maps
    it ranges over. *)
Definition Update `{Toolkit} (order : MapOrder) (m : Model) (h : Heap) (msg : Msg)
    : res (Model * Heap * Cmd) :=
  match msg with
  | KeyMsg key => updateKey m h key
  | ResultMsg apl result err => updateResult order m h apl result err
  | UpdateMsg row =>
      m ← highlightUpdate row m;
      Ok (m, h, Batch [])
  | SpinnerTickMsg =>
      match state m with
      | QUERYING =>
          let '(sp, cmd) := spinner_Update (spinner m) msg in
          Ok (set_spinner m sp, h, Batch [cmd])
      | _ => Ok (m, h, Batch [])
      end
  | RefreshMsg =>
      match state m with
      | REFRESHING => let '(m, cmd) := UpdateRefreshing m in Ok (m, h, Batch [cmd])
      | _ => Ok (m, h, Batch [])
      end
  | ReRunMsg =>
      match state m with
      | REFRESHING =>
          let '(m, cmd) := RunQuery m (apl (query m)) in Ok (m, h, Batch [cmd])
      | _ => Ok (m, h, Batch [])
      end
  | PulseMsg =>
      if negb (ready m) then let '(m, cmd) := UpdatePulse m in Ok (m, h, Batch [cmd])
      else Ok (m, h, Batch [])
  | OtherMsg _ =>
      if tafocus (textarea m) then
        let '(ta, cmd) := textarea_Update (textarea m) msg in
        Ok (set_textarea m ta, h, Batch [cmd])
      else Ok (m, h, Batch [])
  end.

(** [initialModel] (after the client has been made).  Fields the literal
    leaves out hold their zero values. *)
Definition initialModel : Model :=
  {| ready := false;
     textarea := {| tavalue := ""; tafocus := true;
                    taplaceholder := "Enter an APL query..."; tawidth := 100 |};
     spinner := {| frame := 0 |};
     state := TYPING;
     query := {| apl := ""; result := None; err := None |};
     msg := "";
     matchesTable := None;
     matchesTableHighlightedIdx := 0;
     graphs := None;
     queryMeta := None;
     otherMsg := "";
     totalsTable := None;
     highlightedGroup := "";
     refreshTimeout := 0;
     pulseStep := 9 |}.

(** [Init] *)
Definition Init : Cmd := Batch [EnterAltScreen; TickCmd 0 PulseMsg; Blink].

(** ** View *)

(** [ViewMatches]: the table the model points to is restyled in place. *)
Definition ViewMatches `{Toolkit} (m : Model) (h : Heap) : res (string * Heap) :=
  match matchesTable m with
  | None => Ok ("", h)
  | Some p =>
      h ← (if negb (matchesTableHighlightedIdx m =? -1)%Z then
             t ← deref (h !! p); Ok (<[p := table_SetStyles t StylesSelected]> h)
           else Ok h);
      t ← deref (h !! p);
      Ok (tableStyle_Render (table_View t), h)
  end.

(** [ViewTotals]: likewise. *)
Definition ViewTotals `{Toolkit} (m : Model) (h : Heap) : res (string * Heap) :=
  match totalsTable m with
  | None => Ok ("", h)
  | Some p =>
      h ← (if negb (String.eqb (highlightedGroup m) "") then
             t ← deref (h !! p); Ok (<[p := table_SetStyles t StylesSelected]> h)
           else Ok h);
      t ← deref (h !! p);
      Ok (tableStyle_Render (table_View t), h)
  end.

(** [ViewGraphs] *)
Definition ViewGraphs `{Toolkit} (m : Model) : string :=
  match graphs m with
  | None => ""
  | Some graphs =>
      let plots :=
        fold_left (fun plots graph =>
            let styledGraph :=
              focusedModelStyle_Render (PlotMany (data graph) (colors graph) (title graph)) in
            plots ++ [styledGraph])
          graphs [] in
      tableStyle_Render (JoinHorizontal plots)
  end.

(** [ViewSpinner] *)
Definition ViewSpinner `{Toolkit} (m : Model) : string :=
  match state m with
  | QUERYING => JoinHorizontal [spinner_View (spinner m); "Running query..."]
  | _ => ""
  end.

(** [ViewRefreshTimeout] *)
Definition ViewRefreshTimeout (m : Model) : string :=
  match state m with
  | REFRESHING => String.append "Refresh in " (formatInt (refreshTimeout m))
  | _ => ""
  end.

(** [ViewMatchDetails] *)
Definition ViewMatchDetails `{Toolkit} (m : Model) : res string :=
  if match matchesTable m with None => true | Some _ => false end
     || (matchesTableHighlightedIdx m =? -1)%Z
  then Ok ""
  else
    r ← deref (result (query m));
    entry ← indexZ (Matches r) (matchesTableHighlightedIdx m);
    Ok (tableStyle_Render (MarshalIndent entry)).

Definition splashBanner : string := "
	█████  ██   ██ ██  ██████  ███    ███ 
	██   ██  ██ ██  ██ ██    ██ ████  ████ 
	███████   ███   ██ ██    ██ ██ ████ ██ 
	██   ██  ██ ██  ██ ██    ██ ██  ██  ██ 
	██   ██ ██   ██ ██  ██████  ██      ██ ".

(** [ViewSplashScreen] *)
Definition ViewSplashScreen `{Toolkit} (m : Model) : res string :=
  color ← indexZ PULSE_STEP_COLORS (pulseStep m);
  Ok (splashStyle_Render color splashBanner).

(** [ViewError]; an [error] is given by its message. *)
Definition ViewError (m : Model) : string :=
  match err (query m) with
  | None => ""
  | Some e => String.append "Error: " e
  end.

(** [View]: the screen, and the heap as the rendering leaves it. *)
Definition View `{Toolkit} (m : Model) (h : Heap) : res (string * Heap) :=
  if negb (ready m) then
    s ← ViewSplashScreen m; Ok (s, h)
  else
    let parts :=
      [tableStyle_Render (JoinHorizontal [ViewSpinner m; ViewRefreshTimeout m]);
       tableStyle_Render (textarea_View (textarea m))] in
    let parts := appendIfNotEmpty parts (ViewError m) in
    let parts := appendIfNotEmpty parts (ViewGraphs m) in
    '(s, h) ← ViewTotals m h;
    let parts := appendIfNotEmpty parts s in
    '(s, h) ← ViewMatches m h;
    let parts := appendIfNotEmpty parts s in
    s ← ViewMatchDetails m;
    let parts := appendIfNotEmpty parts s in
    let finalPlot := JoinVertical parts in
    Ok (finalPlot, h).

(** ** A toolkit and inputs to run the embedding on *)

(** Widgets that render to short fixed strings; a table whose [Update]
    moves the cursor on [up] and [down] when focused, as the bubbles table
    does; a text area that appends the key when focused. *)
Definition plain_table_Update (t : Table) (msg : Msg) : Table * Cmd :=
  if negb (tfocus t) then (t, CmdNil)
  else
    let last := (Z.of_nat (length (trows t)) - 1)%Z in
    let move (c : Z) : Table :=
      {| tcols := tcols t; trows := trows t;
         tcursor := Z.max 0 (Z.min last c);
         tfocus := tfocus t; tstyles := tstyles t |} in
    match msg with
    | KeyMsg key =>
        if String.eqb key "up" then (move (tcursor t - 1)%Z, CmdNil)
        else if String.eqb key "down" then (move (tcursor t + 1)%Z, CmdNil)
        else (t, CmdNil)
    | _ => (t, CmdNil)
    end.

Definition plain_textarea_Update (t : Textarea) (msg : Msg) : Textarea * Cmd :=
  match msg with
  | KeyMsg key =>
      if tafocus t then
        ({| tavalue := String.append (tavalue t) key; tafocus := tafocus t;
            taplaceholder := taplaceholder t; tawidth := tawidth t |}, CmdNil)
      else (t, CmdNil)
  | _ => (t, CmdNil)
  end.

#[global] Instance plainToolkit : Toolkit := {|
  formatFloat := fun _ => "<float>";
  Time_String := formatInt;
  TrimSpace := fun s => s;
  MarshalIndent := fun e => formatInt (Time e);
  textarea_Update := plain_textarea_Update;
  textarea_View := tavalue;
  spinner_Update := fun s _ => ({| frame := S (frame s) |}, SpinnerTick);
  spinner_View := fun _ => "*";
  table_Update := plain_table_Update;
  table_View := fun t => String.concat "|" (map Title (tcols t));
  tableStyle_Render := fun s => String.append " " s;
  focusedModelStyle_Render := fun s => s;
  splashStyle_Render := fun _ s => s;
  JoinHorizontal := String.concat "";
  JoinVertical := String.concat "/";
  PlotMany := fun _ _ caption => caption |}.

(** Two enumerations of a map: in the order [map_to_list] lists the keys,
    and in the opposite order. *)
Definition listed : MapOrder := {| rangeGroup := keysOf; rangeData := keysOf |}.
Definition backwards : MapOrder :=
  {| rangeGroup := fun m => reverse (keysOf m); rangeData := fun m => reverse (keysOf m) |}.

(** An entry group [{svc: g}] with one aggregation. *)
Definition svcGroup (g : string) (alias : string) (v : any) : EntryGroup :=
  {| Group := {[ "svc" := AString g ]};
     Aggregations := [{| Alias := alias; Value := v |}] |}.

(** Two intervals, groups [a] and [b], one op [avg]; interval 0 has both
    groups (10 and 20), interval 1 has only [a] (15). *)
Definition twoGroups : Result :=
  {| Matches := [];
     Buckets := {|
       Series := [ {| Groups := [svcGroup "a" "avg" (AFloat 10); svcGroup "b" "avg" (AFloat 20)] |};
                   {| Groups := [svcGroup "a" "avg" (AFloat 15)] |} ];
       Totals := [svcGroup "a" "avg" (AFloat 12.5); svcGroup "b" "avg" (AFloat 20)] |} |}.

(** No intervals, totals present. *)
Definition totalsOnly : Result :=
  {| Matches := [];
     Buckets := {| Series := []; Totals := [svcGroup "a" "count" (AFloat 3)] |} |}.

(** An entry group with two aggregations while the totals name one op. *)
Definition extraAggregation : Result :=
  {| Matches := [];
     Buckets := {|
       Series := [ {| Groups := [ {| Group := {[ "svc" := AString "a" ]};
                                     Aggregations := [ {| Alias := "count"; Value := AFloat 1 |};
                                                       {| Alias := "avg"; Value := AFloat 2 |} ] |} ] |} ];
       Totals := [svcGroup "a" "count" (AFloat 1)] |} |}.

(** Matches only: a query without aggregation. *)
Definition matchesOnly : Result :=
  {| Matches := [ {| Time := 1; Data := {[ "level" := AString "info" ]} ∪ {[ "msg" := AString "hi" ]} |};
                  {| Time := 2; Data := {[ "level" := AString "warn" ]} ∪ {[ "msg" := AString "yo" ]} |} ];
     Buckets := {| Series := []; Totals := [] |} |}.

(** A total for a group that no interval has. *)
Definition strayTotal : Result :=
  {| Matches := [];
     Buckets := {|
       Series := [ {| Groups := [svcGroup "a" "count" (AFloat 1)] |} ];
       Totals := [svcGroup "b" "count" (AFloat 1)] |} |}.

(** Matches and totals in one result: the matches of [matchesOnly] with
    the intervals and totals of [twoGroups]. *)
Definition matchesAndTotals : Result :=
  {| Matches := Matches matchesOnly; Buckets := Buckets twoGroups |}.

(** ** The update loop *)

(** The messages delivered one after the other, each with the enumeration
    order of its call. *)
Definition runFrom `{Toolkit} (m : Model) (h : Heap) (msgs : list (MapOrder * Msg))
    : res (Model * Heap) :=
  foldM (fun '(m, h) '(order, msg) =>
           '(m, h, _) ← Update order m h msg; Ok (m, h))
    (m, h) msgs.

Definition run `{Toolkit} (msgs : list (MapOrder * Msg)) : res (Model * Heap) :=
  runFrom initialModel [] msgs.

(** The library's table keeps its rows when it handles a message. *)
Definition tableUpdateKeepsRows `{Toolkit} : Prop :=
  ∀ t msg, trows (table_Update t msg).1 = trows t.

(** The models (with their heaps) the runtime can hold: it starts from
    [initialModel], feeds messages to [Update] and renders with [View]. *)
Inductive reachable `{Toolkit} : Model → Heap → Prop :=
| reachable_init : reachable initialModel []
| reachable_Update order m h msg m' h' cmd :
    validOrder order →
    reachable m h →
    Update order m h msg = Ok (m', h', cmd) →
    reachable m' h'
| reachable_View m h s h' :
    reachable m h →
    View m h = Ok (s, h') →
    reachable m h'.

(** ** Vocabulary of the statements *)

(** The cell [graphs[k].data[g][i]]. *)
Definition cell (graphs : list GraphData) (k g i : nat) : option float :=
  G ← graphs !! k; row ← data G !! g; row !! i.

(** What the entry group [group] writes into cell [(k, g, _)]: its
    aggregation at position [k], if its key is searched to row [g]. *)
Definition cellSource `{Toolkit} (qm : QueryMeta) (k g : nat) (group : EntryGroup)
    : option EntryGroupAgg :=
  if (SearchStrings (groups qm) (getGroupKey (orderedGroupKeys qm) (Group group)) =? g)%nat
  then Aggregations group !! k else None.

(** The aggregations [UpdateGraphs] writes into cell [(k, g, i)], in the
    order it writes them: position [k] of every entry group of interval
    [i] whose key is searched to row [g]. *)
Definition cellWrites `{Toolkit} (qm : QueryMeta) (r : Result) (k g i : nat)
    : list EntryGroupAgg :=
  match Series (Buckets r) !! i with
  | None => []
  | Some interval => omap (cellSource qm k g) (Groups interval)
  end.

(** The color [makeGraphs] gives the row of [group]. *)
Definition seriesColor (m : Model) (qm : QueryMeta) (group : string) : AnsiColor :=
  let color := default Default (groupColors qm !! group) in
  if negb (String.eqb (highlightedGroup m) "")
     && negb (String.eqb group (highlightedGroup m))
  then SlateGray else color.

(** The color of the palette that [UpdateQueryMeta] assigns to a group. *)
Definition paletteColor (group : string) : AnsiColor :=
  default Default (COLORS !! Z.to_nat (Z.rem (hash group) (Z.of_nat (length COLORS)))).

(** One graph per op, each a matrix of [|groups|] rows of [intervals] cells. *)
Definition shapeOk (qm : QueryMeta) (graphs : list GraphData) : Prop :=
  length graphs = length (ops qm) ∧
  Forall (fun G => length (data G) = length (groups qm) ∧
                   Forall (fun row => length row = intervals qm) (data G)) graphs.

(** Two tables that differ at most in their styles. *)
Definition sameButStyles (t t' : Table) : Prop :=
  tcols t' = tcols t ∧ trows t' = trows t ∧ tcursor t' = tcursor t ∧
  tfocus t' = tfocus t ∧ (tstyles t' = tstyles t ∨ tstyles t' = StylesSelected).

(** The effect of rendering one table: nothing, or new styles on the
    table the field [field] points to when the gate [restyle] is open. *)
Definition tableViewEffect (field : option ptr) (restyle : bool) (h h' : Heap) : Prop :=
  Forall2 sameButStyles h h' ∧
  (∀ p, field ≠ Some p → h' !! p = h !! p) ∧
  ((field = None ∨ restyle = false) → h' = h).

(** The columns of the matches table for an enumeration [keys] of the
    first match's data. *)
Definition matchesColumns (keys : list string) : list Column :=
  {| Title := "_time"; Width := 20 |} :: map (fun k => {| Title := k; Width := 10 |}) keys.

(** The matches table [UpdateMatchesTable] builds for that enumeration. *)
Definition matchesTableFor `{Toolkit} (keys : list string) (r : Result) : Table :=
  table_SetStyles
    (table_New (matchesColumns keys)
       (map (fun match_ =>
               Time_String (Time match_)
               :: map (matchCell match_) (drop 1 (matchesColumns keys)))
          (Matches r))
       true)
    StylesPlain.

(** The totals table [UpdateTotals] builds. *)
Definition totalsTableFor `{Toolkit} (qm : QueryMeta) (r : Result) : Table :=
  table_setFocus
    (table_SetStyles
       (table_New
          (map (fun k => {| Title := k; Width := 20 |}) (orderedGroupKeys qm)
           ++ map (fun op => {| Title := name op; Width := 20 |}) (ops qm))
          (map (fun total =>
                  map (fun k => Sprintf_v (mapIndex (Group total) k)) (orderedGroupKeys qm)
                  ++ map (fun a => Sprintf_v (Value a)) (Aggregations total))
             (Totals (Buckets r)))
          false)
       StylesPlain)
    false.

(** What the model keeps true of its matches table: the table is in the
    heap, it has one row per match of the stored result, and the
    highlighted index is -1 or the index of a match. *)
Definition matchesInv (m : Model) (h : Heap) : Prop :=
  ∀ p, matchesTable m = Some p →
    ∃ t r, h !! p = Some t ∧ result (query m) = Some r ∧
           length (trows t) = length (Matches r) ∧ Matches r ≠ [] ∧
           (-1 ≤ matchesTableHighlightedIdx m < Z.of_nat (length (Matches r)))%Z.

(** A heap whose tables are all still there with the rows they had. *)
Definition rowsKept (h h' : Heap) : Prop :=
  ∀ p t, h !! p = Some t → ∃ t', h' !! p = Some t' ∧ trows t' = trows t.

(** ** Ticks, as the runtime delivers them *)

(** The message a command made of one [tea.Tick] answers with when the
    tick fires. *)
Definition firedMsg (c : Cmd) : option Msg :=
  match c with
  | Batch [TickCmd _ msg] => Some msg
  | _ => None
  end.

(** The runtime lets the pending tick fire and hands its message to
    [Update]; a command that is not one tick leaves everything as it is. *)
Definition fireTick `{Toolkit} (order : MapOrder) (s : Model * Heap * Cmd)
    : res (Model * Heap * Cmd) :=
  let '(m, h, c) := s in
  match firedMsg c with
  | Some msg => Update order m h msg
  | None => Ok s
  end.

(** [n] ticks in a row. *)
Fixpoint fireTicks `{Toolkit} (n : nat) (order : MapOrder) (s : Model * Heap * Cmd)
    : res (Model * Heap * Cmd) :=
  match n with
  | O => Ok s
  | S n' => s' ← fireTick order s; fireTicks n' order s'
  end.

(** ** The entry groups and aliases of a result, in walk order *)

(** The entry groups of all intervals, in the order [UpdateQueryMeta] and
    [UpdateGraphs] walk them. *)
Definition allGroups (r : Result) : list EntryGroup :=
  concat (map Groups (Series (Buckets r))).

(** The aliases of the aggregations of all totals, in the order
    [UpdateQueryMeta] walks them. *)
Definition allAliases (r : Result) : list string :=
  map Alias (concat (map Aggregations (Totals (Buckets r)))).

(** ** What every reachable model keeps true *)

(** The totals pointer of the model points into the heap. *)
Definition totalsInv (m : Model) (h : Heap) : Prop :=
  ∀ p, totalsTable m = Some p → is_Some (h !! p).

(** The pulse step is an index of [PULSE_STEP_COLORS]. *)
Definition pulseInv (m : Model) : Prop := (0 ≤ pulseStep m ≤ 9)%Z.

(** The graphs of the model are the projection of its stored result under
    its meta and highlight: projecting again reproduces them. *)
Definition graphsInv `{Toolkit} (m : Model) : Prop :=
  UpdateGraphs m (result (query m)) = Ok (set_graphs m (graphs m)).

(** Graph lists with the same titles and data (the colors may differ). *)
Definition sameData (gs1 gs2 : list GraphData) : Prop :=
  data <$> gs1 = data <$> gs2 ∧ title <$> gs1 = title <$> gs2.
(** * Properties *)

(** ** Loops that append *)

Lemma fold_left_snoc {A B} (f : A → B) (l : list A) (acc : list B) :
  fold_left (fun acc x => acc ++ [f x]) l acc = acc ++ map f l.
Proof.
  revert acc. induction l as [|x l IH]; intros acc; simpl.
  - by rewrite app_nil_r.
  - rewrite IH. by rewrite <- app_assoc.
Qed.

Lemma foldM_app {A S} (body : S → A → res S) (s : S) (l1 l2 : list A) :
  foldM body s (l1 ++ l2) = s' ← foldM body s l1; foldM body s' l2.
Proof.
  revert s. induction l1 as [|a l1 IH]; intros s; simpl; [done|].
  destruct (body s a) as [s'|p]; simpl; [apply IH | done].
Qed.

Lemma enumerate_lookup {A} (l : list A) (i : nat) (a : A) :
  l !! i = Some a → enumerate l !! i = Some (i, a).
Proof.
  intros Hl. unfold enumerate. apply lookup_zip_with_Some.
  exists i, a. split; [done|]. split; [|done].
  apply lookup_seq. split; [done|]. by eapply lookup_lt_Some.
Qed.

Lemma enumerate_elem_of {A} (l : list A) (i : nat) (a : A) :
  (i, a) ∈ enumerate l ↔ l !! i = Some a.
Proof.
  unfold enumerate. rewrite list_elem_of_lookup. split.
  - intros [j Hj]. apply lookup_zip_with_Some in Hj as (x & y & Heq & Hx & Hy).
    apply lookup_seq in Hx as [-> _]. by simplify_eq.
  - intros Hl. exists i. by apply enumerate_lookup.
Qed.

(** ** The order on strings *)

Lemma ascii_compare_N (a b : ascii) :
  Ascii.compare a b = N.compare (N_of_ascii a) (N_of_ascii b).
Proof. reflexivity. Qed.

Lemma string_compare_refl (a : string) : String.compare a a = Eq.
Proof.
  induction a as [|x a IH]; simpl; [done|].
  rewrite ascii_compare_N, N.compare_refl. exact IH.
Qed.

Lemma string_compare_lt_trans (a b c : string) :
  String.compare a b = Lt → String.compare b c = Lt → String.compare a c = Lt.
Proof.
  revert b c. induction a as [|x a IH]; intros [|y b] [|z c]; simpl; try done.
  rewrite !ascii_compare_N.
  destruct (N.compare_spec (N_of_ascii x) (N_of_ascii y)) as [Hxy|Hxy|Hxy];
    destruct (N.compare_spec (N_of_ascii y) (N_of_ascii z)) as [Hyz|Hyz|Hyz];
    try done; intros Hab Hbc.
  - rewrite Hxy, Hyz, N.compare_refl. by eapply IH.
  - rewrite Hxy. by apply N.compare_lt_iff in Hyz as ->.
  - rewrite <- Hyz. by apply N.compare_lt_iff in Hxy as ->.
  - assert (N_of_ascii x < N_of_ascii z)%N as Hxz by lia.
    by apply N.compare_lt_iff in Hxz as ->.
Qed.

#[global] Instance strLe_refl : Reflexive strLe.
Proof. intros a. unfold strLe, String.leb. by rewrite string_compare_refl. Qed.

#[global] Instance strLe_trans : Transitive strLe.
Proof.
  intros a b c. unfold strLe, String.leb.
  destruct (String.compare a b) eqn:Hab; [|intros _|done].
  - apply String.compare_eq_iff in Hab as ->. done.
  - destruct (String.compare b c) eqn:Hbc; [|intros _|done].
    + apply String.compare_eq_iff in Hbc as <-. by rewrite Hab.
    + by rewrite (string_compare_lt_trans a b c).
Qed.

#[global] Instance strLe_antisym : AntiSymm (=) strLe.
Proof. intros a b. apply String.leb_antisym. Qed.

#[global] Instance strLe_total : Total strLe.
Proof. intros a b. apply String.leb_total. Qed.

(** ** sort.Strings *)

Lemma insertSorted_perm (x : string) (l : list string) : insertSorted x l ≡ₚ x :: l.
Proof.
  induction l as [|y l IH]; simpl; [done|].
  destruct (String.leb x y); [done|].
  rewrite IH. apply Permutation_swap.
Qed.

Lemma insertSorted_sorted (x : string) (l : list string) :
  Sorted strLe l → Sorted strLe (insertSorted x l).
Proof.
  induction l as [|y l IH]; intros Hs; simpl.
  - by repeat constructor.
  - destruct (String.leb x y) eqn:Hxy.
    + constructor; [done|]. by constructor.
    + apply Sorted_inv in Hs as [Hs Hhd].
      constructor; [by apply IH|].
      assert (strLe y x) as Hyx.
      { destruct (strLe_total x y) as [H|H]; [|done]. unfold strLe in H. congruence. }
      destruct l as [|z l]; simpl; [by constructor|].
      destruct (String.leb x z); constructor; [done|].
      by apply HdRel_inv in Hhd.
Qed.

Lemma sort_Strings_perm (l : list string) : sort_Strings l ≡ₚ l.
Proof.
  induction l as [|x l IH]; simpl; [done|].
  unfold sort_Strings in *. simpl. rewrite insertSorted_perm. by rewrite IH.
Qed.

Lemma sort_Strings_sorted (l : list string) : Sorted strLe (sort_Strings l).
Proof.
  induction l as [|x l IH]; simpl; [constructor|].
  by apply insertSorted_sorted.
Qed.

(** Sorting forgets the order of its input. *)
Lemma sort_Strings_order (l l' : list string) :
  l ≡ₚ l' → sort_Strings l = sort_Strings l'.
Proof.
  intros Hp. apply (Sorted_unique strLe); try apply sort_Strings_sorted.
  by rewrite !sort_Strings_perm.
Qed.

Lemma sort_Strings_elem_of (x : string) (l : list string) :
  x ∈ sort_Strings l ↔ x ∈ l.
Proof. by rewrite sort_Strings_perm. Qed.

Lemma sort_Strings_length (l : list string) : length (sort_Strings l) = length l.
Proof. by rewrite sort_Strings_perm. Qed.

(** ** sort.SearchStrings *)

Lemma StronglySorted_lookup_le (l : list string) (i j : nat) (a b : string) :
  StronglySorted strLe l → (i ≤ j)%nat → l !! i = Some a → l !! j = Some b → strLe a b.
Proof.
  intros Hs. revert i j. induction Hs as [|x l Hs IH Hall]; intros i j Hij Ha Hb.
  - by rewrite lookup_nil in Ha.
  - destruct i as [|i], j as [|j]; simpl in *; simplify_eq.
    + reflexivity.
    + rewrite Forall_forall in Hall. apply Hall.
      apply list_elem_of_lookup. eauto.
    + lia.
    + eapply IH; [|done..]. lia.
Qed.

Lemma searchLoop_spec (fuel : nat) (a : list string) (x : string) (i j : nat) :
  StronglySorted strLe a →
  (i ≤ j ≤ length a)%nat → (j - i ≤ fuel)%nat →
  (∀ k ak, (k < i)%nat → a !! k = Some ak → String.leb x ak = false) →
  (∀ k ak, (j ≤ k)%nat → a !! k = Some ak → String.leb x ak = true) →
  let r := searchLoop fuel a x i j in
  (i ≤ r ≤ j)%nat ∧
  (∀ k ak, (k < r)%nat → a !! k = Some ak → String.leb x ak = false) ∧
  (∀ k ak, (r ≤ k)%nat → a !! k = Some ak → String.leb x ak = true).
Proof.
  intros Hs. revert i j.
  induction fuel as [|fuel IH]; intros i j Hij Hfuel Hlo Hhi; cbn [searchLoop].
  - assert (i = j) as -> by lia. eauto with lia.
  - destruct (Nat.ltb_spec i j) as [Hlt|Hge]; [|assert (i = j) as -> by lia; eauto with lia].
    set (h := ((i + j) / 2)%nat).
    assert (i ≤ h < j)%nat as Hh.
    { unfold h. split.
      - apply Nat.div_le_lower_bound; lia.
      - apply Nat.Div0.div_lt_upper_bound; lia. }
    destruct (lookup_lt_is_Some_2 a h) as [ah Hah]; [lia|].
    fold h. rewrite Hah. destruct (String.leb x ah) eqn:Hx; cbn [negb].
    + destruct (IH i h) as (Hr & Hr1 & Hr2); [lia|lia|done| |split; [lia|done]].
      intros k ak Hk Hak.
      assert (strLe ah ak) by (eapply StronglySorted_lookup_le; [done| |done..]; lia).
      change (strLe x ak). transitivity ah; [exact Hx|done].
    + destruct (IH (h + 1)%nat j) as (Hr & Hr1 & Hr2); [lia|lia| |done|split; [lia|done]].
      intros k ak Hk Hak.
      assert (strLe ak ah) by (eapply StronglySorted_lookup_le; [done| |done..]; lia).
      destruct (String.leb x ak) eqn:Hxk; [|done].
      assert (strLe x ah) as Hc by (transitivity ak; [exact Hxk|done]).
      unfold strLe in Hc. congruence.
Qed.

(** On a sorted slice the search returns the least index whose element is
    at least [x] (the length if there is none). *)
Lemma SearchStrings_least (a : list string) (x : string) :
  Sorted strLe a →
  (SearchStrings a x ≤ length a)%nat ∧
  (∀ k ak, (k < SearchStrings a x)%nat → a !! k = Some ak → String.leb x ak = false) ∧
  (∀ k ak, (SearchStrings a x ≤ k)%nat → a !! k = Some ak → String.leb x ak = true).
Proof.
  intros Hs. apply Sorted_StronglySorted in Hs; [|apply _].
  destruct (searchLoop_spec (length a) a x 0 (length a)) as (Hr & Hr1 & Hr2);
    [done|lia|lia|lia| |].
  - intros k ak Hk Hak. apply lookup_lt_Some in Hak. lia.
  - unfold SearchStrings. split; [lia|done].
Qed.

(** A string that occurs in a sorted slice is found at its index. *)
Lemma SearchStrings_found (a : list string) (x : string) :
  Sorted strLe a → x ∈ a → a !! SearchStrings a x = Some x.
Proof.
  intros Hs Hx. destruct (SearchStrings_least a x Hs) as (Hlen & Hlo & Hhi).
  apply list_elem_of_lookup in Hx as [k Hk].
  assert (SearchStrings a x ≤ k)%nat as Hle.
  { destruct (Nat.le_gt_cases (SearchStrings a x) k) as [|Hgt]; [done|].
    specialize (Hlo k x Hgt Hk). unfold String.leb in Hlo.
    by rewrite string_compare_refl in Hlo. }
  destruct (lookup_lt_is_Some_2 a (SearchStrings a x)) as [y Hy].
  { apply lookup_lt_Some in Hk. lia. }
  rewrite Hy. f_equal. apply (anti_symm strLe).
  - apply Sorted_StronglySorted in Hs; [|apply _].
    by eapply (StronglySorted_lookup_le a (SearchStrings a x) k).
  - exact (Hhi _ _ (Nat.le_refl _) Hy).
Qed.

(** ** Panics and sequencing *)

Lemma bind_Ok {A B} (k : A → res B) (r : res A) (b : B) :
  r ≫= k = Ok b → ∃ a, r = Ok a ∧ k a = Ok b.
Proof. destruct r as [a|p]; simpl; [eauto|done]. Qed.

Lemma deref_Ok {A} (p : option A) (a : A) : deref p = Ok a → p = Some a.
Proof. destruct p; simpl; congruence. Qed.

Lemma index_Ok {A} (s : list A) (i : nat) (a : A) : index s i = Ok a → s !! i = Some a.
Proof. unfold index. destruct (s !! i); congruence. Qed.

Lemma store_Ok {A} (s : list A) (i : nat) (v : A) (s' : list A) :
  store s i v = Ok s' → (i < length s)%nat ∧ s' = <[i := v]> s.
Proof.
  unfold store. destruct (Nat.ltb_spec i (length s)); [|done].
  intros [= <-]. done.
Qed.

(** Splits a successful sequence into its successful steps. *)
Ltac inv_res :=
  repeat match goal with
    | H : _ ≫= _ = Ok _ |- _ =>
        let a := fresh "a" in
        let Ha := fresh "Hstep" in
        apply bind_Ok in H as (a & Ha & H)
    | H : deref _ = Ok _ |- _ => apply deref_Ok in H
    | H : index _ _ = Ok _ |- _ => apply index_Ok in H
    | H : Ok _ = Ok _ |- _ => injection H as H; try subst
    | H : (_, _) = (_, _) |- _ => injection H as ? ?; try subst
    | H : Panic _ = Ok _ |- _ => discriminate H
    | H : context [match ?a with (_, _) => _ end] |- _ => is_var a; destruct a
    end.

(** A property kept by every round of a loop holds when the loop ends. *)
Lemma foldM_invariant {A S} (P : S → Prop) (body : S → A → res S) (l : list A) (s s' : S) :
  (∀ s a s', a ∈ l → P s → body s a = Ok s' → P s') →
  P s → foldM body s l = Ok s' → P s'.
Proof.
  revert s. induction l as [|a l IH]; intros s Hbody Hs Hf; simpl in Hf.
  - by inv_res.
  - inv_res. apply (IH a0); [| |done].
    + intros s1 a1 s1' Hin. apply Hbody. apply elem_of_cons. by right.
    + eapply Hbody; [|done..]. apply elem_of_cons. by left.
Qed.

Lemma enumerate_snoc {A} (l : list A) (a : A) :
  enumerate (l ++ [a]) = enumerate l ++ [(length l, a)].
Proof.
  unfold enumerate. rewrite length_app. simpl.
  rewrite seq_app. simpl. rewrite zip_with_app; [done|].
  by rewrite length_seq.
Qed.

(** ** Graph matrices *)

Lemma writeCell_cell gs k g i v gs' :
  writeCell gs k g i v = Ok gs' →
  ∀ k' g' i',
    cell gs' k' g' i' =
      if decide (k' = k ∧ g' = g ∧ i' = i) then Some v else cell gs k' g' i'.
Proof.
  unfold writeCell. intros Hw k' g' i'. inv_res.
  apply store_Ok in Hstep1 as [Hi ->].
  unfold cell.
  destruct (decide (k' = k)) as [->|Hk].
  - rewrite list_lookup_insert_eq by (by eapply lookup_lt_Some). simpl.
    destruct (decide (g' = g)) as [->|Hg].
    + rewrite list_lookup_insert_eq by (by eapply lookup_lt_Some). simpl.
      rewrite Hstep. simpl. rewrite Hstep0. simpl.
      destruct (decide (i' = i)) as [->|Hi'].
      * rewrite list_lookup_insert_eq by done. by rewrite decide_True.
      * rewrite list_lookup_insert_ne by done. rewrite decide_False by (by intros (?&?&?)). done.
    + rewrite list_lookup_insert_ne by done. rewrite Hstep. simpl.
      rewrite decide_False by (by intros (?&?&?)). done.
  - rewrite list_lookup_insert_ne by done. rewrite decide_False by (by intros (?&?&?)). done.
Qed.

Lemma writeCell_shape qm gs k g i v gs' :
  writeCell gs k g i v = Ok gs' → shapeOk qm gs → shapeOk qm gs'.
Proof.
  unfold writeCell, shapeOk. intros Hw [Hlen Hall]. inv_res.
  apply store_Ok in Hstep1 as [Hi ->].
  rewrite length_insert. split; [done|].
  apply Forall_insert; [done|]. simpl.
  rewrite Forall_forall in Hall.
  destruct (Hall a) as [Hrows Hrow]; [by eapply list_elem_of_lookup_2|].
  rewrite length_insert. split; [done|].
  apply Forall_insert; [done|].
  rewrite length_insert.
  rewrite Forall_forall in Hrow. apply Hrow. by eapply list_elem_of_lookup_2.
Qed.

Lemma writeCell_colors gs k g i v gs' :
  writeCell gs k g i v = Ok gs' → map colors gs' = map colors gs.
Proof.
  unfold writeCell. intros Hw. inv_res.
  apply list_eq. intros j. rewrite !list_lookup_fmap.
  destruct (decide (j = k)) as [->|Hj].
  - rewrite list_lookup_insert_eq by (by eapply lookup_lt_Some). by rewrite Hstep.
  - by rewrite list_lookup_insert_ne.
Qed.

Lemma makeGraphs_Ok m qm :
  queryMeta m = Some qm →
  makeGraphs m =
    Ok (map (fun op => {| title := name op;
                          data := replicate (length (groups qm))
                                    (replicate (intervals qm) 0%float);
                          colors := map (seriesColor m qm) (groups qm) |})
          (ops qm)).
Proof.
  intros Hqm. unfold makeGraphs. rewrite Hqm. simpl. f_equal.
  rewrite fold_left_snoc. simpl. apply map_ext. intros op. f_equal.
  by rewrite (fold_left_snoc (seriesColor m qm)).
Qed.

Lemma makeGraphs_shape m qm gs :
  queryMeta m = Some qm → makeGraphs m = Ok gs → shapeOk qm gs.
Proof.
  intros Hqm. rewrite (makeGraphs_Ok m qm Hqm). intros [= <-].
  split; [by rewrite length_map|].
  apply Forall_forall. intros G HG.
  apply list_elem_of_fmap in HG as (op & -> & _). simpl.
  rewrite length_replicate. split; [done|].
  apply Forall_forall. intros row Hrow.
  apply elem_of_replicate in Hrow as [-> _]. by rewrite length_replicate.
Qed.

Lemma makeGraphs_cell m qm gs k g i v :
  queryMeta m = Some qm → makeGraphs m = Ok gs → cell gs k g i = Some v → v = 0%float.
Proof.
  intros Hqm. rewrite (makeGraphs_Ok m qm Hqm). intros [= <-].
  unfold cell. rewrite list_lookup_fmap.
  destruct (ops qm !! k) as [op|]; simpl; [|done].
  intros Hc.
  destruct (replicate (length (groups qm)) (replicate (intervals qm) 0%float) !! g)
    as [row|] eqn:Hrow; simpl in Hc; [|done].
  apply lookup_replicate in Hrow as [-> _].
  by apply lookup_replicate in Hc as [-> _].
Qed.

Lemma last_cons_match {A} (a : A) (l : list A) :
  last (a :: l) = match last l with Some x => Some x | None => Some a end.
Proof. destruct l as [|b l]; [done|]. rewrite last_cons. by destruct (last (b :: l)). Qed.

Lemma omap_cons_case {A B} (f : A → option B) (x : A) (l : list A) :
  omap f (x :: l) = match f x with Some y => y :: omap f l | None => omap f l end.
Proof. reflexivity. Qed.

(** The loop over the aggregations of one entry group. *)
Lemma aggregations_loop_cell gs g i aggs gs' :
  foldM (fun gs '(k, a) => writeCell gs k g i (intervalValueOf a)) gs (enumerate aggs)
    = Ok gs' →
  ∀ k g' i',
    cell gs' k g' i' =
      if decide (g' = g ∧ i' = i) then
        match aggs !! k with
        | Some a => Some (intervalValueOf a)
        | None => cell gs k g' i'
        end
      else cell gs k g' i'.
Proof.
  revert gs'. induction aggs as [|a aggs IH] using rev_ind; intros gs' Hf k g' i'.
  - simpl in Hf. inv_res. rewrite lookup_nil. by destruct (decide _).
  - rewrite enumerate_snoc, foldM_app in Hf. inv_res. simpl in Hf. inv_res.
    rewrite (writeCell_cell _ _ _ _ _ _ Hstep0), (IH _ Hstep).
    destruct (decide (g' = g ∧ i' = i)) as [[-> ->]|Hne].
    + destruct (decide (k = length aggs)) as [->|Hk].
      * rewrite decide_True by done. by rewrite list_lookup_middle.
      * rewrite decide_False by (by intros (?&?&?)).
        destruct (Nat.lt_ge_cases k (length aggs)) as [Hlt|Hge].
        -- by rewrite lookup_app_l.
        -- rewrite (lookup_ge_None_2 aggs) by done.
           rewrite lookup_ge_None_2; [done|]. rewrite length_app. simpl. lia.
    + rewrite decide_False; [done|]. intros (?&?&?). by apply Hne.
Qed.

(** The loop over the entry groups of interval [i]. *)
Lemma groups_loop_cell `{Toolkit} m qm i gs0 entryGroups gs' :
  queryMeta m = Some qm →
  foldM (graphsGroupStep m i) gs0 entryGroups = Ok gs' →
  ∀ k g i',
    cell gs' k g i' =
      if decide (i' = i) then
        match last (omap (cellSource qm k g) entryGroups) with
        | Some a => Some (intervalValueOf a)
        | None => cell gs0 k g i'
        end
      else cell gs0 k g i'.
Proof.
  intros Hqm. revert gs0.
  induction entryGroups as [|group rest IH]; intros gs0 Hf k g i'.
  - simpl in Hf. inv_res. simpl. by destruct (decide _).
  - simpl in Hf. inv_res. rewrite (IH _ Hf).
    unfold graphsGroupStep in Hstep. rewrite Hqm in Hstep. simpl in Hstep.
    pose proof (aggregations_loop_cell _ _ _ _ _ Hstep k g i') as Hcell.
    destruct (decide (i' = i)) as [->|Hi].
    + rewrite omap_cons_case.
      destruct (cellSource qm k g group) as [agg|] eqn:Hsrc; unfold cellSource in Hsrc;
        destruct (Nat.eqb_spec
                    (SearchStrings (groups qm)
                       (getGroupKey (orderedGroupKeys qm) (Group group))) g)
          as [Heq|Hne]; try done.
      * rewrite decide_True in Hcell by done. rewrite Hsrc in Hcell.
        rewrite last_cons_match.
        destruct (last (omap (cellSource qm k g) rest)); [done|]. by rewrite Hcell.
      * rewrite decide_True in Hcell by done. rewrite Hsrc in Hcell. by rewrite Hcell.
      * rewrite decide_False in Hcell by (intros [? ?]; by apply Hne). by rewrite Hcell.
    + rewrite decide_False in Hcell by (by intros [? ?]). done.
Qed.

(** The loop over the intervals. *)
Lemma intervals_loop_cell `{Toolkit} m qm series gs0 gs' :
  queryMeta m = Some qm →
  foldM (fun gs '(i, interval) => foldM (graphsGroupStep m i) gs (Groups interval))
    gs0 (enumerate series) = Ok gs' →
  ∀ k g i,
    cell gs' k g i =
      match series !! i with
      | Some interval =>
          match last (omap (cellSource qm k g) (Groups interval)) with
          | Some a => Some (intervalValueOf a)
          | None => cell gs0 k g i
          end
      | None => cell gs0 k g i
      end.
Proof.
  intros Hqm. revert gs'.
  induction series as [|interval series IH] using rev_ind; intros gs' Hf k g i.
  - simpl in Hf. inv_res. by rewrite lookup_nil.
  - rewrite enumerate_snoc, foldM_app in Hf. inv_res. simpl in Hf. inv_res.
    rewrite (groups_loop_cell _ _ _ _ _ _ Hqm Hstep0 k g i), (IH _ Hstep).
    destruct (decide (i = length series)) as [->|Hi].
    + rewrite list_lookup_middle by done.
      by rewrite (lookup_ge_None_2 series) by done.
    + destruct (Nat.lt_ge_cases i (length series)) as [Hlt|Hge].
      * by rewrite lookup_app_l.
      * rewrite (lookup_ge_None_2 series) by done.
        rewrite lookup_ge_None_2; [done|]. rewrite length_app. simpl. lia.
Qed.

(** The loops of [UpdateGraphs] keep the shape and the colors. *)
Lemma graphs_loops_keep `{Toolkit} (P : list GraphData → Prop) m series gs0 gs' :
  (∀ gs k g i v gs1, P gs → writeCell gs k g i v = Ok gs1 → P gs1) →
  P gs0 →
  foldM (fun gs '(i, interval) => foldM (graphsGroupStep m i) gs (Groups interval))
    gs0 (enumerate series) = Ok gs' →
  P gs'.
Proof.
  intros Hw Hgs0 Hf.
  eapply (foldM_invariant P); [|exact Hgs0|exact Hf].
  intros gs [i interval] gs1 _ Hgs Hinner.
  eapply (foldM_invariant P); [|exact Hgs|exact Hinner].
  intros gs2 group gs3 _ Hgs2 Hstep.
  unfold graphsGroupStep in Hstep. inv_res.
  eapply (foldM_invariant P); [|exact Hgs2|exact Hstep].
  intros gs4 [k agg] gs5 _ Hgs4 Hwrite. by eapply Hw.
Qed.

(** What [UpdateGraphs] leaves in the model for a result with intervals. *)
Lemma UpdateGraphs_Some `{Toolkit} m qm r m' :
  queryMeta m = Some qm →
  Series (Buckets r) ≠ [] →
  UpdateGraphs m (Some r) = Ok m' →
  ∃ gs,
    m' = set_graphs m (Some gs) ∧
    shapeOk qm gs ∧
    map colors gs = map (fun _ => map (seriesColor m qm) (groups qm)) (ops qm) ∧
    ∀ k g i v,
      cell gs k g i = Some v →
      v = match last (cellWrites qm r k g i) with
          | Some a => intervalValueOf a
          | None => 0%float
          end.
Proof.
  intros Hqm Hseries Hu. unfold UpdateGraphs in Hu.
  destruct (Nat.eqb_spec (length (Series (Buckets r))) 0) as [Hz|_].
  { by apply length_zero_iff_nil in Hz. }
  inv_res. exists a0. split; [done|]. split; [|split].
  - eapply (graphs_loops_keep (shapeOk qm)); [|by eapply makeGraphs_shape|done].
    intros. by eapply writeCell_shape.
  - eapply (graphs_loops_keep (fun gs => map colors gs = _)); [| |done].
    + intros gs k g i v gs1 Hgs Hw. by rewrite (writeCell_colors _ _ _ _ _ _ Hw).
    + rewrite (makeGraphs_Ok m qm Hqm) in Hstep. injection Hstep as <-.
      rewrite map_map. done.
  - intros k g i v Hcell.
    rewrite (intervals_loop_cell _ _ _ _ _ Hqm Hstep0 k g i) in Hcell.
    unfold cellWrites.
    destruct (Series (Buckets r) !! i) as [interval|].
    + destruct (last (omap (cellSource qm k g) (Groups interval))); [by simplify_eq|].
      by eapply makeGraphs_cell.
    + simpl. by eapply makeGraphs_cell.
Qed.

(** ** The query meta *)

Lemma hash_range (s : string) : (0 ≤ hash s < 2 ^ 32)%Z.
Proof.
  unfold hash.
  assert (∀ l h, (0 ≤ h < 2 ^ 32)%Z → (0 ≤ fold_left fnv32a_step l h < 2 ^ 32)%Z) as Hfold.
  { induction l as [|b l IH]; intros h Hh; simpl; [done|].
    apply IH. unfold fnv32a_step. apply Z.mod_pos_bound. lia. }
  apply Hfold. lia.
Qed.

Lemma paletteColor_COLORS (group : string) : paletteColor group ∈ COLORS.
Proof.
  unfold paletteColor.
  pose proof (hash_range group) as Hh.
  pose proof (Z.rem_bound_pos (hash group) (Z.of_nat (length COLORS))) as Hr.
  destruct (lookup_lt_is_Some_2 COLORS
              (Z.to_nat (Z.rem (hash group) (Z.of_nat (length COLORS))))) as [c Hc].
  { simpl in *. lia. }
  rewrite Hc. simpl. by eapply list_elem_of_lookup_2.
Qed.

Lemma paletteColor_not_SlateGray (group : string) : paletteColor group ≠ SlateGray.
Proof.
  pose proof (paletteColor_COLORS group) as Hc. intros Heq. rewrite Heq in Hc.
  unfold COLORS in Hc. repeat (apply elem_of_cons in Hc as [Hc|Hc]; [done|]).
  by apply elem_of_nil in Hc.
Qed.

Lemma colorStep_Ok (gc : gmap string AnsiColor) (group : string) :
  colorStep gc group = Ok (<[group := paletteColor group]> gc).
Proof.
  unfold colorStep, indexZ, index, paletteColor.
  pose proof (hash_range group) as Hh.
  pose proof (Z.rem_bound_pos (hash group) (Z.of_nat (length COLORS))) as Hr.
  destruct (Z.ltb_spec (Z.rem (hash group) (Z.of_nat (length COLORS))) 0) as [Hneg|_].
  { simpl in *. lia. }
  destruct (lookup_lt_is_Some_2 COLORS
              (Z.to_nat (Z.rem (hash group) (Z.of_nat (length COLORS))))) as [c Hc].
  { simpl in *. lia. }
  by rewrite Hc.
Qed.

Lemma colorLoop_Ok (l : list string) (gc : gmap string AnsiColor) :
  ∃ gc', foldM colorStep gc l = Ok gc' ∧
         ∀ g, gc' !! g = if decide (g ∈ l) then Some (paletteColor g) else gc !! g.
Proof.
  revert gc. induction l as [|x l IH]; intros gc; cbn [foldM].
  - exists gc. split; [done|]. intros g.
    destruct (decide (g ∈ [])) as [Hin|]; [by apply elem_of_nil in Hin|done].
  - rewrite colorStep_Ok. cbn [mbind res_bind].
    destruct (IH (<[x := paletteColor x]> gc)) as (gc' & Hf & Hl).
    exists gc'. split; [done|]. intros g. rewrite Hl.
    destruct (decide (g ∈ l)) as [Hin|Hnin].
    + rewrite decide_True; [done|]. apply elem_of_cons. by right.
    + destruct (decide (g = x)) as [->|Hne].
      * rewrite lookup_insert_eq. rewrite decide_True; [done|]. apply elem_of_cons. by left.
      * rewrite lookup_insert_ne by done. rewrite decide_False; [done|].
        rewrite elem_of_cons. intros [?|?]; done.
Qed.

(** For a result with intervals [UpdateQueryMeta] never panics; it stores a
    meta whose groups are sorted and colored from the palette. *)
Lemma UpdateQueryMeta_Some `{Toolkit} range m r :
  Series (Buckets r) ≠ [] →
  ∃ qm,
    UpdateQueryMeta range m (Some r) = Ok (set_queryMeta m (Some qm)) ∧
    intervals qm = length (Series (Buckets r)) ∧
    Sorted strLe (groups qm) ∧
    (∀ g, g ∈ groups qm → groupColors qm !! g = Some (paletteColor g)).
Proof.
  intros Hseries. unfold UpdateQueryMeta.
  destruct (Nat.eqb_spec (length (Series (Buckets r))) 0) as [Hz|_].
  { by apply length_zero_iff_nil in Hz. }
  destruct (fold_left _ (Series (Buckets r)) _) as [[keys count] gs].
  destruct (colorLoop_Ok (sort_Strings gs) ∅) as (gc & Hgc & Hlookup).
  rewrite Hgc. simpl. eexists. split; [done|]. simpl.
  split; [done|]. split; [apply sort_Strings_sorted|].
  intros g Hg. rewrite Hlookup. by rewrite decide_True.
Qed.

Lemma UpdateQueryMeta_None `{Toolkit} range m result :
  (result = None ∨ ∃ r, result = Some r ∧ Series (Buckets r) = []) →
  UpdateQueryMeta range m result = Ok (set_queryMeta m None).
Proof. intros [->|(r & -> & Hr)]; [done|]. unfold UpdateQueryMeta. by rewrite Hr. Qed.

(** ** Each projection step writes its own fields only *)

Lemma UpdateQueryMeta_frame `{Toolkit} range m result m1 :
  UpdateQueryMeta range m result = Ok m1 → m1 = set_queryMeta m (queryMeta m1).
Proof.
  unfold UpdateQueryMeta. intros Hu.
  destruct result as [r|]; [|by inv_res].
  destruct (length (Series (Buckets r)) =? 0)%nat; [by inv_res|].
  destruct (fold_left _ (Series (Buckets r)) _) as [[keys count] gs].
  by inv_res.
Qed.

Lemma UpdateMatchesTable_frame `{Toolkit} range m h result m2 h2 :
  UpdateMatchesTable range m h result = (m2, h2) →
  m2 = set_matchesTable (set_matchesTableHighlightedIdx m (-1)) (matchesTable m2).
Proof.
  unfold UpdateMatchesTable. intros Hu. cbv zeta in Hu.
  destruct result as [r|]; [|by injection Hu as <- <-].
  destruct (Matches r); [by injection Hu as <- <-|].
  unfold alloc in Hu. by injection Hu as <- <-.
Qed.

Lemma UpdateTotals_frame `{Toolkit} m h result m3 h3 :
  UpdateTotals m h result = Ok (m3, h3) → m3 = set_totalsTable m (totalsTable m3).
Proof.
  unfold UpdateTotals, alloc. intros Hu.
  destruct result as [r|]; [|by inv_res].
  destruct (length (Totals (Buckets r)) =? 0)%nat; by inv_res.
Qed.

Lemma UpdateGraphs_frame `{Toolkit} m result m4 :
  UpdateGraphs m result = Ok m4 → m4 = set_graphs m (graphs m4).
Proof.
  unfold UpdateGraphs. intros Hu.
  destruct result as [r|]; [|by inv_res].
  destruct (length (Series (Buckets r)) =? 0)%nat; by inv_res.
Qed.

Lemma UpdateGraphs_None `{Toolkit} m result :
  (result = None ∨ ∃ r, result = Some r ∧ Series (Buckets r) = []) →
  UpdateGraphs m result = Ok (set_graphs m None).
Proof. intros [->|(r & -> & Hr)]; [done|]. unfold UpdateGraphs. by rewrite Hr. Qed.

(** The steps of the [ResultMsg] case, one by one. *)
Lemma updateResult_Ok `{Toolkit} order m h apl result e m' h' c :
  updateResult order m h apl result e = Ok (m', h', c) →
  ∃ m1 m2 h2 m3 m4,
    UpdateQueryMeta (rangeGroup order)
      (UpdateQuery
         (set_highlightedGroup
            (set_textarea m (textarea_setFocus (textarea m) false)) "")
         apl result e) result = Ok m1 ∧
    UpdateMatchesTable (rangeData order) m1 h result = (m2, h2) ∧
    UpdateTotals m2 h2 result = Ok (m3, h') ∧
    UpdateGraphs m3 result = Ok m4 ∧
    m' = set_state (set_refreshTimeout m4 5) REFRESHING ∧
    c = Batch [TickCmd 1000 RefreshMsg].
Proof.
  unfold updateResult. intros Hu. inv_res.
  destruct (UpdateMatchesTable (rangeData order) a h result) as [m2 h2] eqn:Hm.
  inv_res. destruct a0 as [m3 h3]. inv_res.
  unfold SetRefreshing in Hu. simpl in Hu. inv_res.
  eexists _, _, _, _, _. repeat split; eassumption.
Qed.

(** The model after a [ResultMsg], field by field: [qm], [mt], [tt] and
    [gs] are the artifacts the four projection steps store. *)
Lemma updateResult_steps `{Toolkit} order m h apl result e m' h' c :
  updateResult order m h apl result e = Ok (m', h', c) →
  ∃ qm mt h2 tt gs,
    let m0 := UpdateQuery
                (set_highlightedGroup
                   (set_textarea m (textarea_setFocus (textarea m) false)) "")
                apl result e in
    let m1 := set_queryMeta m0 qm in
    let m2 := set_matchesTable (set_matchesTableHighlightedIdx m1 (-1)) mt in
    let m3 := set_totalsTable m2 tt in
    UpdateQueryMeta (rangeGroup order) m0 result = Ok m1 ∧
    UpdateMatchesTable (rangeData order) m1 h result = (m2, h2) ∧
    UpdateTotals m2 h2 result = Ok (m3, h') ∧
    UpdateGraphs m3 result = Ok (set_graphs m3 gs) ∧
    c = Batch [TickCmd 1000 RefreshMsg] ∧
    m' = {| ready := ready m;
            textarea := textarea_setFocus (textarea m) false;
            spinner := spinner m;
            state := REFRESHING;
            query := {| apl := apl; result := result; err := e |};
            msg := msg m;
            matchesTable := mt;
            matchesTableHighlightedIdx := -1;
            graphs := gs;
            queryMeta := qm;
            otherMsg := otherMsg m;
            totalsTable := tt;
            highlightedGroup := "";
            refreshTimeout := 5;
            pulseStep := pulseStep m |}.
Proof.
  intros Hu.
  apply updateResult_Ok in Hu as (m1 & m2 & h2 & m3 & m4 & H1 & H2 & H3 & H4 & -> & ->).
  pose proof (UpdateQueryMeta_frame _ _ _ _ H1) as F1.
  pose proof (UpdateMatchesTable_frame _ _ _ _ _ _ H2) as F2.
  pose proof (UpdateTotals_frame _ _ _ _ _ H3) as F3.
  pose proof (UpdateGraphs_frame _ _ _ H4) as F4.
  exists (queryMeta m1), (matchesTable m2), h2, (totalsTable m3), (graphs m4).
  cbv zeta. rewrite <- F1, <- F2, <- F3, <- F4.
  repeat split; try done.
  rewrite F4, F3, F2, F1. clear. destruct m. vm_compute. reflexivity.
Qed.

(** Evaluation of the embedding on closed inputs. *)
Ltac by_evaluation := vm_compute; reflexivity.

(** Names the model, heap and command of the closed [Update] (or the
    model and heap of the closed [run]) that occurs in the goal. *)
Ltac evaluate_outcome m h c :=
  match goal with
  | |- context [Update ?o ?m0 ?h0 ?msg] =>
      let v := eval vm_compute in (Update o m0 h0 msg) in
      match v with
      | Ok (?m1, ?h1, ?c1) => pose (m := m1); pose (h := h1); pose (c := c1)
      end
  end.

Ltac evaluate_field t x :=
  let v := eval vm_compute in t in
  match v with
  | Some ?y => pose (x := y)
  end.

(** C8. For every projected result with non-null meta, the number of graphs
    equals the number of ops, and every graph's data matrix has exactly
    [|meta.groups|] rows, each of length [meta.intervals]. *)
Theorem C8_graph_shape `{Toolkit} order m h apl result e m' h' c qm :
  Update order m h (ResultMsg apl result e) = Ok (m', h', c) →
  queryMeta m' = Some qm →
  ∃ gs, graphs m' = Some gs ∧
        length gs = length (ops qm) ∧
        Forall (fun G => length (data G) = length (groups qm) ∧
                         Forall (fun row => length row = intervals qm) (data G)) gs.
Proof.
  simpl. intros Hu Hqm.
  apply updateResult_steps in Hu
    as (qm' & mt & h2 & tt & gs & H1 & H2 & H3 & H4 & -> & ->).
  simpl in Hqm. subst qm'.
  destruct result as [r|]; [|by rewrite UpdateQueryMeta_None in H1 by eauto].
  destruct (decide (Series (Buckets r) = [])) as [Hs|Hs].
  { rewrite UpdateQueryMeta_None in H1 by eauto. by inv_res. }
  apply (UpdateGraphs_Some _ qm) in H4 as (gs' & Hgs & Hshape & _); [|done..].
  apply (f_equal graphs) in Hgs. simpl in Hgs. subst gs.
  exists gs'. by destruct Hshape.
Qed.

Lemma C8_graph_shape_witness :
  ∃ m' h' c qm,
    Update listed initialModel [] (ResultMsg "q" (Some twoGroups) None) = Ok (m', h', c) ∧
    queryMeta m' = Some qm ∧
    ∃ gs, graphs m' = Some gs ∧
          length gs = length (ops qm) ∧
          Forall (fun G => length (data G) = length (groups qm) ∧
                           Forall (fun row => length row = intervals qm) (data G)) gs.
Proof.
  evaluate_outcome m' h' c. evaluate_field (queryMeta m') qm.
  exists m', h', c, qm. split; [by_evaluation|]. split; [by_evaluation|].
  apply (C8_graph_shape listed initialModel [] "q" (Some twoGroups) None m' h' c qm);
    by_evaluation.
Defined.

Lemma UpdateTotals_None `{Toolkit} m h result :
  (result = None ∨ ∃ r, result = Some r ∧ Totals (Buckets r) = []) →
  UpdateTotals m h result = Ok (set_totalsTable m None, h).
Proof. intros [->|(r & -> & Hr)]; [done|]. unfold UpdateTotals. by rewrite Hr. Qed.

(** ** C1: a failed query *)

(** C1 (as stated): after a failed query the tables and graphs of the
    previous successful response remain.  They do not: the model that
    holds the graphs and the totals table of [twoGroups] has neither after
    the failure. *)
Lemma C1_counterexample :
  ∃ m1 h1 c1 m2 h2 c2,
    Update listed initialModel [] (ResultMsg "q" (Some twoGroups) None) = Ok (m1, h1, c1) ∧
    Update listed m1 h1 (ResultMsg "q" None (Some "timeout")) = Ok (m2, h2, c2) ∧
    graphs m1 ≠ None ∧ totalsTable m1 ≠ None ∧
    graphs m2 = None ∧ totalsTable m2 = None ∧
    graphs m2 ≠ graphs m1 ∧ totalsTable m2 ≠ totalsTable m1.
Proof.
  evaluate_outcome m1 h1 c1. exists m1, h1, c1.
  match eval vm_compute in (Update listed m1 h1 (ResultMsg "q" None (Some "timeout"))) with
  | Ok (?m, ?h, ?c) => exists m, h, c
  end.
  repeat split; try by_evaluation; vm_compute; discriminate.
Qed.

(** C1 (amended). After a query transport failure delivered as a
    ResultArrived event (null result, non-null error), the error is stored
    in the model and rendered by ViewError, the state becomes Refreshing
    with the countdown armed at 5, and the query meta, the graphs and both
    tables are cleared, so nothing of the previous response is rendered. *)
Theorem C1_error_result_clears_artifacts `{Toolkit} order m h apl e :
  ∃ m',
    Update order m h (ResultMsg apl None (Some e))
      = Ok (m', h, Batch [TickCmd 1000 RefreshMsg]) ∧
    err (query m') = Some e ∧
    ViewError m' = String.append "Error: " e ∧
    state m' = REFRESHING ∧ refreshTimeout m' = 5%Z ∧
    queryMeta m' = None ∧ graphs m' = None ∧
    totalsTable m' = None ∧ matchesTable m' = None ∧
    ViewGraphs m' = "" ∧ ViewTotals m' h = Ok ("", h) ∧ ViewMatches m' h = Ok ("", h).
Proof.
  exists {| ready := ready m;
            textarea := textarea_setFocus (textarea m) false;
            spinner := spinner m;
            state := REFRESHING;
            query := {| apl := apl; result := None; err := Some e |};
            msg := msg m;
            matchesTable := None;
            matchesTableHighlightedIdx := -1;
            graphs := None;
            queryMeta := None;
            otherMsg := otherMsg m;
            totalsTable := None;
            highlightedGroup := "";
            refreshTimeout := 5;
            pulseStep := pulseStep m |}.
  split; [|done].
  destruct m. by_evaluation.
Qed.

(** ** C3: results on which the controller panics *)

(** C3 (the code at the failing inputs). A result with totals and no
    intervals makes [UpdateTotals] dereference the nil query meta; a result
    in which an entry group has more aggregations than the totals have
    aliases makes [UpdateGraphs] index past the graphs. *)
Theorem C3_result_panics `{Toolkit} order m h apl e :
  Update order m h (ResultMsg apl (Some totalsOnly) e) = Panic NilDereference ∧
  Update listed m h (ResultMsg apl (Some extraAggregation) e) = Panic IndexOutOfRange.
Proof. destruct m. split; by_evaluation. Qed.

(** ** C4: results without intervals *)

(** C4 (as stated): without intervals the matches table is null.  It is
    not: a result with matches and no intervals gets its matches table. *)
Lemma C4_counterexample :
  ∃ m' h' c,
    Update listed initialModel [] (ResultMsg "q" (Some matchesOnly) None) = Ok (m', h', c) ∧
    Series (Buckets matchesOnly) = [] ∧
    queryMeta m' = None ∧ matchesTable m' ≠ None.
Proof.
  evaluate_outcome m' h' c. exists m', h', c.
  repeat split; try by_evaluation. vm_compute. discriminate.
Qed.

(** C4 (amended). For every ResultArrived event whose result is absent,
    or has zero bucket intervals and zero totals, the derived QueryMeta,
    the graphs and the totals table are null; the matches table is null
    exactly when the result is absent or has no matches. *)
Theorem C4_no_intervals `{Toolkit} order m h apl result e :
  (result = None ∨
   ∃ r, result = Some r ∧ Series (Buckets r) = [] ∧ Totals (Buckets r) = []) →
  ∃ m' h' c,
    Update order m h (ResultMsg apl result e) = Ok (m', h', c) ∧
    queryMeta m' = None ∧ graphs m' = None ∧ totalsTable m' = None ∧
    (matchesTable m' = None ↔ (result = None ∨ ∃ r, result = Some r ∧ Matches r = [])).
Proof.
  intros Hres. simpl. unfold updateResult.
  assert (result = None ∨ ∃ r, result = Some r ∧ Series (Buckets r) = []) as Hs.
  { destruct Hres as [?|(r & ? & ? & ?)]; [by left|right; by exists r]. }
  assert (result = None ∨ ∃ r, result = Some r ∧ Totals (Buckets r) = []) as Ht.
  { destruct Hres as [?|(r & ? & ? & ?)]; [by left|right; by exists r]. }
  rewrite UpdateQueryMeta_None by done. simpl.
  destruct (UpdateMatchesTable _ _ h result) as [m2 h2] eqn:Hm.
  rewrite UpdateTotals_None by done. simpl.
  rewrite UpdateGraphs_None by done. simpl.
  eexists _, _, _. split; [done|]. simpl.
  pose proof (UpdateMatchesTable_frame _ _ _ _ _ _ Hm) as Hframe.
  rewrite Hframe. simpl. repeat split; try done.
  - intros Hnone. unfold UpdateMatchesTable in Hm. cbv zeta in Hm.
    destruct result as [r|]; [|by left]. right. exists r. split; [done|].
    destruct (Matches r); [done|]. unfold alloc in Hm. by simplify_eq.
  - intros Hnone. unfold UpdateMatchesTable in Hm. cbv zeta in Hm.
    destruct Hnone as [->|(r & -> & Hr)]; [by simplify_eq|].
    rewrite Hr in Hm. by simplify_eq.
Qed.

Lemma C4_no_intervals_witness :
  ∃ m' h' c,
    Update listed initialModel [] (ResultMsg "q" (Some matchesOnly) None) = Ok (m', h', c) ∧
    queryMeta m' = None ∧ graphs m' = None ∧ totalsTable m' = None ∧
    (matchesTable m' = None ↔
       (Some matchesOnly = None ∨ ∃ r, Some matchesOnly = Some r ∧ Matches r = [])).
Proof.
  apply (C4_no_intervals listed initialModel [] "q" (Some matchesOnly) None).
  right. exists matchesOnly. repeat split; reflexivity.
Defined.

(** ** C7: the quit key *)

(** C7 (as stated): ctrl+c terminates before the first key has arrived.
    It does not: the key only makes the model ready. *)
Lemma C7_counterexample :
  ready initialModel = false ∧
  Update listed initialModel [] (KeyMsg "ctrl+c")
    = Ok (set_ready initialModel true, [], Batch []) ∧
  set_ready initialModel true ≠ initialModel ∧
  Batch [] ≠ Quit.
Proof. repeat split; try by_evaluation; discriminate. Qed.

(** C7 (amended). In every state, once the first key has arrived
    (ready = true), a ctrl+c key event returns the quit command without
    mutating the model; before that (ready = false) the key is consumed: it
    sets ready and returns no quit command. *)
Theorem C7_ctrl_c `{Toolkit} order m h :
  Update order m h (KeyMsg "ctrl+c") =
    if ready m then Ok (m, h, Quit) else Ok (set_ready m true, h, Batch []).
Proof. simpl. unfold updateKey. by destruct (ready m). Qed.

(** ** C2: the cells of the graph matrices *)

(** C2 (as stated): a cell that no entry group of its interval supplies
    holds NaN; in the scenario the matrix is [[10, 15], [20, NaN]].  It
    is not: the matrix comes zeroed from [make] and the cell keeps 0. *)
Lemma C2_counterexample :
  ∃ m' h' c G,
    Update listed initialModel [] (ResultMsg "q" (Some twoGroups) None) = Ok (m', h', c) ∧
    graphs m' = Some [G] ∧
    data G = [[10; 15]; [20; 0]]%float ∧
    data G ≠ [[10; 15]; [20; nan]]%float.
Proof.
  evaluate_outcome m' h' c.
  match eval vm_compute in (graphs m') with
  | Some [?G] => exists m', h', c, G
  end.
  repeat split; try by_evaluation.
  vm_compute. intros Hnan.
  assert (PrimFloat.classify 0 = PrimFloat.classify nan) as Hclass by congruence.
  vm_compute in Hclass. discriminate.
Qed.

(** C2 (amended). For every projected result, each cell of each graph's
    data matrix holds: 0 if no entry group of that interval (whose key is
    searched to that row) has an aggregation at the graph's position; else
    the value of the last such aggregation if it is floating, and the NaN
    sentinel if it is non-floating.  In particular, with intervals = 2,
    groups ["a","b"], op avg, values 10.0 and 20.0 in interval 0 and only
    a = 15.0 in interval 1, graphs[0].data = [[10, 15], [20, 0]]. *)
Theorem C2_cell_values `{Toolkit} order m h apl r e m' h' c qm gs k g i v :
  Update order m h (ResultMsg apl (Some r) e) = Ok (m', h', c) →
  queryMeta m' = Some qm →
  graphs m' = Some gs →
  cell gs k g i = Some v →
  v = match last (cellWrites qm r k g i) with
      | Some a => match Value a with AFloat f => f | _ => nan end
      | None => 0%float
      end.
Proof.
  simpl. intros Hu Hqm Hgs Hcell.
  apply updateResult_steps in Hu
    as (qm' & mt & h2 & tt & gs' & H1 & H2 & H3 & H4 & -> & ->).
  simpl in Hqm, Hgs. subst qm' gs'.
  destruct (decide (Series (Buckets r) = [])) as [Hs|Hs].
  { rewrite UpdateQueryMeta_None in H1 by eauto. by inv_res. }
  apply (UpdateGraphs_Some _ qm) in H4 as (gs' & Heq & _ & _ & Hcells); [|done..].
  apply (f_equal graphs) in Heq. simpl in Heq. injection Heq as <-.
  by apply Hcells.
Qed.

Lemma C2_cell_values_witness :
  ∃ m' h' c qm gs,
    Update listed initialModel [] (ResultMsg "q" (Some twoGroups) None) = Ok (m', h', c) ∧
    queryMeta m' = Some qm ∧
    graphs m' = Some gs ∧
    cell gs 0 1 1 = Some 0%float ∧
    cellWrites qm twoGroups 0 1 1 = [] ∧
    0%float = match last (cellWrites qm twoGroups 0 1 1) with
              | Some a => match Value a with AFloat f => f | _ => nan end
              | None => 0%float
              end.
Proof.
  evaluate_outcome m' h' c.
  evaluate_field (queryMeta m') qm. evaluate_field (graphs m') gs.
  exists m', h', c, qm, gs.
  split; [by_evaluation|]. split; [by_evaluation|]. split; [by_evaluation|].
  split; [by_evaluation|]. split; [by_evaluation|].
  apply (C2_cell_values listed initialModel [] "q" twoGroups None m' h' c qm gs 0 1 1);
    by_evaluation.
Defined.

(** ** C5: what rendering does to the tables *)

#[global] Instance sameButStyles_refl : Reflexive sameButStyles.
Proof. intros t. unfold sameButStyles. tauto. Qed.

Lemma sameButStyles_trans t1 t2 t3 :
  sameButStyles t1 t2 → sameButStyles t2 t3 → sameButStyles t1 t3.
Proof.
  unfold sameButStyles.
  intros (? & ? & ? & ? & Hs1) (? & ? & ? & ? & Hs2).
  repeat split; try congruence.
  destruct Hs2 as [Hs2|Hs2]; [|by right]. rewrite Hs2. done.
Qed.

Lemma restyle_sameButStyles (h : Heap) (p : ptr) (t : Table) :
  h !! p = Some t →
  Forall2 sameButStyles h (<[p := table_SetStyles t StylesSelected]> h).
Proof.
  intros Hp. apply Forall2_same_length_lookup_2; [by rewrite length_insert|].
  intros j t1 t2 H1 H2.
  destruct (decide (j = p)) as [->|Hj].
  - rewrite list_lookup_insert_eq in H2 by (by eapply lookup_lt_Some).
    simplify_eq. unfold sameButStyles. simpl. tauto.
  - rewrite list_lookup_insert_ne in H2 by done. simplify_eq. reflexivity.
Qed.

Lemma ViewMatches_effect `{Toolkit} m h s h' :
  ViewMatches m h = Ok (s, h') →
  tableViewEffect (matchesTable m) (negb (matchesTableHighlightedIdx m =? -1)%Z) h h'.
Proof.
  unfold ViewMatches, tableViewEffect. intros Hv.
  destruct (matchesTable m) as [p|]; [|inv_res; split; [reflexivity|by split]].
  destruct (negb (matchesTableHighlightedIdx m =? -1)%Z); inv_res.
  - split; [by apply restyle_sameButStyles|]. split.
    + intros q Hq. rewrite list_lookup_insert_ne; [done|]. congruence.
    + by intros [?|?].
  - split; [reflexivity|]. by split.
Qed.

Lemma ViewTotals_effect `{Toolkit} m h s h' :
  ViewTotals m h = Ok (s, h') →
  tableViewEffect (totalsTable m) (negb (String.eqb (highlightedGroup m) "")) h h'.
Proof.
  unfold ViewTotals, tableViewEffect. intros Hv.
  destruct (totalsTable m) as [p|]; [|inv_res; split; [reflexivity|by split]].
  destruct (negb (String.eqb (highlightedGroup m) "")); inv_res.
  - split; [by apply restyle_sameButStyles|]. split.
    + intros q Hq. rewrite list_lookup_insert_ne; [done|]. congruence.
    + by intros [?|?].
  - split; [reflexivity|]. by split.
Qed.

Lemma Forall2_sameButStyles_trans (h1 h2 h3 : Heap) :
  Forall2 sameButStyles h1 h2 → Forall2 sameButStyles h2 h3 →
  Forall2 sameButStyles h1 h3.
Proof.
  intros H12. revert h3. induction H12 as [|t1 t2 h1 h2 Ht H12 IH]; intros h3 H23.
  - by inversion H23.
  - inversion H23 as [|? t3 ? h3' Ht' H23']; subst. constructor.
    + by eapply sameButStyles_trans.
    + by apply IH.
Qed.

(** What rendering a table does to the heap, exactly: with the gate open
    the table the field points to gets the selected-row styles in place;
    otherwise the heap stays as it is. *)
Lemma ViewTotals_exact `{Toolkit} m h s h' :
  ViewTotals m h = Ok (s, h') →
  match totalsTable m with
  | Some p =>
      if negb (String.eqb (highlightedGroup m) "")
      then ∃ t, h !! p = Some t ∧ h' = <[p := table_SetStyles t StylesSelected]> h
      else h' = h
  | None => h' = h
  end.
Proof.
  unfold ViewTotals. intros Hv.
  destruct (totalsTable m) as [p|]; [|by inv_res].
  destruct (negb (String.eqb (highlightedGroup m) "")); inv_res; [|done].
  by eexists.
Qed.

Lemma ViewMatches_exact `{Toolkit} m h s h' :
  ViewMatches m h = Ok (s, h') →
  match matchesTable m with
  | Some p =>
      if negb (matchesTableHighlightedIdx m =? -1)%Z
      then ∃ t, h !! p = Some t ∧ h' = <[p := table_SetStyles t StylesSelected]> h
      else h' = h
  | None => h' = h
  end.
Proof.
  unfold ViewMatches. intros Hv.
  destruct (matchesTable m) as [p|]; [|by inv_res].
  destruct (negb (matchesTableHighlightedIdx m =? -1)%Z); inv_res; [|done].
  by eexists.
Qed.

(** A table whose gate is closed is not touched by its view. *)
Lemma ViewTotals_closed `{Toolkit} m h s h' p :
  ViewTotals m h = Ok (s, h') →
  (totalsTable m ≠ Some p ∨ highlightedGroup m = "") → h' !! p = h !! p.
Proof.
  intros Hv Hclosed. apply ViewTotals_exact in Hv.
  destruct (totalsTable m) as [pt|]; [|by subst].
  destruct (String.eqb_spec (highlightedGroup m) "") as [Hhg|Hhg]; simpl in Hv;
    [by subst|].
  destruct Hv as (t & Ht & ->). destruct Hclosed as [Hp|Hp]; [|done].
  rewrite list_lookup_insert_ne; [done|congruence].
Qed.

Lemma ViewMatches_closed `{Toolkit} m h s h' p :
  ViewMatches m h = Ok (s, h') →
  (matchesTable m ≠ Some p ∨ matchesTableHighlightedIdx m = (-1)%Z) →
  h' !! p = h !! p.
Proof.
  intros Hv Hclosed. apply ViewMatches_exact in Hv.
  destruct (matchesTable m) as [pm|]; [|by subst].
  destruct (Z.eqb_spec (matchesTableHighlightedIdx m) (-1)) as [Hidx|Hidx];
    simpl in Hv; [by subst|].
  destruct Hv as (t & Ht & ->). destruct Hclosed as [Hp|Hp]; [|done].
  rewrite list_lookup_insert_ne; [done|congruence].
Qed.

(** C5 (as stated): rendering never mutates anything reachable from the
    model.  It does: once a match is highlighted, [View] installs new
    styles in the matches table the model points to. *)
Lemma C5_counterexample :
  ∃ m h s h',
    run [(listed, KeyMsg "x");
         (listed, ResultMsg "q" (Some matchesOnly) None);
         (listed, KeyMsg "down")] = Ok (m, h) ∧
    View m h = Ok (s, h') ∧
    h' ≠ h ∧
    (tstyles <$> (p ← matchesTable m; h !! p)) = Some StylesPlain ∧
    (tstyles <$> (p ← matchesTable m; h' !! p)) = Some StylesSelected.
Proof.
  match eval vm_compute in
        (run [(listed, KeyMsg "x");
              (listed, ResultMsg "q" (Some matchesOnly) None);
              (listed, KeyMsg "down")]) with
  | Ok (?m, ?h) =>
      match eval vm_compute in (View m h) with
      | Ok (?s, ?h') => exists m, h, s, h'
      end
  end.
  repeat split; try by_evaluation. vm_compute. discriminate.
Qed.

(** C5 (amended). The View assembler works on a copy of the model and
    never changes the columns, rows, cursor or focus of a table; the only
    thing it mutates are the styles of the matches table (when
    matchesTableHighlightedIdx is not -1) and of the totals table (when
    highlightedGroup is not empty), which it sets to the selected-row
    styles; with neither gate open, or before the first key
    (ready = false), rendering changes nothing.  The two gates are
    separate: a table whose own gate is closed is left exactly as it is
    also when the gate of the other table is open, and a table whose gate
    is open does end with the selected-row styles and is otherwise the
    table it was. *)
Theorem C5_view_restyles_only `{Toolkit} m h s h' :
  View m h = Ok (s, h') →
  Forall2 sameButStyles h h' ∧
  (∀ p, matchesTable m ≠ Some p → totalsTable m ≠ Some p → h' !! p = h !! p) ∧
  ((matchesTable m = None ∨ matchesTableHighlightedIdx m = (-1)%Z) →
   (totalsTable m = None ∨ highlightedGroup m = "") →
   h' = h) ∧
  (ready m = false → h' = h) ∧
  (∀ p, (matchesTable m ≠ Some p ∨ matchesTableHighlightedIdx m = (-1)%Z) →
        (totalsTable m ≠ Some p ∨ highlightedGroup m = "") →
        h' !! p = h !! p) ∧
  (ready m = true →
   ∀ p, matchesTable m = Some p → matchesTableHighlightedIdx m ≠ (-1)%Z →
     ∃ t, h !! p = Some t ∧ h' !! p = Some (table_SetStyles t StylesSelected)) ∧
  (ready m = true →
   ∀ p, totalsTable m = Some p → highlightedGroup m ≠ "" →
     ∃ t, h !! p = Some t ∧ h' !! p = Some (table_SetStyles t StylesSelected)).
Proof.
  unfold View. intros Hv.
  destruct (ready m); simpl in Hv;
    [|inv_res; split; [reflexivity|by repeat split]].
  inv_res.
  match goal with
  | Ht : ViewTotals m h = Ok (_, ?h1), Hm : ViewMatches m ?h1 = Ok _ |- _ =>
      rename Ht into Htot; rename Hm into Hmat; rename h1 into hmid
  end.
  pose proof (ViewTotals_effect _ _ _ _ Htot) as (Ht1 & Ht2 & Ht3).
  pose proof (ViewMatches_effect _ _ _ _ Hmat) as (Hm1 & Hm2 & Hm3).
  split; [by eapply Forall2_sameButStyles_trans|].
  split; [intros p Hpm Hpt; rewrite Hm2 by done; by apply Ht2|].
  split.
  { intros Hm Ht. rewrite Hm3, Ht3; [done| |].
    - destruct Ht as [Ht|Ht]; [by left|right]. by rewrite Ht.
    - destruct Hm as [Hm|Hm]; [by left|right]. by rewrite Hm. }
  split; [done|]. split; [|split].
  - intros p Hpm Hpt.
    rewrite (ViewMatches_closed _ _ _ _ p Hmat Hpm).
    exact (ViewTotals_closed _ _ _ _ p Htot Hpt).
  - intros _ p Hp Hidx.
    pose proof (ViewMatches_exact _ _ _ _ Hmat) as Hexact. rewrite Hp in Hexact.
    destruct (Z.eqb_spec (matchesTableHighlightedIdx m) (-1)) as [|_]; [done|].
    simpl in Hexact. destruct Hexact as (t1 & Ht1mid & ->).
    rewrite list_lookup_insert_eq by (by eapply lookup_lt_Some).
    destruct (decide (totalsTable m = Some p ∧ highlightedGroup m ≠ ""))
      as [[Hpt Hhg]|Hclosed].
    + pose proof (ViewTotals_exact _ _ _ _ Htot) as Hexact. rewrite Hpt in Hexact.
      destruct (String.eqb_spec (highlightedGroup m) "") as [|_]; [done|].
      simpl in Hexact. destruct Hexact as (t & Ht & Hmid).
      exists t. split; [done|]. rewrite Hmid in Ht1mid.
      rewrite list_lookup_insert_eq in Ht1mid by (by eapply lookup_lt_Some).
      by injection Ht1mid as <-.
    + exists t1. split; [|done]. rewrite <- Ht1mid. symmetry.
      apply (ViewTotals_closed _ _ _ _ p Htot).
      destruct (decide (totalsTable m = Some p)) as [Hpt|Hpt]; [|by left].
      right. destruct (decide (highlightedGroup m = "")) as [Hhg|Hhg]; [done|].
      by destruct Hclosed.
  - intros _ p Hp Hhg.
    pose proof (ViewTotals_exact _ _ _ _ Htot) as Hexact. rewrite Hp in Hexact.
    destruct (String.eqb_spec (highlightedGroup m) "") as [|_]; [done|].
    simpl in Hexact. destruct Hexact as (t & Ht & Hmid).
    exists t. split; [done|].
    assert (hmid !! p = Some (table_SetStyles t StylesSelected)) as Hmidp.
    { rewrite Hmid.
      by rewrite list_lookup_insert_eq by (by eapply lookup_lt_Some). }
    destruct (decide (matchesTable m = Some p ∧ matchesTableHighlightedIdx m ≠ (-1)%Z))
      as [[Hpm Hidx]|Hclosed].
    + pose proof (ViewMatches_exact _ _ _ _ Hmat) as Hexact. rewrite Hpm in Hexact.
      destruct (Z.eqb_spec (matchesTableHighlightedIdx m) (-1)) as [|_]; [done|].
      simpl in Hexact. destruct Hexact as (t1 & Hmid1 & ->).
      rewrite list_lookup_insert_eq by (by eapply lookup_lt_Some).
      rewrite Hmidp in Hmid1. by injection Hmid1 as <-.
    + rewrite <- Hmidp. apply (ViewMatches_closed _ _ _ _ p Hmat).
      destruct (decide (matchesTable m = Some p)) as [Hpm|Hpm]; [|by left].
      right.
      destruct (decide (matchesTableHighlightedIdx m = (-1)%Z)) as [Hidx|Hidx];
        [done|].
      by destruct Hclosed.
Qed.

Lemma C5_view_restyles_only_witness :
  ∃ m h s h' pm pt,
    run [(listed, KeyMsg "x");
         (listed, ResultMsg "q" (Some matchesAndTotals) None);
         (listed, KeyMsg "down");
         (listed, UpdateMsg ["a"; "<float>"])] = Ok (m, h) ∧
    View m h = Ok (s, h') ∧
    matchesTable m = Some pm ∧ totalsTable m = Some pt ∧
    matchesTableHighlightedIdx m = (-1)%Z ∧ highlightedGroup m = "a" ∧
    h' !! pm = h !! pm ∧
    (tstyles <$> h !! pt) = Some StylesPlain ∧
    (tstyles <$> h' !! pt) = Some StylesSelected.
Proof.
  match eval vm_compute in
        (run [(listed, KeyMsg "x");
              (listed, ResultMsg "q" (Some matchesAndTotals) None);
              (listed, KeyMsg "down");
              (listed, UpdateMsg ["a"; "<float>"])]) with
  | Ok (?m, ?h) =>
      pose (m0 := m); pose (h0 := h);
      match eval vm_compute in (View m h) with
      | Ok (?s, ?h') => pose (s1 := s); pose (h1 := h')
      end
  end.
  assert (run [(listed, KeyMsg "x");
               (listed, ResultMsg "q" (Some matchesAndTotals) None);
               (listed, KeyMsg "down");
               (listed, UpdateMsg ["a"; "<float>"])] = Ok (m0, h0))
    as Hrun by by_evaluation.
  assert (View m0 h0 = Ok (s1, h1)) as Hview by by_evaluation.
  destruct (C5_view_restyles_only m0 h0 s1 h1 Hview)
    as (_ & _ & _ & _ & Hclosed & _ & Hopen).
  exists m0, h0, s1, h1, 0%nat, 1%nat.
  assert (ready m0 = true) as Hready by by_evaluation.
  assert (matchesTable m0 = Some 0%nat) as Hpm by by_evaluation.
  assert (totalsTable m0 = Some 1%nat) as Hpt by by_evaluation.
  assert (matchesTableHighlightedIdx m0 = (-1)%Z) as Hidx by by_evaluation.
  assert (highlightedGroup m0 = "a") as Hhg by by_evaluation.
  assert (totalsTable m0 ≠ Some 0%nat) as Hne by (rewrite Hpt; discriminate).
  assert (highlightedGroup m0 ≠ "") as Hhg' by (rewrite Hhg; discriminate).
  split; [exact Hrun|]. split; [exact Hview|].
  split; [exact Hpm|]. split; [exact Hpt|].
  split; [exact Hidx|]. split; [exact Hhg|]. split; [|split].
  - exact (Hclosed 0%nat (or_intror Hidx) (or_introl Hne)).
  - by_evaluation.
  - destruct (Hopen Hready 1%nat Hpt Hhg') as (t & _ & Ht).
    rewrite Ht. reflexivity.
Defined.

(** ** The tables, in closed form *)

Lemma matchRow_eq `{Toolkit} columns match_ :
  matchRow columns match_ =
    Time_String (Time match_) :: map (matchCell match_) (drop 1 columns).
Proof. unfold matchRow. by rewrite fold_left_snoc. Qed.

Lemma UpdateMatchesTable_cons `{Toolkit} range m h r first rest :
  Matches r = first :: rest →
  UpdateMatchesTable range m h (Some r) =
    (set_matchesTable (set_matchesTableHighlightedIdx m (-1)) (Some (length h)),
     h ++ [matchesTableFor (range (Data first)) r]).
Proof.
  intros Hm. unfold UpdateMatchesTable, alloc, matchesTableFor. rewrite Hm.
  cbv zeta. rewrite <- Hm. rewrite !fold_left_snoc. simpl.
  erewrite (map_ext (matchRow _)); [reflexivity|].
  intros match_. by rewrite matchRow_eq.
Qed.

Lemma UpdateMatchesTable_nil `{Toolkit} range m h result :
  (result = None ∨ ∃ r, result = Some r ∧ Matches r = []) →
  UpdateMatchesTable range m h result =
    (set_matchesTable (set_matchesTableHighlightedIdx m (-1)) None, h).
Proof.
  intros [->|(r & -> & Hr)]; [done|]. unfold UpdateMatchesTable. by rewrite Hr.
Qed.

Lemma totalsRow_eq `{Toolkit} keys total :
  totalsRow keys total =
    map (fun k => Sprintf_v (mapIndex (Group total) k)) keys
    ++ map (fun a => Sprintf_v (Value a)) (Aggregations total).
Proof. unfold totalsRow. by rewrite !fold_left_snoc. Qed.

Lemma UpdateTotals_Some `{Toolkit} m h r qm :
  Totals (Buckets r) ≠ [] →
  queryMeta m = Some qm →
  UpdateTotals m h (Some r) =
    Ok (set_totalsTable m (Some (length h)), h ++ [totalsTableFor qm r]).
Proof.
  intros Ht Hqm. unfold UpdateTotals, alloc, totalsTableFor.
  destruct (Nat.eqb_spec (length (Totals (Buckets r))) 0) as [Hz|_].
  { by apply length_zero_iff_nil in Hz. }
  rewrite Hqm. simpl. rewrite !fold_left_snoc. simpl.
  erewrite (map_ext (totalsRow _)); [reflexivity|].
  intros total. by rewrite totalsRow_eq.
Qed.

(** [UpdateTotals] appends to the heap, and what it appends does not
    depend on the tables already there. *)
Lemma UpdateTotals_heap `{Toolkit} m h h' result m3 h3 :
  length h' = length h →
  UpdateTotals m h result = Ok (m3, h3) →
  ∃ tail, h3 = h ++ tail ∧ UpdateTotals m h' result = Ok (m3, h' ++ tail) ∧
          ∀ p, totalsTable m3 = Some p → p = length h.
Proof.
  intros Hlen Hu.
  destruct result as [r|].
  { destruct (decide (Totals (Buckets r) = [])) as [Ht|Ht].
    { rewrite UpdateTotals_None in Hu by eauto. rewrite UpdateTotals_None by eauto.
      exists []. rewrite !app_nil_r. by inv_res. }
    destruct (queryMeta m) as [qm|] eqn:Hqm.
    - rewrite (UpdateTotals_Some m h r qm) in Hu by done.
      rewrite (UpdateTotals_Some m h' r qm) by done. inv_res.
      exists [totalsTableFor qm r]. rewrite Hlen. repeat split. simpl. congruence.
    - unfold UpdateTotals in Hu.
      destruct (Nat.eqb_spec (length (Totals (Buckets r))) 0) as [Hz|_].
      { by apply length_zero_iff_nil in Hz. }
      rewrite Hqm in Hu. done. }
  rewrite UpdateTotals_None in Hu by eauto. rewrite UpdateTotals_None by eauto.
  exists []. rewrite !app_nil_r. by inv_res.
Qed.

(** ** C6: projecting the same result twice *)

Lemma fold_left_pointwise {A B} (f g : A → B → A) (l : list B) (a : A) :
  (∀ a x, f a x = g a x) → fold_left f l a = fold_left g l a.
Proof.
  intros Hfg. revert a. induction l as [|x l IH]; intros a; simpl; [done|].
  by rewrite Hfg, IH.
Qed.

Lemma metaGroupStep_order `{Toolkit} (r1 r2 : RangeOrder) acc group :
  validRange r1 → validRange r2 →
  metaGroupStep r1 acc group = metaGroupStep r2 acc group.
Proof.
  intros H1 H2. unfold metaGroupStep. destruct acc as [[keys count] gs].
  destruct ((length keys =? 0)%nat && (0 <? size (Group group))%nat); [|done].
  rewrite !(fold_left_snoc id), !map_id.
  rewrite (sort_Strings_order (keys ++ r1 (Group group)) (keys ++ r2 (Group group))); [done|].
  by rewrite (H1 (Group group)), (H2 (Group group)).
Qed.

(** The query meta does not depend on the enumeration of the group map:
    the keys are sorted after they are collected. *)
Lemma UpdateQueryMeta_order `{Toolkit} (r1 r2 : RangeOrder) m result :
  validRange r1 → validRange r2 →
  UpdateQueryMeta r1 m result = UpdateQueryMeta r2 m result.
Proof.
  intros H1 H2. unfold UpdateQueryMeta.
  destruct result as [r|]; [|done].
  destruct (length (Series (Buckets r)) =? 0)%nat; [done|].
  rewrite (fold_left_pointwise
             (fun acc interval => fold_left (metaGroupStep r1) (Groups interval) acc)
             (fun acc interval => fold_left (metaGroupStep r2) (Groups interval) acc)); [done|].
  intros acc interval. apply fold_left_pointwise.
  intros acc' group. by apply metaGroupStep_order.
Qed.

Lemma validOrder_listed : validOrder listed.
Proof. split; intros m; reflexivity. Qed.

Lemma validOrder_backwards : validOrder backwards.
Proof. split; intros m; simpl; apply reverse_Permutation. Qed.

Lemma zip_fmap_both {A B C} (f : A → B) (g : A → C) (l : list A) :
  zip (map f l) (map g l) = map (fun x => (f x, g x)) l.
Proof. induction l as [|x l IH]; simpl; [done|]. by rewrite IH. Qed.

(** Two enumerations of the first match's data give tables with the same
    columns and the same cells under them, in a different order. *)
Lemma matchesTableFor_order `{Toolkit} (keys1 keys2 : list string) r :
  keys1 ≡ₚ keys2 →
  let t1 := matchesTableFor keys1 r in
  let t2 := matchesTableFor keys2 r in
  tcols t2 ≡ₚ tcols t1 ∧
  head (tcols t2) = head (tcols t1) ∧
  length (trows t2) = length (trows t1) ∧
  (∀ j row1 row2,
     trows t1 !! j = Some row1 → trows t2 !! j = Some row2 →
     zip (tcols t2) row2 ≡ₚ zip (tcols t1) row1) ∧
  tcursor t2 = tcursor t1 ∧ tfocus t2 = tfocus t1 ∧ tstyles t2 = tstyles t1.
Proof.
  intros Hp. simpl. split.
  { unfold matchesColumns. apply perm_skip, Permutation_map. by symmetry. }
  split; [done|].
  split; [by rewrite !length_map|]. split; [|done].
  intros j row1 row2 H1 H2.
  rewrite list_lookup_fmap in H1, H2.
  destruct (Matches r !! j) as [match_|]; simpl in *; [|done].
  simplify_eq. unfold matchesColumns. simpl. constructor.
  rewrite !drop_0.
  rewrite !map_map.
  rewrite !(zip_fmap_both (fun k => {| Title := k; Width := 10 |})).
  apply Permutation_map. by symmetry.
Qed.

Lemma lookup_middle_ne {A} (l1 l2 : list A) (x y : A) (p : nat) :
  p ≠ length l1 → ((l1 ++ [x]) ++ l2) !! p = ((l1 ++ [y]) ++ l2) !! p.
Proof.
  intros Hp. rewrite <- !app_assoc. simpl.
  destruct (Nat.lt_ge_cases p (length l1)) as [Hlt|Hge].
  - by rewrite !lookup_app_l.
  - rewrite !lookup_app_r by done.
    destruct (p - length l1)%nat as [|n] eqn:Hn; [lia|done].
Qed.

(** C6 (as stated): projecting the same result twice yields the same
    column sequence of the matches table.  It need not: two enumerations
    of the first match's data map, both of which Go may produce, give the
    columns in different orders. *)
Lemma C6_counterexample :
  validOrder listed ∧ validOrder backwards ∧
  ∃ m1 h1 c1 m2 h2 c2 p t1 t2,
    Update listed initialModel [] (ResultMsg "q" (Some matchesOnly) None) = Ok (m1, h1, c1) ∧
    Update backwards initialModel [] (ResultMsg "q" (Some matchesOnly) None) = Ok (m2, h2, c2) ∧
    matchesTable m1 = Some p ∧ matchesTable m2 = Some p ∧
    h1 !! p = Some t1 ∧ h2 !! p = Some t2 ∧
    Title <$> tcols t1 = ["_time"; "msg"; "level"] ∧
    Title <$> tcols t2 = ["_time"; "level"; "msg"] ∧
    tcols t1 ≠ tcols t2.
Proof.
  split; [apply validOrder_listed|]. split; [apply validOrder_backwards|].
  match eval vm_compute in
        (Update listed initialModel [] (ResultMsg "q" (Some matchesOnly) None)) with
  | Ok (?m1, ?h1, ?c1) =>
      match eval vm_compute in
            (Update backwards initialModel [] (ResultMsg "q" (Some matchesOnly) None)) with
      | Ok (?m2, ?h2, ?c2) =>
          match h1 with
          | [?t1] => match h2 with
                     | [?t2] => exists m1, h1, c1, m2, h2, c2, 0%nat, t1, t2
                     end
          end
      end
  end.
  repeat split; try by_evaluation. vm_compute. discriminate.
Qed.

(** C6 (amended). Projecting the same QueryResult twice yields the same
    model (the same QueryMeta, the same graphs with the same data
    matrices, the same table pointers), the same command and the same
    totals table; the matches tables of the two runs have the same
    leading [_time] column, the same columns up to their order and, row
    by row, the same cells under the same columns: only the order of the
    columns after [_time] depends on the run. *)
Theorem C6_projection_up_to_column_order `{Toolkit} o1 o2 m h apl result e m1 h1 c1 :
  validOrder o1 → validOrder o2 →
  Update o1 m h (ResultMsg apl result e) = Ok (m1, h1, c1) →
  ∃ h2,
    Update o2 m h (ResultMsg apl result e) = Ok (m1, h2, c1) ∧
    length h2 = length h1 ∧
    (∀ p, matchesTable m1 ≠ Some p → h2 !! p = h1 !! p) ∧
    (∀ p, totalsTable m1 = Some p → h2 !! p = h1 !! p) ∧
    (∀ p t1, matchesTable m1 = Some p → h1 !! p = Some t1 →
       ∃ t2, h2 !! p = Some t2 ∧
             tcols t2 ≡ₚ tcols t1 ∧
             head (tcols t2) = head (tcols t1) ∧
             length (trows t2) = length (trows t1) ∧
             (∀ j row1 row2,
                trows t1 !! j = Some row1 → trows t2 !! j = Some row2 →
                zip (tcols t2) row2 ≡ₚ zip (tcols t1) row1) ∧
             tcursor t2 = tcursor t1 ∧ tfocus t2 = tfocus t1 ∧
             tstyles t2 = tstyles t1).
Proof.
  intros [Hg1 Hd1] [Hg2 Hd2]. simpl. unfold updateResult. intros Hu.
  rewrite (UpdateQueryMeta_order (rangeGroup o2) (rangeGroup o1)) by done.
  inv_res. rewrite Hstep. simpl.
  assert ((result = None ∨ ∃ r, result = Some r ∧ Matches r = []) ∨
          ∃ r first rest, result = Some r ∧ Matches r = first :: rest) as [Hnil|Hcons].
  { destruct result as [r|]; [|by left; left].
    destruct (Matches r) as [|first rest] eqn:Hm; [left; right; by exists r|].
    right. by exists r, first, rest. }
  - rewrite UpdateMatchesTable_nil in Hu by done.
    rewrite UpdateMatchesTable_nil by done.
    exists h1. split; [exact Hu|]. split; [done|]. split; [done|]. split; [done|].
    intros p t1 _ Hp. exists t1. repeat split; try done.
    intros j row1 row2 Hr1 Hr2. by simplify_eq.
  - destruct Hcons as (r & first & rest & -> & Hm).
    rewrite (UpdateMatchesTable_cons _ _ _ _ first rest) in Hu by done.
    rewrite (UpdateMatchesTable_cons _ _ _ _ first rest) by done.
    inv_res.
    set (T1 := matchesTableFor (rangeData o1 (Data first)) r) in *.
    set (T2 := matchesTableFor (rangeData o2 (Data first)) r) in *.
    apply (UpdateTotals_heap _ _ (h ++ [T2])) in Hstep0
      as (tail & -> & Hstep0 & Hptr); [|by rewrite !length_app].
    rewrite Hstep0. cbn [mbind res_bind]. rewrite Hstep1. cbn [mbind res_bind].
    unfold SetRefreshing in Hu. cbv beta iota zeta in Hu. inv_res.
    exists ((h ++ [T2]) ++ tail). split; [done|].
    pose proof (UpdateTotals_frame _ _ _ _ _ Hstep0) as F3.
    pose proof (UpdateGraphs_frame _ _ _ Hstep1) as F4.
    assert (matchesTable a0 = Some (length h)) as Hmt.
    { rewrite F4. simpl. rewrite F3. done. }
    assert (totalsTable a0 = totalsTable m0) as Htt.
    { rewrite F4. done. }
    simpl. rewrite Hmt, Htt.
    split; [by rewrite !length_app|]. split; [|split].
    + intros p Hp. apply lookup_middle_ne. congruence.
    + intros p Hp. apply lookup_middle_ne. apply Hptr in Hp.
      rewrite length_app in Hp. simpl in Hp. lia.
    + intros p t1 [= <-] Hp.
      rewrite <- app_assoc in Hp. cbn [app] in Hp.
      rewrite list_lookup_middle in Hp by done. injection Hp as <-.
      exists T2. split.
      { rewrite <- app_assoc. cbn [app]. by rewrite list_lookup_middle. }
      apply matchesTableFor_order.
      by rewrite (Hd1 (Data first)), (Hd2 (Data first)).
Qed.

Lemma C6_projection_up_to_column_order_witness :
  ∃ m1 h1 c1,
    validOrder listed ∧ validOrder backwards ∧
    Update listed initialModel [] (ResultMsg "q" (Some matchesOnly) None) = Ok (m1, h1, c1) ∧
    ∃ h2,
      Update backwards initialModel [] (ResultMsg "q" (Some matchesOnly) None)
        = Ok (m1, h2, c1) ∧
      length h2 = length h1 ∧
      (∀ p, matchesTable m1 ≠ Some p → h2 !! p = h1 !! p) ∧
      (∀ p, totalsTable m1 = Some p → h2 !! p = h1 !! p) ∧
      (∀ p t1, matchesTable m1 = Some p → h1 !! p = Some t1 →
         ∃ t2, h2 !! p = Some t2 ∧
               tcols t2 ≡ₚ tcols t1 ∧
               head (tcols t2) = head (tcols t1) ∧
               length (trows t2) = length (trows t1) ∧
               (∀ j row1 row2,
                  trows t1 !! j = Some row1 → trows t2 !! j = Some row2 →
                  zip (tcols t2) row2 ≡ₚ zip (tcols t1) row1) ∧
               tcursor t2 = tcursor t1 ∧ tfocus t2 = tfocus t1 ∧
               tstyles t2 = tstyles t1).
Proof.
  evaluate_outcome m1 h1 c1. exists m1, h1, c1.
  split; [apply validOrder_listed|]. split; [apply validOrder_backwards|].
  split; [by_evaluation|].
  apply (C6_projection_up_to_column_order listed backwards initialModel []
           "q" (Some matchesOnly) None m1 h1 c1);
    [apply validOrder_listed|apply validOrder_backwards|by_evaluation].
Defined.

(** ** C9: from a totals row to a graph row *)

Lemma getGroupKey_eq `{Toolkit} keys group :
  getGroupKey keys group =
    String.concat ", " (map (fun k => Sprintf_v (mapIndex group k)) keys).
Proof. unfold getGroupKey. by rewrite fold_left_snoc. Qed.

Lemma fold_left_invariant {A B} (P : A → Prop) (f : A → B → A) (l : list B) (a : A) :
  (∀ a x, P a → P (f a x)) → P a → P (fold_left f l a).
Proof.
  intros Hf. revert a. induction l as [|x l IH]; intros a Ha; simpl; [done|].
  apply IH. by apply Hf.
Qed.

Lemma keysOf_NoDup (m : gmap string any) : NoDup (keysOf m).
Proof. apply NoDup_fst_map_to_list. Qed.

Lemma metaGroupStep_keys_NoDup `{Toolkit} range acc group :
  validRange range → NoDup acc.1.1 → NoDup (metaGroupStep range acc group).1.1.
Proof.
  intros Hr. unfold metaGroupStep. destruct acc as [[keys count] gs]. simpl.
  intros Hkeys.
  destruct (Nat.eqb_spec (length keys) 0) as [Hz|_]; simpl; [|done].
  destruct (0 <? size (Group group))%nat; [|done].
  apply length_zero_iff_nil in Hz as ->.
  rewrite (fold_left_snoc id), map_id. simpl.
  rewrite sort_Strings_perm, (Hr (Group group)). apply keysOf_NoDup.
Qed.

(** The ordered group keys are the keys of one map: they do not repeat. *)
Lemma UpdateQueryMeta_keys_NoDup `{Toolkit} range m result m1 qm :
  validRange range →
  UpdateQueryMeta range m result = Ok m1 →
  queryMeta m1 = Some qm →
  NoDup (orderedGroupKeys qm).
Proof.
  intros Hr Hu Hqm. unfold UpdateQueryMeta in Hu.
  destruct result as [r|]; [|inv_res; by simpl in Hqm].
  destruct (length (Series (Buckets r)) =? 0)%nat; [inv_res; by simpl in Hqm|].
  pose proof (fold_left_invariant (fun acc => NoDup acc.1.1)
                (fun acc interval => fold_left (metaGroupStep range) (Groups interval) acc)
                (Series (Buckets r)) ([], 0%nat, [])) as Hinv.
  destruct (fold_left _ (Series (Buckets r)) _) as [[keys count] gs].
  inv_res. simpl in Hqm. injection Hqm as <-. simpl.
  apply Hinv; [|constructor].
  intros acc interval Hacc. apply fold_left_invariant; [|done].
  intros acc' group. by apply metaGroupStep_keys_NoDup.
Qed.

(** The map the highlight closure fills from a row. *)
Lemma rowGroup_build (keys : list string) (row : Row) :
  NoDup keys → (length keys ≤ length row)%nat →
  ∃ group : gmap string any,
    foldM (fun (group : gmap string any) '(i, key) =>
             cell ← index row i; Ok (<[key := AString cell]> group))
      ∅ (enumerate keys) = Ok group ∧
    ∀ i k, keys !! i = Some k → group !! k = AString <$> row !! i.
Proof.
  induction keys as [|k keys IH] using rev_ind; intros Hnd Hlen.
  - exists ∅. split; [done|]. intros i k Hk. by rewrite lookup_nil in Hk.
  - apply NoDup_app in Hnd as (Hnd & Hnotin & _).
    rewrite length_app in Hlen. simpl in Hlen.
    destruct IH as (group & Hf & Hgroup); [done|lia|].
    destruct (lookup_lt_is_Some_2 row (length keys)) as [c Hc]; [lia|].
    exists (<[k := AString c]> group). split.
    + rewrite enumerate_snoc, foldM_app, Hf. simpl. unfold index. by rewrite Hc.
    + intros i k' Hk'.
      destruct (Nat.lt_ge_cases i (length keys)) as [Hlt|Hge].
      * rewrite lookup_app_l in Hk' by done.
        rewrite lookup_insert_ne; [by apply Hgroup|].
        intros ->. apply (Hnotin k'); [|by left].
        by eapply list_elem_of_lookup_2.
      * rewrite lookup_app_r in Hk' by done.
        destruct (i - length keys)%nat as [|n] eqn:Hn; simpl in Hk'; [|done].
        injection Hk' as <-. assert (i = length keys) as -> by lia.
        by rewrite lookup_insert_eq, Hc.
Qed.

(** The key formed from a row is the join of its leading cells. *)
Lemma rowGroupKey_take `{Toolkit} (keys : list string) (row : Row) :
  NoDup keys → (length keys ≤ length row)%nat →
  rowGroupKey keys row = Ok (String.concat ", " (take (length keys) row)).
Proof.
  intros Hnd Hlen. unfold rowGroupKey.
  destruct (rowGroup_build keys row Hnd Hlen) as (group & -> & Hgroup). simpl.
  rewrite getGroupKey_eq. do 2 f_equal.
  apply list_eq. intros i. rewrite list_lookup_fmap.
  destruct (keys !! i) as [k|] eqn:Hk; simpl.
  - rewrite lookup_take_lt by (by eapply lookup_lt_Some).
    unfold mapIndex. rewrite (Hgroup i k Hk).
    destruct (lookup_lt_is_Some_2 row i) as [c ->]; [|done].
    apply lookup_lt_Some in Hk. lia.
  - rewrite lookup_take_ge; [done|]. by apply lookup_ge_None.
Qed.

(** C9 (as stated): the key of any totals row is found in meta.groups at
    an index in range.  It is not when the total's group occurs in no
    interval: the search returns the length of the groups. *)
Lemma C9_counterexample :
  ∃ m' h' c qm p t,
    Update listed initialModel [] (ResultMsg "q" (Some strayTotal) None) = Ok (m', h', c) ∧
    queryMeta m' = Some qm ∧
    totalsTable m' = Some p ∧ h' !! p = Some t ∧
    trows t = [["b"; "<float>"]] ∧
    rowGroupKey (orderedGroupKeys qm) ["b"; "<float>"] = Ok "b" ∧
    groups qm = ["a"] ∧
    SearchStrings (groups qm) "b" = length (groups qm).
Proof.
  evaluate_outcome m' h' c. evaluate_field (queryMeta m') qm.
  evaluate_field (totalsTable m') p. evaluate_field (h' !! p) t.
  exists m', h', c, qm, p, t. repeat split; by_evaluation.
Qed.

(** C9 (amended). For any totals row, forming its group-key (the first
    |orderedGroupKeys| cells joined by the group-key formation) gives the
    group key of its total; if that key is one of meta.groups, looking it
    up in meta.groups by binary search returns its index, in range
    [0, |groups|-1], and for that index, when no highlight is active, the
    graph row color is groupColors[group], a palette color and not the
    dimmed sentinel.  (A total whose group occurs in no interval has a key
    outside meta.groups.) *)
Theorem C9_group_key_round_trip `{Toolkit} order m h apl r e m' h' c qm p t row :
  validOrder order →
  Update order m h (ResultMsg apl (Some r) e) = Ok (m', h', c) →
  queryMeta m' = Some qm →
  totalsTable m' = Some p → h' !! p = Some t →
  row ∈ trows t →
  ∃ key total,
    rowGroupKey (orderedGroupKeys qm) row = Ok key ∧
    key = String.concat ", " (take (length (orderedGroupKeys qm)) row) ∧
    total ∈ Totals (Buckets r) ∧
    key = getGroupKey (orderedGroupKeys qm) (Group total) ∧
    (key ∈ groups qm →
       let idx := SearchStrings (groups qm) key in
       (idx < length (groups qm))%nat ∧
       groups qm !! idx = Some key ∧
       highlightedGroup m' = "" ∧
       ∀ gs G, graphs m' = Some gs → G ∈ gs →
         ∃ color, colors G !! idx = Some color ∧
                  groupColors qm !! key = Some color ∧
                  color = paletteColor key ∧
                  color ≠ SlateGray).
Proof.
  intros [Hvg Hvd] Hu Hqm Htt Hp Hrow. simpl in Hu.
  apply updateResult_steps in Hu
    as (qm' & mt & h2 & tt & gs' & H1 & H2 & H3 & H4 & -> & ->).
  simpl in Hqm, Htt. subst qm' tt.
  pose proof (UpdateQueryMeta_keys_NoDup _ _ _ _ qm Hvg H1 eq_refl) as Hnd.
  destruct (decide (Series (Buckets r) = [])) as [Hs|Hs].
  { rewrite UpdateQueryMeta_None in H1 by eauto. by inv_res. }
  destruct (UpdateQueryMeta_Some (rangeGroup order)
              (UpdateQuery
                 (set_highlightedGroup
                    (set_textarea m (textarea_setFocus (textarea m) false)) "")
                 apl (Some r) e) r Hs) as (qm0 & Hq0 & _ & Hsorted & Hcolors).
  rewrite Hq0 in H1. injection H1 as H1. subst qm0.
  destruct (decide (Totals (Buckets r) = [])) as [Ht|Ht].
  { rewrite UpdateTotals_None in H3 by eauto. by inv_res. }
  rewrite (UpdateTotals_Some _ _ _ qm) in H3 by done.
  injection H3 as <- <-. rewrite list_lookup_middle in Hp by done. injection Hp as <-.
  simpl in Hrow. apply list_elem_of_fmap in Hrow as (total & -> & Htotal).
  set (cells := map (fun k => Sprintf_v (mapIndex (Group total) k)) (orderedGroupKeys qm)).
  assert (length cells = length (orderedGroupKeys qm)) as Hcells
    by (unfold cells; by rewrite length_map).
  exists (getGroupKey (orderedGroupKeys qm) (Group total)), total.
  assert (take (length (orderedGroupKeys qm))
            (cells ++ map (fun a => Sprintf_v (Value a)) (Aggregations total)) = cells)
    as Htake.
  { rewrite take_app_le by lia. rewrite take_ge by lia. done. }
  split; [|split; [|split; [done|split; [done|]]]].
  - rewrite rowGroupKey_take; [|done|rewrite length_app; lia].
    by rewrite Htake, getGroupKey_eq.
  - by rewrite Htake, getGroupKey_eq.
  - intros Hin.
    pose proof (SearchStrings_found _ _ Hsorted Hin) as Hfound.
    split; [by eapply lookup_lt_Some|]. split; [done|]. split; [done|].
    intros gs G Hgs HG. simpl in Hgs. subst gs'.
    eapply (UpdateGraphs_Some _ qm) in H4 as (gs0 & Heq & _ & Hcol & _); [|done..].
    apply (f_equal graphs) in Heq. simpl in Heq. injection Heq as <-.
    assert (colors G ∈ map colors gs) as HcG by (by apply list_elem_of_fmap_2).
    rewrite Hcol in HcG. apply list_elem_of_fmap in HcG as (op & -> & _).
    exists (paletteColor (getGroupKey (orderedGroupKeys qm) (Group total))).
    split; [|split; [by apply Hcolors|split; [done|apply paletteColor_not_SlateGray]]].
    rewrite list_lookup_fmap, Hfound. simpl. f_equal.
    unfold seriesColor. simpl. by rewrite (Hcolors _ Hin).
Qed.

Lemma C9_group_key_round_trip_witness :
  ∃ m' h' c qm p t row,
    validOrder listed ∧
    Update listed initialModel [] (ResultMsg "q" (Some twoGroups) None) = Ok (m', h', c) ∧
    queryMeta m' = Some qm ∧
    totalsTable m' = Some p ∧ h' !! p = Some t ∧
    row ∈ trows t ∧
    ∃ key total,
      rowGroupKey (orderedGroupKeys qm) row = Ok key ∧
      key = String.concat ", " (take (length (orderedGroupKeys qm)) row) ∧
      total ∈ Totals (Buckets twoGroups) ∧
      key = getGroupKey (orderedGroupKeys qm) (Group total) ∧
      (key ∈ groups qm →
         let idx := SearchStrings (groups qm) key in
         (idx < length (groups qm))%nat ∧
         groups qm !! idx = Some key ∧
         highlightedGroup m' = "" ∧
         ∀ gs G, graphs m' = Some gs → G ∈ gs →
           ∃ color, colors G !! idx = Some color ∧
                    groupColors qm !! key = Some color ∧
                    color = paletteColor key ∧
                    color ≠ SlateGray).
Proof.
  evaluate_outcome m' h' c. evaluate_field (queryMeta m') qm.
  evaluate_field (totalsTable m') p. evaluate_field (h' !! p) t.
  exists m', h', c, qm, p, t, ["b"; "<float>"].
  split; [apply validOrder_listed|]. split; [by_evaluation|].
  split; [by_evaluation|]. split; [by_evaluation|]. split; [by_evaluation|].
  assert (["b"; "<float>"] ∈ trows t) as Hrow.
  { apply list_elem_of_lookup. exists 1%nat. by_evaluation. }
  split; [exact Hrow|].
  apply (C9_group_key_round_trip listed initialModel [] "q" twoGroups None m' h' c qm p t);
    [apply validOrder_listed|by_evaluation|by_evaluation|by_evaluation|by_evaluation
    |exact Hrow].
Defined.

(** ** C10: the highlighted match *)

Lemma wrap_int_id (z : Z) : (- 2 ^ 63 ≤ z < 2 ^ 63)%Z → wrap_int z = z.
Proof. intros Hz. unfold wrap_int. rewrite Z.mod_small; lia. Qed.

Lemma wrap_int_range (z : Z) : (- 2 ^ 63 ≤ wrap_int z < 2 ^ 63)%Z.
Proof.
  unfold wrap_int.
  pose proof (Z.mod_pos_bound (z + 2 ^ 63) (2 ^ 64)). lia.
Qed.

Lemma rowsKept_refl (h : Heap) : rowsKept h h.
Proof. intros p t Hp. by exists t. Qed.

Lemma rowsKept_app (h tail : Heap) : rowsKept h (h ++ tail).
Proof. intros p t Hp. exists t. split; [|done]. by apply lookup_app_l_Some. Qed.

Lemma rowsKept_insert (h : Heap) (p : nat) (t t' : Table) :
  h !! p = Some t → trows t' = trows t → rowsKept h (<[p := t']> h).
Proof.
  intros Hp Hrows q tq Hq. destruct (decide (q = p)) as [->|Hne].
  - exists t'. rewrite list_lookup_insert_eq by (by eapply lookup_lt_Some).
    split; [done|]. by simplify_eq.
  - exists tq. by rewrite list_lookup_insert_ne.
Qed.

Lemma rowsKept_restyled (h h' : Heap) : Forall2 sameButStyles h h' → rowsKept h h'.
Proof.
  intros Hf p t Hp.
  destruct (Forall2_lookup_l _ _ _ _ _ Hf Hp) as (t' & Hp' & _ & Hrows & _).
  by exists t'.
Qed.

Lemma rowsKept_trans (h1 h2 h3 : Heap) : rowsKept h1 h2 → rowsKept h2 h3 → rowsKept h1 h3.
Proof.
  intros H12 H23 p t Hp.
  destruct (H12 p t Hp) as (t2 & Hp2 & Hr2).
  destruct (H23 p t2 Hp2) as (t3 & Hp3 & Hr3).
  exists t3. split; [done|]. congruence.
Qed.

(** Rendering keeps the rows of every table. *)
Lemma View_rowsKept `{Toolkit} m h s h' : View m h = Ok (s, h') → rowsKept h h'.
Proof.
  unfold View. intros Hv.
  destruct (ready m); simpl in Hv; [|inv_res; apply rowsKept_refl].
  inv_res.
  apply ViewTotals_effect in Hstep as (Ht & _).
  apply ViewMatches_effect in Hstep0 as (Hm & _).
  eapply rowsKept_trans; by apply rowsKept_restyled.
Qed.

(** A step that leaves the matches fields and the stored result alone
    keeps the invariant. *)
Lemma matchesInv_frame (m m' : Model) (h h' : Heap) :
  matchesTable m' = matchesTable m →
  matchesTableHighlightedIdx m' = matchesTableHighlightedIdx m →
  result (query m') = result (query m) →
  rowsKept h h' →
  matchesInv m h → matchesInv m' h'.
Proof.
  intros Hmt Hidx Hres Hheap Hinv p Hp. rewrite Hmt in Hp.
  destruct (Hinv p Hp) as (t & r & Ht & Hr & Hlen & Hne & Hrange).
  destruct (Hheap p t Ht) as (t' & Ht' & Hrows).
  exists t', r. rewrite Hres, Hidx, Hrows. done.
Qed.

Lemma UpdateMatchesHighlight_inv (m : Model) (h : Heap) (inc : Z) (m' : Model) :
  (inc = 1 ∨ inc = -1)%Z →
  is_Some (matchesTable m) →
  matchesInv m h →
  UpdateMatchesHighlight m h inc = Ok m' →
  matchesInv m' h.
Proof.
  intros Hinc [p Hp] Hinv Hu q Hq.
  destruct (Hinv p Hp) as (t & r & Ht & Hr & Hlen & Hne & Hrange).
  assert (0 < Z.of_nat (length (Matches r)))%Z as Hpos.
  { destruct (Matches r); [done|]. simpl. lia. }
  pose proof (wrap_int_range (matchesTableHighlightedIdx m + inc)) as Hwrap.
  unfold UpdateMatchesHighlight, load, int_add in Hu. rewrite Hp in Hu. simpl in Hu.
  rewrite Ht in Hu. simpl in Hu. rewrite Hlen in Hu.
  assert (∀ v, (-1 ≤ v < Z.of_nat (length (Matches r)))%Z →
               m' = set_matchesTableHighlightedIdx m v →
               ∃ t0 r0, h !! q = Some t0 ∧ result (query m') = Some r0 ∧
                        length (trows t0) = length (Matches r0) ∧ Matches r0 ≠ [] ∧
                        (-1 ≤ matchesTableHighlightedIdx m' < Z.of_nat (length (Matches r0)))%Z)
    as Hset.
  { intros v Hv ->. simpl in Hq |- *. rewrite Hp in Hq. injection Hq as <-.
    by exists t, r. }
  destruct (Z.ltb_spec (wrap_int (matchesTableHighlightedIdx m + inc)) 0) as [Hneg|Hnonneg].
  { inv_res. apply (Hset 0%Z); [lia|done]. }
  destruct (Z.leb_spec (Z.of_nat (length (Matches r)))
              (wrap_int (matchesTableHighlightedIdx m + inc))) as [Hge|Hlt]; inv_res.
  - apply (Hset (int_sub (Z.of_nat (length (Matches r))) 1)); [|done].
    unfold int_sub. rewrite wrap_int_id; lia.
  - apply (Hset (wrap_int (matchesTableHighlightedIdx m + inc))); [lia|done].
Qed.

(** The [ResultMsg] case establishes the invariant afresh. *)
Lemma updateResult_matchesInv `{Toolkit} order m h apl result e m' h' c :
  updateResult order m h apl result e = Ok (m', h', c) → matchesInv m' h'.
Proof.
  intros Hu.
  apply updateResult_steps in Hu
    as (qm & mt & h2 & tt & gs & H1 & H2 & H3 & H4 & -> & ->).
  intros p Hp. simpl in Hp. subst mt. simpl.
  apply (UpdateTotals_heap _ _ h2) in H3 as (tail & -> & _ & _); [|done].
  destruct result as [r|]; [|by rewrite UpdateMatchesTable_nil in H2 by eauto].
  destruct (Matches r) as [|first rest] eqn:Hm.
  { rewrite UpdateMatchesTable_nil in H2 by eauto. by inv_res. }
  rewrite (UpdateMatchesTable_cons _ _ _ _ first rest) in H2 by done.
  injection H2 as <- <-.
  eexists _, r. split.
  { apply lookup_app_l_Some. by apply list_lookup_middle. }
  split; [done|]. simpl. rewrite length_map, Hm. simpl. split; [done|].
  split; [done|]. lia.
Qed.

(** Closes the field side conditions of [matchesInv_frame] and leaves the
    heap condition. *)
Ltac keeps_matches Hinv :=
  refine (matchesInv_frame _ _ _ _ _ _ _ _ Hinv); [done..|].

Lemma updateTables_matchesInv `{Toolkit} m h key m' h' cmds :
  tableUpdateKeepsRows →
  matchesInv m h →
  updateTables m h key = Ok (m', h', cmds) →
  matchesInv m' h'.
Proof.
  intros Hkeeps Hinv Hu. unfold updateTables, alloc in Hu.
  destruct (totalsTable m) as [pt|].
  - inv_res. destruct (tfocus a); simpl in Hu.
    + destruct (table_Update a (KeyMsg key)) as [t' cmd]. inv_res.
      keeps_matches Hinv. apply rowsKept_app.
    + inv_res. keeps_matches Hinv. by apply (rowsKept_insert _ pt a).
  - destruct (matchesTable m) as [pm|] eqn:Hpm; [|inv_res; done].
    inv_res.
    pose proof (Hkeeps a (KeyMsg key)) as Hrows.
    destruct (table_Update a (KeyMsg key)) as [t' cmd]. simpl in Hrows.
    inv_res.
    assert (matchesInv (set_matchesTable m (Some (length h))) (h ++ [t'])) as Hinv'.
    { intros q Hq. simpl in Hq. injection Hq as <-. simpl.
      destruct (Hinv pm Hpm) as (t & r & Ht & Hr & Hlen & Hne & Hrange).
      exists t', r. rewrite list_lookup_middle by done.
      assert (a = t) as -> by congruence. by rewrite Hrows. }
    destruct (String.eqb key "down").
    { apply (UpdateMatchesHighlight_inv
               (set_matchesTable m (Some (length h))) (h ++ [t']) 1 m');
        [by left|by eexists|exact Hinv'|exact Hstep0]. }
    destruct (String.eqb key "up").
    { apply (UpdateMatchesHighlight_inv
               (set_matchesTable m (Some (length h))) (h ++ [t']) (-1) m');
        [by right|by eexists|exact Hinv'|exact Hstep0]. }
    by inv_res.
Qed.

Lemma updateKey_matchesInv `{Toolkit} m h key m' h' c :
  tableUpdateKeepsRows →
  matchesInv m h →
  updateKey m h key = Ok (m', h', c) →
  matchesInv m' h'.
Proof.
  intros Hkeeps Hinv Hu. unfold updateKey in Hu.
  destruct (ready m); simpl in Hu; [|inv_res; keeps_matches Hinv; apply rowsKept_refl].
  destruct (String.eqb key "ctrl+c"); [by inv_res|].
  destruct (state m).
  - destruct (String.eqb key "enter").
    + destruct (negb (String.eqb (TrimSpace (tavalue (textarea m))) ""));
        simpl in Hu; inv_res; [|done].
      keeps_matches Hinv. apply rowsKept_refl.
    + destruct (textarea_Update (textarea m) (KeyMsg key)) as [ta cmd]. inv_res.
      keeps_matches Hinv. apply rowsKept_refl.
  - by inv_res.
  - destruct (String.eqb key "esc").
    + destruct (negb (tafocus (textarea m))); inv_res;
        keeps_matches Hinv; apply rowsKept_refl.
    + inv_res. by eapply updateTables_matchesInv.
Qed.

Lemma Update_matchesInv `{Toolkit} order m h msg m' h' c :
  tableUpdateKeepsRows →
  matchesInv m h →
  Update order m h msg = Ok (m', h', c) →
  matchesInv m' h'.
Proof.
  intros Hkeeps Hinv Hu. destruct msg; simpl in Hu.
  - by eapply updateKey_matchesInv.
  - by eapply updateResult_matchesInv.
  - inv_res. unfold highlightUpdate in Hstep. inv_res.
    apply UpdateGraphs_frame in Hstep. rewrite Hstep.
    keeps_matches Hinv. apply rowsKept_refl.
  - destruct (state m); inv_res; try done.
    destruct (spinner_Update (spinner m) SpinnerTickMsg) as [sp cmd]. inv_res.
    keeps_matches Hinv. apply rowsKept_refl.
  - destruct (state m); inv_res; done.
  - destruct (state m); inv_res; done.
  - destruct (negb (ready m)); [|by inv_res].
    unfold UpdatePulse in Hu. destruct (pulseStep m <=? 0)%Z; inv_res; done.
  - destruct (tafocus (textarea m)); [|by inv_res].
    destruct (textarea_Update (textarea m) (OtherMsg tag)) as [ta cmd]. inv_res.
    keeps_matches Hinv. apply rowsKept_refl.
Qed.

Lemma reachable_matchesInv `{Toolkit} m h :
  tableUpdateKeepsRows → reachable m h → matchesInv m h.
Proof.
  intros Hkeeps Hreach.
  induction Hreach as [|order m h msg m' h' cmd _ _ IH Hu|m h s h' _ IH Hv].
  - intros p Hp. done.
  - by eapply Update_matchesInv.
  - keeps_matches IH. by eapply View_rowsKept.
Qed.

Lemma runFrom_reachable `{Toolkit} msgs m0 h0 m h :
  Forall (fun om => validOrder om.1) msgs →
  reachable m0 h0 →
  runFrom m0 h0 msgs = Ok (m, h) →
  reachable m h.
Proof.
  unfold runFrom. intros Hvalid. revert m0 h0.
  induction Hvalid as [|[order msg] msgs Hv _ IH]; intros m0 h0 Hreach Hrun; simpl in Hrun.
  - by inv_res.
  - inv_res. eapply IH; [|done]. by eapply reachable_Update.
Qed.

Lemma run_reachable `{Toolkit} msgs m h :
  Forall (fun om => validOrder om.1) msgs →
  run msgs = Ok (m, h) →
  reachable m h.
Proof.
  intros Hvalid Hrun. unfold run in Hrun.
  by eapply runFrom_reachable; [|apply reachable_init|].
Qed.

Lemma plainToolkit_tableUpdateKeepsRows : tableUpdateKeepsRows.
Proof.
  intros t msg. simpl. unfold plain_table_Update.
  destruct (negb (tfocus t)); [done|].
  destruct msg; try done.
  destruct (String.eqb key "up"); [done|]. by destruct (String.eqb key "down").
Qed.




(** * Further properties of the controller *)

(** ** The pulse of the splash screen *)

(** X1. Before the first key, a pulse message steps [pulseStep] down
    cyclically through 9, 8, ..., 0, 9 and schedules the next pulse after
    150 ms; the splash screen then renders in the color
    [PULSE_STEP_COLORS[pulseStep]], which is always inside the palette;
    ten pulses bring the model back to where it was. *)
Theorem X1_pulse_cycle `{Toolkit} order m h :
  ready m = false →
  (0 ≤ pulseStep m ≤ 9)%Z →
  (∃ m' color,
     Update order m h PulseMsg = Ok (m', h, Batch [TickCmd 150 PulseMsg]) ∧
     pulseStep m' = ((pulseStep m + 9) mod 10)%Z ∧
     ready m' = false ∧
     PULSE_STEP_COLORS !! Z.to_nat (pulseStep m') = Some color ∧
     View m' h = Ok (splashStyle_Render color splashBanner, h)) ∧
  runFrom m h (replicate 10 (order, PulseMsg)) = Ok (m, h).
Proof.
  intros Hready Hrange.
  destruct m as [rd ta sp st q ms mt idx gs qm om tt hg rt ps].
  simpl in Hready, Hrange. subst rd.
  assert (ps = 0 ∨ ps = 1 ∨ ps = 2 ∨ ps = 3 ∨ ps = 4 ∨
          ps = 5 ∨ ps = 6 ∨ ps = 7 ∨ ps = 8 ∨ ps = 9)%Z as Hcases by lia.
  repeat (destruct Hcases as [->|Hcases]); [..|subst ps];
    (split; [eexists _, _; repeat split; reflexivity|reflexivity]).
Qed.

Lemma X1_pulse_cycle_witness :
  (∃ m' color,
     Update listed initialModel [] PulseMsg
       = Ok (m', [], Batch [TickCmd 150 PulseMsg]) ∧
     pulseStep m' = ((pulseStep initialModel + 9) mod 10)%Z ∧
     ready m' = false ∧
     PULSE_STEP_COLORS !! Z.to_nat (pulseStep m') = Some color ∧
     View m' [] = Ok (splashStyle_Render color splashBanner, [])) ∧
  runFrom initialModel [] (replicate 10 (listed, PulseMsg)) = Ok (initialModel, []).
Proof.
  apply (X1_pulse_cycle listed initialModel []); [reflexivity|simpl; lia].
Defined.

(** ** The refresh countdown *)

(** X2. Whatever the state was, a processed result arms the countdown;
    letting the pending tick fire again and again, the first four ticks
    count 5, 4, 3, 2, 1 down while the state stays Refreshing and the
    artifacts stay as projected, and the fifth tick re-enters Querying
    and submits the query text of that result again. *)
Theorem X2_countdown_reruns_query `{Toolkit} order order' m h apl result e m' h' c :
  Update order m h (ResultMsg apl result e) = Ok (m', h', c) →
  (∀ k : nat, (k ≤ 4)%nat →
     ∃ mk,
       fireTicks k order' (m', h', c)
         = Ok (mk, h', Batch [TickCmd 1000 (if (k =? 4)%nat then ReRunMsg else RefreshMsg)]) ∧
       state mk = REFRESHING ∧
       refreshTimeout mk = (5 - Z.of_nat k)%Z ∧
       ViewRefreshTimeout mk = String.append "Refresh in " (formatInt (5 - Z.of_nat k)) ∧
       mk = set_refreshTimeout m' (5 - Z.of_nat k)) ∧
  (∃ m5,
     fireTicks 5 order' (m', h', c)
       = Ok (m5, h', Batch [Batch [SpinnerTick; QueryCmd apl]]) ∧
     state m5 = QUERYING ∧
     msg m5 = "Running query..." ∧
     m5 = set_state (set_msg (set_refreshTimeout m' 1) "Running query...") QUERYING).
Proof.
  simpl. intros Hu.
  apply updateResult_steps in Hu
    as (qm & mt & h2 & tt & gs & _ & _ & _ & _ & -> & ->).
  split.
  - intros k Hk.
    destruct k as [|[|[|[|[|k]]]]]; [..|lia];
      (eexists; split; [reflexivity|by repeat split]).
  - eexists. split; [reflexivity|by repeat split].
Qed.

Lemma X2_countdown_reruns_query_witness :
  ∃ m' h' c,
    Update listed initialModel [] (ResultMsg "q" (Some twoGroups) None) = Ok (m', h', c) ∧
    (∀ k : nat, (k ≤ 4)%nat →
       ∃ mk,
         fireTicks k listed (m', h', c)
           = Ok (mk, h', Batch [TickCmd 1000 (if (k =? 4)%nat then ReRunMsg else RefreshMsg)]) ∧
         state mk = REFRESHING ∧
         refreshTimeout mk = (5 - Z.of_nat k)%Z ∧
         ViewRefreshTimeout mk = String.append "Refresh in " (formatInt (5 - Z.of_nat k)) ∧
         mk = set_refreshTimeout m' (5 - Z.of_nat k)) ∧
    (∃ m5,
       fireTicks 5 listed (m', h', c)
         = Ok (m5, h', Batch [Batch [SpinnerTick; QueryCmd "q"]]) ∧
       state m5 = QUERYING ∧
       msg m5 = "Running query..." ∧
       m5 = set_state (set_msg (set_refreshTimeout m' 1) "Running query...") QUERYING).
Proof.
  evaluate_outcome m' h' c. exists m', h', c. split; [by_evaluation|].
  apply (X2_countdown_reruns_query listed listed initialModel [] "q" (Some twoGroups) None
           m' h' c).
  by_evaluation.
Defined.

(** X3. Escape during the countdown returns to Typing with the text area
    focused and the artifacts left in place.  The countdown is not
    cancelled, its messages are only gated on the state: while the model
    is in Typing, and while it is in Querying after the next enter, the
    pending tick and a re-run message change nothing and submit nothing;
    but a re-run message of the old countdown that is delivered after the
    next result has been processed submits the query again at once, while
    the new countdown still shows 5. *)
Theorem X3_escape_returns_to_typing `{Toolkit} order order' m h :
  ready m = true →
  state m = REFRESHING →
  ∃ m',
    Update order m h (KeyMsg "esc") = Ok (m', h, Batch [Blink]) ∧
    state m' = TYPING ∧
    tafocus (textarea m') = true ∧
    tavalue (textarea m') = tavalue (textarea m) ∧
    graphs m' = graphs m ∧ queryMeta m' = queryMeta m ∧
    totalsTable m' = totalsTable m ∧ matchesTable m' = matchesTable m ∧
    highlightedGroup m' = highlightedGroup m ∧
    refreshTimeout m' = refreshTimeout m ∧
    Update order' m' h RefreshMsg = Ok (m', h, Batch []) ∧
    Update order' m' h ReRunMsg = Ok (m', h, Batch []) ∧
    ∀ q, TrimSpace (tavalue (textarea m)) = q → q ≠ "" →
      let m1 := set_state (set_msg m' "Running query...") QUERYING in
      Update order' m' h (KeyMsg "enter")
        = Ok (m1, h, Batch [Batch [SpinnerTick; QueryCmd q]]) ∧
      Update order' m1 h RefreshMsg = Ok (m1, h, Batch []) ∧
      Update order' m1 h ReRunMsg = Ok (m1, h, Batch []) ∧
      ∀ result e m3 h3 c3,
        Update order' m1 h (ResultMsg q result e) = Ok (m3, h3, c3) →
        state m3 = REFRESHING ∧ refreshTimeout m3 = 5%Z ∧
        Update order' m3 h3 ReRunMsg
          = Ok (set_state (set_msg m3 "Running query...") QUERYING, h3,
                Batch [Batch [SpinnerTick; QueryCmd q]]).
Proof.
  intros Hready Hstate.
  destruct m as [rd ta sp st q0 ms mt idx gs qm om tt hg rt ps].
  simpl in Hready, Hstate. subst rd st. simpl.
  destruct ta as [v f p w].
  assert (∀ ta',
            ta' = {| tavalue := v; tafocus := true; taplaceholder := p; tawidth := w |} →
            let m' := {| ready := true; textarea := ta'; spinner := sp; state := TYPING;
                         query := q0; msg := ms; matchesTable := mt;
                         matchesTableHighlightedIdx := idx; graphs := gs;
                         queryMeta := qm; otherMsg := om; totalsTable := tt;
                         highlightedGroup := hg; refreshTimeout := rt;
                         pulseStep := ps |} in
            ∀ q, TrimSpace v = q → q ≠ "" →
              let m1 := set_state (set_msg m' "Running query...") QUERYING in
              Update order' m' h (KeyMsg "enter")
                = Ok (m1, h, Batch [Batch [SpinnerTick; QueryCmd q]]) ∧
              Update order' m1 h RefreshMsg = Ok (m1, h, Batch []) ∧
              Update order' m1 h ReRunMsg = Ok (m1, h, Batch []) ∧
              ∀ result e m3 h3 c3,
                Update order' m1 h (ResultMsg q result e) = Ok (m3, h3, c3) →
                state m3 = REFRESHING ∧ refreshTimeout m3 = 5%Z ∧
                Update order' m3 h3 ReRunMsg
                  = Ok (set_state (set_msg m3 "Running query...") QUERYING, h3,
                        Batch [Batch [SpinnerTick; QueryCmd q]])) as Hstale.
  { intros ta' -> m' q Hq Hne m1. split; [|split; [done|split; [done|]]].
    - simpl. unfold updateKey. simpl. rewrite Hq.
      apply String.eqb_neq in Hne. by rewrite Hne.
    - intros result e m3 h3 c3 Hu. simpl in Hu.
      apply updateResult_steps in Hu
        as (qm' & mt' & h2 & tt' & gs' & _ & _ & _ & _ & _ & ->).
      split; [done|]. split; [done|]. reflexivity. }
  destruct f; simpl;
    (eexists; split; [reflexivity|];
     repeat (split; [reflexivity|]); by apply Hstale).
Qed.

Lemma X3_escape_returns_to_typing_witness :
  ∃ m h m' m3 h3,
    run [(listed, KeyMsg "x"); (listed, KeyMsg "q");
         (listed, ResultMsg "q" (Some twoGroups) None)] = Ok (m, h) ∧
    ready m = true ∧ state m = REFRESHING ∧
    Update listed m h (KeyMsg "esc") = Ok (m', h, Batch [Blink]) ∧
    state m' = TYPING ∧
    Update listed m' h ReRunMsg = Ok (m', h, Batch []) ∧
    run [(listed, KeyMsg "x"); (listed, KeyMsg "q");
         (listed, ResultMsg "q" (Some twoGroups) None);
         (listed, KeyMsg "esc"); (listed, KeyMsg "enter");
         (listed, ResultMsg "q" (Some twoGroups) None)] = Ok (m3, h3) ∧
    refreshTimeout m3 = 5%Z ∧
    Update listed m3 h3 ReRunMsg
      = Ok (set_state (set_msg m3 "Running query...") QUERYING, h3,
            Batch [Batch [SpinnerTick; QueryCmd "q"]]).
Proof.
  match eval vm_compute in
        (run [(listed, KeyMsg "x"); (listed, KeyMsg "q");
              (listed, ResultMsg "q" (Some twoGroups) None)]) with
  | Ok (?m, ?h) => pose (m0 := m); pose (h0 := h)
  end.
  assert (run [(listed, KeyMsg "x"); (listed, KeyMsg "q");
               (listed, ResultMsg "q" (Some twoGroups) None)] = Ok (m0, h0))
    as Hrun by by_evaluation.
  assert (ready m0 = true) as Hready by by_evaluation.
  assert (state m0 = REFRESHING) as Hstate by by_evaluation.
  assert (TrimSpace (tavalue (textarea m0)) = "q") as Hq by by_evaluation.
  match eval vm_compute in
        (run [(listed, KeyMsg "x"); (listed, KeyMsg "q");
              (listed, ResultMsg "q" (Some twoGroups) None);
              (listed, KeyMsg "esc"); (listed, KeyMsg "enter");
              (listed, ResultMsg "q" (Some twoGroups) None)]) with
  | Ok (?m, ?h) => pose (m3 := m); pose (h3 := h)
  end.
  assert (run [(listed, KeyMsg "x"); (listed, KeyMsg "q");
               (listed, ResultMsg "q" (Some twoGroups) None);
               (listed, KeyMsg "esc"); (listed, KeyMsg "enter");
               (listed, ResultMsg "q" (Some twoGroups) None)] = Ok (m3, h3))
    as Hrun3 by by_evaluation.
  destruct (X3_escape_returns_to_typing listed listed m0 h0 Hready Hstate)
    as (m' & Hesc & Hst & _ & _ & _ & _ & _ & _ & _ & _ & _ & Hrerun & Hstale).
  destruct (Hstale "q" Hq ltac:(discriminate)) as (Henter & _ & _ & Hresult).
  assert (Update listed (set_state (set_msg m' "Running query...") QUERYING) h0
            (ResultMsg "q" (Some twoGroups) None)
          = Ok (m3, h3, Batch [TickCmd 1000 RefreshMsg])) as Hu3.
  { assert (m' = (match Update listed m0 h0 (KeyMsg "esc") with
                  | Ok (x, _, _) => x | Panic _ => m0 end)) as ->
      by (by rewrite Hesc).
    by_evaluation. }
  destruct (Hresult _ _ _ _ _ Hu3) as (_ & Hrt & Hre).
  exists m0, h0, m', m3, h3.
  split; [exact Hrun|]. split; [exact Hready|]. split; [exact Hstate|].
  split; [exact Hesc|]. split; [exact Hst|]. split; [exact Hrerun|].
  split; [exact Hrun3|]. split; [exact Hrt|exact Hre].
Defined.


(** ** A result, in whatever state it arrives *)

Lemma UpdateMatchesTable_heap `{Toolkit} range m h result m2 h2 :
  UpdateMatchesTable range m h result = (m2, h2) →
  ∃ tail, h2 = h ++ tail ∧ (length tail ≤ 1)%nat ∧
          (∀ p, matchesTable m2 = Some p → p = length h ∧ tail ≠ []).
Proof.
  intros Hu.
  destruct result as [r|].
  - destruct (Matches r) as [|first rest] eqn:Hm.
    + rewrite UpdateMatchesTable_nil in Hu by eauto. injection Hu as <- <-.
      exists []. rewrite app_nil_r. split; [done|]. split; [simpl; lia|].
      intros p Hp. by simpl in Hp.
    + rewrite (UpdateMatchesTable_cons _ _ _ _ first rest) in Hu by done.
      injection Hu as <- <-. eexists. split; [done|]. split; [simpl; lia|].
      intros p [= <-]. done.
  - rewrite UpdateMatchesTable_nil in Hu by eauto. injection Hu as <- <-.
    exists []. rewrite app_nil_r. split; [done|]. split; [simpl; lia|].
      intros p Hp. by simpl in Hp.
Qed.

Lemma UpdateTotals_tail `{Toolkit} m h result m3 h3 :
  UpdateTotals m h result = Ok (m3, h3) →
  ∃ tail, h3 = h ++ tail ∧ (length tail ≤ 1)%nat ∧
          (∀ p, totalsTable m3 = Some p → p = length h ∧ tail ≠ []).
Proof.
  intros Hu.
  assert ((result = None ∨ ∃ r, result = Some r ∧ Totals (Buckets r) = []) ∨
          ∃ r, result = Some r ∧ Totals (Buckets r) ≠ []) as [Hnone|(r & -> & Ht)].
  { destruct result as [r|]; [|by left; left].
    destruct (decide (Totals (Buckets r) = [])); [left; right; by exists r|].
    right. by exists r. }
  - rewrite UpdateTotals_None in Hu by done. inv_res.
    exists []. rewrite app_nil_r. split; [done|]. split; [simpl; lia|].
      intros p Hp. by simpl in Hp.
  - destruct (queryMeta m) as [qm|] eqn:Hqm.
    + rewrite (UpdateTotals_Some m h r qm) in Hu by done. inv_res.
      eexists. split; [done|]. split; [simpl; lia|]. intros p [= <-]. done.
    + unfold UpdateTotals in Hu.
      destruct (Nat.eqb_spec (length (Totals (Buckets r))) 0) as [Hz|_].
      { by apply length_zero_iff_nil in Hz. }
      rewrite Hqm in Hu. done.
Qed.

(** X4. A result message is processed the same way in every state: the
    model ends in Refreshing with the countdown at 5 and one tick
    scheduled, stores the query text, result and error of the message,
    clears the group highlight and the match highlight, and takes the
    focus from the text area without touching its text; the tables it
    points to afterwards are freshly allocated behind the old heap, whose
    tables are left as they were. *)
Theorem X4_result_in_any_state `{Toolkit} order m h apl result e m' h' c :
  Update order m h (ResultMsg apl result e) = Ok (m', h', c) →
  state m' = REFRESHING ∧ refreshTimeout m' = 5%Z ∧
  c = Batch [TickCmd 1000 RefreshMsg] ∧
  query m' = {| apl := apl; result := result; err := e |} ∧
  highlightedGroup m' = "" ∧ matchesTableHighlightedIdx m' = (-1)%Z ∧
  textarea m' = textarea_setFocus (textarea m) false ∧
  ready m' = ready m ∧ pulseStep m' = pulseStep m ∧ spinner m' = spinner m ∧
  ∃ tail,
    h' = h ++ tail ∧ (length tail ≤ 2)%nat ∧
    (∀ p, matchesTable m' = Some p → p = length h ∧ is_Some (tail !! 0%nat)) ∧
    (∀ p, totalsTable m' = Some p →
          (length h ≤ p)%nat ∧ is_Some (h' !! p) ∧ matchesTable m' ≠ Some p).
Proof.
  simpl. intros Hu.
  apply updateResult_steps in Hu
    as (qm & mt & h2 & tt & gs & _ & H2 & H3 & _ & -> & ->).
  simpl. repeat (split; [done|]).
  apply UpdateMatchesTable_heap in H2 as (tail1 & -> & Hlen1 & Hp1).
  apply UpdateTotals_tail in H3 as (tail2 & -> & Hlen2 & Hp2).
  simpl in Hp1, Hp2.
  exists (tail1 ++ tail2). split; [by rewrite app_assoc|].
  split; [rewrite length_app; lia|]. split.
  - intros p Hp. destruct (Hp1 p Hp) as [-> Hne]. split; [done|].
    destruct tail1; [done|]. by eexists.
  - intros p Hp. destruct (Hp2 p Hp) as [-> Hne].
    rewrite length_app. split; [lia|]. split.
    + destruct tail2 as [|t tail2]; [done|]. exists t.
      rewrite list_lookup_middle; [done|]. by rewrite length_app.
    + intros Hmt. destruct (Hp1 _ Hmt) as [Heq Hne1].
      destruct tail1; [done|]. simpl in Heq. lia.
Qed.

Lemma X4_result_in_any_state_witness :
  ∃ m' h' c,
    Update listed initialModel [] (ResultMsg "q" (Some twoGroups) None) = Ok (m', h', c) ∧
    state m' = REFRESHING ∧ refreshTimeout m' = 5%Z ∧
    c = Batch [TickCmd 1000 RefreshMsg] ∧
    query m' = {| apl := "q"; result := Some twoGroups; err := None |} ∧
    highlightedGroup m' = "" ∧ matchesTableHighlightedIdx m' = (-1)%Z ∧
    textarea m' = textarea_setFocus (textarea initialModel) false ∧
    ready m' = ready initialModel ∧ pulseStep m' = pulseStep initialModel ∧
    spinner m' = spinner initialModel ∧
    ∃ tail,
      h' = [] ++ tail ∧ (length tail ≤ 2)%nat ∧
      (∀ p, matchesTable m' = Some p → p = length ([] : Heap) ∧ is_Some (tail !! 0%nat)) ∧
      (∀ p, totalsTable m' = Some p →
            (length ([] : Heap) ≤ p)%nat ∧ is_Some (h' !! p) ∧ matchesTable m' ≠ Some p).
Proof.
  evaluate_outcome m' h' c. exists m', h', c. split; [by_evaluation|].
  apply (X4_result_in_any_state listed initialModel [] "q" (Some twoGroups) None m' h' c).
  by_evaluation.
Defined.

(** ** The query meta, field by field *)

Lemma fold_left_concat_map {A B C} (f : A → C → A) (g : B → list C) (l : list B) (a : A) :
  fold_left (fun acc x => fold_left f (g x) acc) l a = fold_left f (concat (map g l)) a.
Proof.
  revert a. induction l as [|x l IH]; intros a; simpl; [done|].
  by rewrite IH, fold_left_app.
Qed.

Lemma stringInSlice_spec (str : string) (slice : list string) :
  stringInSlice str slice = true ↔ str ∈ slice.
Proof.
  induction slice as [|s slice IH]; simpl.
  - split; [done|]. intros Hin. by apply elem_of_nil in Hin.
  - rewrite elem_of_cons. destruct (String.eqb_spec s str) as [->|Hne].
    + split; [by left|done].
    + rewrite IH. split; [by right|]. intros [?|?]; [congruence|done].
Qed.

(** What [UpdateQueryMeta] stores, in terms of the walk over the entry
    groups and the aliases. *)
Lemma UpdateQueryMeta_fields `{Toolkit} range m r m1 qm :
  UpdateQueryMeta range m (Some r) = Ok m1 →
  queryMeta m1 = Some qm →
  ∃ gs,
    fold_left (metaGroupStep range) (allGroups r) ([], 0%nat, [])
      = (orderedGroupKeys qm, opsCount qm, gs) ∧
    groups qm = sort_Strings gs ∧
    ops qm = fold_left opsStep (concat (map Aggregations (Totals (Buckets r)))) [] ∧
    intervals qm = length (Series (Buckets r)) ∧
    Series (Buckets r) ≠ [] ∧
    (∀ g, groupColors qm !! g =
            if decide (g ∈ groups qm) then Some (paletteColor g) else None).
Proof.
  intros Hu Hqm. unfold UpdateQueryMeta in Hu.
  destruct (Nat.eqb_spec (length (Series (Buckets r))) 0) as [Hz|Hnz].
  { inv_res. by simpl in Hqm. }
  rewrite !fold_left_concat_map in Hu. fold (allGroups r) in Hu.
  destruct (fold_left (metaGroupStep range) (allGroups r) ([], 0%nat, []))
    as [[keys count] gs].
  destruct (colorLoop_Ok (sort_Strings gs) ∅) as (gc & Hgc & Hlookup).
  rewrite Hgc in Hu. inv_res. simpl in Hqm. injection Hqm as <-. simpl.
  exists gs. do 4 (split; [done|]).
  split; [intros Hnil; by rewrite Hnil in Hnz|].
  intros g. rewrite Hlookup. by destruct (decide _).
Qed.

Lemma metaGroupStep_groups_NoDup `{Toolkit} range acc group :
  NoDup acc.2 → NoDup (metaGroupStep range acc group).2.
Proof.
  unfold metaGroupStep. destruct acc as [[keys count] gs]. simpl. intros Hnd.
  match goal with
  | |- context [negb (stringInSlice ?k gs)] =>
      destruct (stringInSlice k gs) eqn:Hin; simpl; [done|];
      apply NoDup_app; split; [done|]; split; [|apply NoDup_singleton];
      intros x Hx Hx'; apply list_elem_of_singleton in Hx' as ->;
      apply stringInSlice_spec in Hx; congruence
  end.
Qed.

Lemma paletteColor_lookup (g : string) (c : AnsiColor) :
  paletteColor g = c ↔ COLORS !! Z.to_nat (hash g `mod` 16) = Some c.
Proof.
  unfold paletteColor.
  pose proof (hash_range g) as Hh.
  change (Z.of_nat (length COLORS)) with 16%Z.
  rewrite Z.rem_mod_nonneg by lia.
  pose proof (Z.mod_pos_bound (hash g) 16) as Hm.
  destruct (lookup_lt_is_Some_2 COLORS (Z.to_nat (hash g `mod` 16))) as [c' Hc'].
  { simpl. lia. }
  rewrite Hc'. simpl. split; congruence.
Qed.

(** X5. [UpdateQueryMeta] never panics.  It stores no meta exactly when
    the result is absent or has no interval.  The groups of a stored meta
    are sorted and free of duplicates, its interval count is the number
    of intervals, and its color map is defined exactly on its groups,
    each of which gets the palette color at index [fnv1a32(group) mod 16]. *)
Theorem X5_meta_groups_and_palette `{Toolkit} range m result :
  ∃ m1,
    UpdateQueryMeta range m result = Ok m1 ∧
    m1 = set_queryMeta m (queryMeta m1) ∧
    (queryMeta m1 = None ↔
       (result = None ∨ ∃ r, result = Some r ∧ Series (Buckets r) = [])) ∧
    ∀ qm, queryMeta m1 = Some qm →
      Sorted strLe (groups qm) ∧ NoDup (groups qm) ∧
      (∀ r, result = Some r → intervals qm = length (Series (Buckets r))) ∧
      (∀ g c, groupColors qm !! g = Some c ↔
                g ∈ groups qm ∧ COLORS !! Z.to_nat (hash g `mod` 16) = Some c).
Proof.
  assert ((result = None ∨ ∃ r, result = Some r ∧ Series (Buckets r) = []) ∨
          ∃ r, result = Some r ∧ Series (Buckets r) ≠ []) as [Hnone|(r & -> & Hs)].
  { destruct result as [r|]; [|by left; left].
    destruct (decide (Series (Buckets r) = [])); [left; right; by exists r|].
    right. by exists r. }
  - exists (set_queryMeta m None). rewrite UpdateQueryMeta_None by done.
    repeat split; try done.
  - destruct (UpdateQueryMeta_Some range m r Hs) as (qm & Hu & _).
    exists (set_queryMeta m (Some qm)). split; [done|]. split; [done|]. split.
    { simpl. split; [done|]. intros [?|(r' & [= <-] & Hr')]; done. }
    intros qm' [= <-].
    destruct (UpdateQueryMeta_fields range m r _ qm Hu eq_refl)
      as (gs & Hwalk & Hgroups & _ & Hint & _ & Hcolors).
    split; [rewrite Hgroups; apply sort_Strings_sorted|]. split.
    { rewrite Hgroups, sort_Strings_perm.
      pose proof (fold_left_invariant (fun acc => NoDup acc.2)
                    (metaGroupStep range) (allGroups r) ([], 0%nat, [])) as Hinv.
      rewrite Hwalk in Hinv. apply Hinv; [|constructor].
      intros acc group. apply metaGroupStep_groups_NoDup. }
    split; [by intros r' [= <-]|].
    intros g c. rewrite Hcolors. destruct (decide (g ∈ groups qm)) as [Hin|Hnin].
    + rewrite <- paletteColor_lookup. split; [by intros [= <-]|]. by intros [_ ->].
    + split; [done|]. by intros [? _].
Qed.

(** ** The ops *)

Lemma IndexFunc_none {A} (s : list A) (f : A → bool) :
  IndexFunc s f = (-1)%Z ↔ Forall (fun x => f x = false) s.
Proof.
  assert (∀ s, (-1 ≤ IndexFunc s f)%Z) as Hlow.
  { induction s0 as [|a s0 IHs]; simpl; [lia|].
    destruct (f a); [lia|]. destruct (IndexFunc s0 f); lia. }
  induction s as [|a s IH]; simpl.
  - split; [constructor|done].
  - destruct (f a) eqn:Hfa.
    + split; [done|]. intros Hall. apply Forall_cons in Hall as [? _]. congruence.
    + rewrite Forall_cons. pose proof (Hlow s) as Hs.
      destruct (IndexFunc s f) as [|p|p] eqn:Hi.
      * split; [done|]. intros [_ Hall]. apply IH in Hall. done.
      * split; [lia|]. intros [_ Hall]. apply IH in Hall. done.
      * split; [|done]. intros _. split; [done|]. apply IH. lia.
Qed.

Lemma opsStep_names (ops : list Op) (a : EntryGroupAgg) :
  map name (opsStep ops a) =
    if decide (Alias a ∈ map name ops) then map name ops else map name ops ++ [Alias a].
Proof.
  unfold opsStep.
  destruct (Z.eqb_spec (IndexFunc ops (fun op => String.eqb (name op) (Alias a))) (-1))
    as [Hnone|Hsome].
  - apply IndexFunc_none in Hnone. rewrite decide_False; [by rewrite map_app|].
    intros Hin. apply list_elem_of_fmap in Hin as (op & Heq & Hop).
    rewrite Forall_forall in Hnone. specialize (Hnone op Hop). simpl in Hnone.
    rewrite Heq, String.eqb_refl in Hnone. done.
  - rewrite decide_True; [done|].
    destruct (decide (Alias a ∈ map name ops)) as [|Hnin]; [done|].
    exfalso. apply Hsome. apply IndexFunc_none. apply Forall_forall. intros op Hop.
    simpl. apply String.eqb_neq. intros Heq. apply Hnin.
    apply list_elem_of_fmap. by exists op.
Qed.

Lemma ops_loop_names (aggs : list EntryGroupAgg) :
  map name (fold_left opsStep aggs []) =
    reverse (remove_dups (reverse (map Alias aggs))).
Proof.
  induction aggs as [|a aggs IH] using rev_ind; [done|].
  rewrite fold_left_app. simpl. rewrite opsStep_names, IH.
  rewrite map_app. simpl. rewrite reverse_app. simpl.
  destruct (decide_rel elem_of (Alias a) (reverse (map Alias aggs))) as [Hin|Hnin].
  - rewrite decide_True; [done|].
    by rewrite elem_of_reverse, elem_of_remove_dups.
  - rewrite decide_False.
    + by rewrite reverse_cons.
    + by rewrite elem_of_reverse, elem_of_remove_dups.
Qed.

(** X6. The ops of the meta are the aliases of the totals' aggregations in
    the order they are first seen, each once: the list of all aliases
    with every later repetition removed. *)
Theorem X6_ops_first_seen `{Toolkit} range m r m1 qm :
  UpdateQueryMeta range m (Some r) = Ok m1 →
  queryMeta m1 = Some qm →
  map name (ops qm) = reverse (remove_dups (reverse (allAliases r))) ∧
  NoDup (map name (ops qm)) ∧
  (∀ a, a ∈ map name (ops qm) ↔ a ∈ allAliases r) ∧
  (Totals (Buckets r) = [] → ops qm = []).
Proof.
  intros Hu Hqm.
  destruct (UpdateQueryMeta_fields range m r m1 qm Hu Hqm)
    as (gs & _ & _ & Hops & _).
  rewrite Hops, ops_loop_names. fold (allAliases r).
  split; [done|]. split; [|split].
  - rewrite reverse_Permutation. apply NoDup_remove_dups.
  - intros a. by rewrite elem_of_reverse, elem_of_remove_dups, elem_of_reverse.
  - intros Ht. by rewrite Ht.
Qed.

Lemma X6_ops_first_seen_witness :
  ∃ m1 qm,
    UpdateQueryMeta keysOf initialModel (Some extraAggregation) = Ok m1 ∧
    queryMeta m1 = Some qm ∧
    map name (ops qm) = reverse (remove_dups (reverse (allAliases extraAggregation))) ∧
    NoDup (map name (ops qm)) ∧
    (∀ a, a ∈ map name (ops qm) ↔ a ∈ allAliases extraAggregation) ∧
    (Totals (Buckets extraAggregation) = [] → ops qm = []).
Proof.
  match eval vm_compute in (UpdateQueryMeta keysOf initialModel (Some extraAggregation)) with
  | Ok ?m => pose (m1 := m)
  end.
  evaluate_field (queryMeta m1) qm. exists m1, qm.
  split; [by_evaluation|]. split; [by_evaluation|].
  apply (X6_ops_first_seen keysOf initialModel extraAggregation m1 qm); by_evaluation.
Defined.

(** ** The matches table *)

Lemma matchCell_Sprintf `{Toolkit} (match_ : Entry) (column : Column) :
  matchCell match_ column = Sprintf_v (mapIndex (Data match_) (Title column)).
Proof. unfold matchCell. by destruct (mapIndex (Data match_) (Title column)). Qed.

(** X7. For a result with at least one match, the matches table has the
    column [_time] followed by one column per key of the first match's
    data (in the order the run enumerates them), one row per match, and
    every row has exactly one cell per column: the time of the match,
    then under each column the [%v] rendering of the match's value for that
    key, which is [<nil>] when the match has no such key.  The table starts
    focused, with the cursor on the first row and plain styles. *)
Theorem X7_matches_table_aligned `{Toolkit} order m h apl r e first rest m' h' c :
  validOrder order →
  Matches r = first :: rest →
  Update order m h (ResultMsg apl (Some r) e) = Ok (m', h', c) →
  ∃ p t,
    matchesTable m' = Some p ∧ h' !! p = Some t ∧
    map Title (tcols t) = "_time" :: rangeData order (Data first) ∧
    map Title (tcols t) ≡ₚ "_time" :: keysOf (Data first) ∧
    length (trows t) = length (Matches r) ∧
    (∀ j match_ row,
       Matches r !! j = Some match_ → trows t !! j = Some row →
       length row = length (tcols t) ∧
       row !! 0%nat = Some (Time_String (Time match_)) ∧
       ∀ i column, tcols t !! S i = Some column →
         row !! S i = Some (Sprintf_v (mapIndex (Data match_) (Title column))) ∧
         (Data match_ !! Title column = None → row !! S i = Some "<nil>")) ∧
    tcursor t = 0%Z ∧ tfocus t = true ∧ tstyles t = StylesPlain.
Proof.
  intros [_ Hvd] Hm Hu. simpl in Hu.
  apply updateResult_steps in Hu
    as (qm & mt & h2 & tt & gs & _ & H2 & H3 & _ & -> & ->).
  rewrite (UpdateMatchesTable_cons _ _ _ _ first rest) in H2 by done.
  injection H2 as <- <-.
  apply UpdateTotals_tail in H3 as (tail & -> & _ & _).
  exists (length h), (matchesTableFor (rangeData order (Data first)) r).
  split; [done|]. split.
  { rewrite <- app_assoc. by apply list_lookup_middle. }
  simpl. unfold matchesColumns. simpl. rewrite map_map. simpl. rewrite map_id.
  split; [done|]. split; [by rewrite (Hvd (Data first))|].
  split; [by rewrite length_map|]. split; [|done].
  intros j match_ row Hj Hrow.
  rewrite list_lookup_fmap, Hj in Hrow. simpl in Hrow. injection Hrow as <-.
  rewrite drop_0. simpl. rewrite !length_map. split; [done|]. split; [done|].
  intros i column Hcol.
  rewrite list_lookup_fmap in Hcol. rewrite !list_lookup_fmap.
  destruct (rangeData order (Data first) !! i) as [k|]; simpl in *; [|done].
  injection Hcol as <-. simpl. rewrite matchCell_Sprintf. simpl.
  split; [done|]. intros Hnone. unfold mapIndex. by rewrite Hnone.
Qed.

Lemma X7_matches_table_aligned_witness :
  ∃ first rest m' h' c,
    validOrder listed ∧
    Matches matchesOnly = first :: rest ∧
    Update listed initialModel [] (ResultMsg "q" (Some matchesOnly) None) = Ok (m', h', c) ∧
    ∃ p t,
      matchesTable m' = Some p ∧ h' !! p = Some t ∧
      map Title (tcols t) = "_time" :: rangeData listed (Data first) ∧
      map Title (tcols t) ≡ₚ "_time" :: keysOf (Data first) ∧
      length (trows t) = length (Matches matchesOnly) ∧
      (∀ j match_ row,
         Matches matchesOnly !! j = Some match_ → trows t !! j = Some row →
         length row = length (tcols t) ∧
         row !! 0%nat = Some (Time_String (Time match_)) ∧
         ∀ i column, tcols t !! S i = Some column →
           row !! S i = Some (Sprintf_v (mapIndex (Data match_) (Title column))) ∧
           (Data match_ !! Title column = None → row !! S i = Some "<nil>")) ∧
      tcursor t = 0%Z ∧ tfocus t = true ∧ tstyles t = StylesPlain.
Proof.
  evaluate_outcome m' h' c.
  match eval cbv [matchesOnly Matches] in (Matches matchesOnly) with
  | ?f :: ?rs => exists f, rs, m', h', c
  end.
  split; [apply validOrder_listed|]. split; [reflexivity|]. split; [by_evaluation|].
  eapply (X7_matches_table_aligned listed initialModel [] "q" matchesOnly None);
    [apply validOrder_listed|reflexivity|by_evaluation].
Defined.

(** ** Navigating the matches *)

(** X8. In Refreshing without a totals table, a key other than ctrl+c and
    esc goes to the matches table: the model then points to a fresh copy
    of the table as the widget updated it, and the highlighted match moves
    one down on [down] and one up on [up], clamped to the first and last
    row (from -1, [down] and [up] both select row 0); any other key leaves
    the highlight where it is. *)
Theorem X8_matches_navigation `{Toolkit} order m h key p t :
  ready m = true → state m = REFRESHING →
  key ≠ "ctrl+c" → key ≠ "esc" →
  totalsTable m = None → matchesTable m = Some p → h !! p = Some t →
  let t' := (table_Update t (KeyMsg key)).1 in
  let n := Z.of_nat (length (trows t')) in
  let idx := matchesTableHighlightedIdx m in
  (1 ≤ n < 2 ^ 63)%Z → (-1 ≤ idx < n)%Z →
  let idx' := if String.eqb key "down" then Z.min (idx + 1) (n - 1)
              else if String.eqb key "up" then Z.max (idx - 1) 0
              else idx in
  Update order m h (KeyMsg key)
    = Ok (set_matchesTableHighlightedIdx (set_matchesTable m (Some (length h))) idx',
          h ++ [t'],
          Batch [(table_Update t (KeyMsg key)).2]) ∧
  (0 ≤ idx' < n ∨ (idx' = -1 ∧ key ≠ "down" ∧ key ≠ "up"))%Z.
Proof.
  intros Hready Hstate Hq He Htt Hmt Hp t' n idx Hn Hidx idx'.
  simpl. unfold updateKey. rewrite Hready, Hstate. simpl.
  apply String.eqb_neq in Hq, He. rewrite Hq, He.
  unfold updateTables, alloc. rewrite Htt, Hmt, Hp. simpl.
  subst t' n idx' idx. destruct (table_Update t (KeyMsg key)) as [tu cmd]. simpl in *.
  unfold UpdateMatchesHighlight, load, int_add, int_sub. simpl.
  rewrite list_lookup_middle by done. simpl.
  remember (matchesTableHighlightedIdx m) as idx eqn:Hidxeq.
  destruct (String.eqb_spec key "down") as [->|Hdown].
  - rewrite wrap_int_id by lia.
    destruct (Z.ltb_spec (idx + 1) 0) as [?|?]; [lia|].
    destruct (Z.leb_spec (Z.of_nat (length (trows tu))) (idx + 1)) as [?|?]; simpl.
    + rewrite wrap_int_id by lia. rewrite Z.min_r by lia. split; [done|lia].
    + rewrite Z.min_l by lia. split; [done|lia].
  - destruct (String.eqb_spec key "up") as [->|Hup].
    + rewrite wrap_int_id by lia.
      destruct (Z.ltb_spec (idx + -1) 0) as [?|?]; simpl.
      * rewrite Z.max_r by lia. split; [done|lia].
      * destruct (Z.leb_spec (Z.of_nat (length (trows tu))) (idx + -1)) as [?|?];
          [lia|]. simpl. rewrite Z.max_l by lia.
        replace (idx + -1)%Z with (idx - 1)%Z by lia. split; [done|lia].
    + simpl. split.
      * subst idx. destruct m. reflexivity.
      * destruct (decide (idx = -1)%Z) as [?|?]; [by right|left; lia].
Qed.

Lemma X8_matches_navigation_witness :
  ∃ m h t,
    run [(listed, KeyMsg "x"); (listed, ResultMsg "q" (Some matchesOnly) None)] = Ok (m, h) ∧
    ready m = true ∧ state m = REFRESHING ∧
    totalsTable m = None ∧ matchesTable m = Some 0%nat ∧ h !! 0%nat = Some t ∧
    matchesTableHighlightedIdx m = (-1)%Z ∧
    let t' := (table_Update t (KeyMsg "down")).1 in
    let n := Z.of_nat (length (trows t')) in
    let idx := matchesTableHighlightedIdx m in
    let idx' := if String.eqb "down" "down" then Z.min (idx + 1) (n - 1)
                else if String.eqb "down" "up" then Z.max (idx - 1) 0
                else idx in
    Update listed m h (KeyMsg "down")
      = Ok (set_matchesTableHighlightedIdx (set_matchesTable m (Some (length h))) idx',
            h ++ [t'],
            Batch [(table_Update t (KeyMsg "down")).2]) ∧
    (0 ≤ idx' < n ∨ (idx' = -1 ∧ "down" ≠ "down" ∧ "down" ≠ "up"))%Z.
Proof.
  match eval vm_compute in
        (run [(listed, KeyMsg "x"); (listed, ResultMsg "q" (Some matchesOnly) None)]) with
  | Ok (?m0, ?h0) =>
      match h0 with
      | [?t0] => pose (m := m0); pose (h := h0); pose (t := t0)
      end
  end.
  exists m, h, t.
  split; [by_evaluation|]. split; [by_evaluation|]. split; [by_evaluation|].
  split; [by_evaluation|]. split; [by_evaluation|]. split; [by_evaluation|].
  split; [by_evaluation|].
  apply (X8_matches_navigation listed m h "down" 0%nat t);
    try by_evaluation; try discriminate; vm_compute; split; congruence.
Defined.

(** ** Invariants of the update loop *)

Lemma totalsInv_frame (m m' : Model) (h h' : Heap) :
  totalsTable m' = totalsTable m → rowsKept h h' → totalsInv m h → totalsInv m' h'.
Proof.
  intros Htt Hkept Hinv p Hp. rewrite Htt in Hp.
  destruct (Hinv p Hp) as [t Ht]. destruct (Hkept p t Ht) as (t' & Ht' & _).
  by exists t'.
Qed.

Lemma UpdateMatchesHighlight_frame (m : Model) (h : Heap) (inc : Z) (m' : Model) :
  UpdateMatchesHighlight m h inc = Ok m' →
  m' = set_matchesTableHighlightedIdx m (matchesTableHighlightedIdx m').
Proof.
  unfold UpdateMatchesHighlight. intros Hu.
  destruct (int_add (matchesTableHighlightedIdx m) inc <? 0)%Z; [by inv_res|].
  inv_res.
  destruct (Z.of_nat (length (trows a)) <=? int_add (matchesTableHighlightedIdx m) inc)%Z;
    by inv_res.
Qed.

Lemma updateResult_totalsInv `{Toolkit} order m h apl result e m' h' c :
  updateResult order m h apl result e = Ok (m', h', c) → totalsInv m' h'.
Proof.
  intros Hu.
  apply updateResult_steps in Hu
    as (qm & mt & h2 & tt & gs & _ & _ & H3 & _ & -> & ->).
  apply UpdateTotals_tail in H3 as (tail & -> & _ & Hp).
  intros p Hpt. simpl in Hp, Hpt. destruct (Hp p Hpt) as [-> Hne].
  destruct tail as [|t tail]; [done|]. exists t. by apply list_lookup_middle.
Qed.

Lemma updateTables_totalsInv `{Toolkit} m h key m' h' cmds :
  totalsInv m h →
  updateTables m h key = Ok (m', h', cmds) →
  totalsInv m' h'.
Proof.
  intros Hinv Hu. unfold updateTables, alloc in Hu.
  destruct (totalsTable m) as [pt|] eqn:Htt.
  - inv_res. destruct (tfocus a); simpl in Hu.
    + destruct (table_Update a (KeyMsg key)) as [t' cmd]. inv_res.
      intros p [= <-]. exists t'. by apply list_lookup_middle.
    + inv_res. intros p Hp. rewrite Htt in Hp. injection Hp as <-.
      eexists. apply list_lookup_insert_eq. by eapply lookup_lt_Some.
  - destruct (matchesTable m) as [pm|] eqn:Hpm.
    + inv_res. destruct (table_Update a (KeyMsg key)) as [t' cmd]. inv_res.
      assert (totalsTable m' = None) as Hnone.
      { destruct (String.eqb key "down"); [|destruct (String.eqb key "up")];
          try (apply UpdateMatchesHighlight_frame in Hstep0; rewrite Hstep0);
          inv_res; simpl; assumption. }
      intros p Hp. by rewrite Hnone in Hp.
    + inv_res. intros p Hp. by rewrite Htt in Hp.
Qed.

Lemma Update_totalsInv `{Toolkit} order m h msg m' h' c :
  totalsInv m h →
  Update order m h msg = Ok (m', h', c) →
  totalsInv m' h'.
Proof.
  intros Hinv Hu. destruct msg; simpl in Hu.
  - unfold updateKey in Hu.
    destruct (ready m); simpl in Hu; [|by inv_res].
    destruct (String.eqb key "ctrl+c"); [by inv_res|].
    destruct (state m).
    + destruct (String.eqb key "enter").
      * destruct (negb (String.eqb (TrimSpace (tavalue (textarea m))) ""));
          simpl in Hu; by inv_res.
      * destruct (textarea_Update (textarea m) (KeyMsg key)) as [ta cmd]. by inv_res.
    + by inv_res.
    + destruct (String.eqb key "esc").
      * destruct (negb (tafocus (textarea m))); by inv_res.
      * inv_res. by eapply updateTables_totalsInv.
  - by eapply updateResult_totalsInv.
  - inv_res. unfold highlightUpdate in Hstep. inv_res.
    apply UpdateGraphs_frame in Hstep. rewrite Hstep. done.
  - destruct (state m); inv_res; try done.
    destruct (spinner_Update (spinner m) SpinnerTickMsg) as [sp cmd]. by inv_res.
  - destruct (state m); inv_res; done.
  - destruct (state m); inv_res; done.
  - destruct (negb (ready m)); [|by inv_res].
    unfold UpdatePulse in Hu. destruct (pulseStep m <=? 0)%Z; inv_res; done.
  - destruct (tafocus (textarea m)); [|by inv_res].
    destruct (textarea_Update (textarea m) (OtherMsg tag)) as [ta cmd]. by inv_res.
Qed.

Lemma Update_pulseInv `{Toolkit} order m h msg m' h' c :
  pulseInv m →
  Update order m h msg = Ok (m', h', c) →
  pulseInv m'.
Proof.
  unfold pulseInv. intros Hinv Hu. destruct msg; simpl in Hu.
  - unfold updateKey in Hu.
    destruct (ready m); simpl in Hu; [|by inv_res].
    destruct (String.eqb key "ctrl+c"); [by inv_res|].
    destruct (state m).
    + destruct (String.eqb key "enter").
      * destruct (negb (String.eqb (TrimSpace (tavalue (textarea m))) ""));
          simpl in Hu; by inv_res.
      * destruct (textarea_Update (textarea m) (KeyMsg key)) as [ta cmd]. by inv_res.
    + by inv_res.
    + destruct (String.eqb key "esc").
      * destruct (negb (tafocus (textarea m))); by inv_res.
      * inv_res. unfold updateTables, alloc in Hstep.
        destruct (totalsTable m).
        { inv_res. destruct (tfocus a); simpl in *.
          - destruct (table_Update a (KeyMsg key)) as [t' cmd]. by inv_res.
          - by inv_res. }
        destruct (matchesTable m); [|by inv_res].
        inv_res. destruct (table_Update a (KeyMsg key)) as [t' cmd]. inv_res.
        destruct (String.eqb key "down"); [|destruct (String.eqb key "up")];
          repeat match goal with
            | Hh : UpdateMatchesHighlight _ _ _ = Ok _ |- _ =>
                apply UpdateMatchesHighlight_frame in Hh; rewrite Hh
            end;
          inv_res; simpl; assumption.
  - apply updateResult_steps in Hu
      as (qm & mt & h2 & tt & gs & _ & _ & _ & _ & -> & ->). done.
  - inv_res. unfold highlightUpdate in Hstep. inv_res.
    apply UpdateGraphs_frame in Hstep. rewrite Hstep. done.
  - destruct (state m); inv_res; try done.
    destruct (spinner_Update (spinner m) SpinnerTickMsg) as [sp cmd]. by inv_res.
  - destruct (state m); inv_res; done.
  - destruct (state m); inv_res; done.
  - destruct (negb (ready m)); [|by inv_res].
    unfold UpdatePulse in Hu.
    destruct (Z.leb_spec (pulseStep m) 0) as [Hle|Hgt]; inv_res; simpl; [lia|].
    unfold int_sub. rewrite wrap_int_id; lia.
  - destruct (tafocus (textarea m)); [|by inv_res].
    destruct (textarea_Update (textarea m) (OtherMsg tag)) as [ta cmd]. by inv_res.
Qed.

(** The three invariants hold in every reachable model. *)
Lemma reachable_invariants `{Toolkit} m h :
  tableUpdateKeepsRows → reachable m h →
  matchesInv m h ∧ totalsInv m h ∧ pulseInv m.
Proof.
  intros Hkeeps Hreach. split; [by apply reachable_matchesInv|].
  induction Hreach as [|order m h msg m' h' cmd _ _ IH Hu|m h s h' _ IH Hv].
  - split; [by intros p Hp|]. unfold pulseInv. simpl. lia.
  - destruct IH as [Ht Hp]. split.
    + by eapply Update_totalsInv.
    + by eapply Update_pulseInv.
  - destruct IH as [Ht Hp]. split; [|done].
    eapply (totalsInv_frame m m h); [done| |done]. by eapply View_rowsKept.
Qed.

Lemma ViewMatchDetails_Ok `{Toolkit} m h :
  matchesInv m h → ∃ s, ViewMatchDetails m = Ok s.
Proof.
  intros Hinv. unfold ViewMatchDetails.
  destruct (matchesTable m) as [p|] eqn:Hp; simpl; [|by eexists].
  destruct (Z.eqb_spec (matchesTableHighlightedIdx m) (-1)) as [Heq|Hne]; [by eexists|].
  destruct (Hinv p Hp) as (t & r & _ & Hr & _ & _ & Hbounds).
  rewrite Hr. simpl. unfold indexZ, index.
  destruct (Z.ltb_spec (matchesTableHighlightedIdx m) 0) as [Hneg|_]; [lia|].
  destruct (lookup_lt_is_Some_2 (Matches r) (Z.to_nat (matchesTableHighlightedIdx m)))
    as [entry Hentry]; [lia|].
  rewrite Hentry. simpl. by eexists.
Qed.

(** ** Rendering and key handling never panic *)

(** X9. Rendering never panics: for every model the update loop can reach
    (with a table widget that keeps its rows), [View] returns a screen.
    The splash color index is in range, the table pointers point into the
    heap, and the highlighted match exists. *)
Theorem X9_view_never_panics `{Toolkit} m h :
  tableUpdateKeepsRows →
  reachable m h →
  ∃ s h', View m h = Ok (s, h').
Proof.
  intros Hkeeps Hreach.
  destruct (reachable_invariants m h Hkeeps Hreach) as (Hm & Ht & Hp).
  unfold View. destruct (ready m); simpl.
  - assert (∃ s1 h1, ViewTotals m h = Ok (s1, h1) ∧ rowsKept h h1) as (s1 & h1 & Hv1 & Hk1).
    { unfold ViewTotals. destruct (totalsTable m) as [p|] eqn:Hpt.
      - destruct (Ht p Hpt) as [t Hpt'].
        destruct (negb (String.eqb (highlightedGroup m) "")); simpl; rewrite Hpt'; simpl.
        + rewrite list_lookup_insert_eq by (by eapply lookup_lt_Some). simpl.
          eexists _, _. split; [done|]. by apply (rowsKept_insert h p t).
        + eexists _, _. split; [done|]. apply rowsKept_refl.
      - eexists _, _. split; [done|]. apply rowsKept_refl. }
    rewrite Hv1. simpl.
    assert (∃ s2 h2, ViewMatches m h1 = Ok (s2, h2)) as (s2 & h2 & Hv2).
    { unfold ViewMatches. destruct (matchesTable m) as [p|] eqn:Hpm; [|by eexists _, _].
      destruct (Hm p Hpm) as (t & r & Hpt & _).
      destruct (Hk1 p t Hpt) as (t1 & Hpt1 & _).
      destruct (negb (matchesTableHighlightedIdx m =? -1)%Z); simpl; rewrite Hpt1; simpl.
      - rewrite list_lookup_insert_eq by (by eapply lookup_lt_Some). simpl.
        by eexists _, _.
      - by eexists _, _. }
    rewrite Hv2. simpl.
    destruct (ViewMatchDetails_Ok m h Hm) as [s3 ->]. simpl. by eexists _, _.
  - unfold ViewSplashScreen, indexZ, index. unfold pulseInv in Hp.
    destruct (Z.ltb_spec (pulseStep m) 0) as [?|_]; [lia|].
    destruct (lookup_lt_is_Some_2 PULSE_STEP_COLORS (Z.to_nat (pulseStep m)))
      as [color Hcolor]; [simpl; lia|].
    rewrite Hcolor. simpl. by eexists _, _.
Qed.

(** X10. Keys and ticks never panic: in every reachable model, [Update]
    returns for every message other than a result and a highlight closure
    (the only two cases that can fail). *)
Theorem X10_keys_and_ticks_never_panic `{Toolkit} order m h msg :
  tableUpdateKeepsRows →
  reachable m h →
  (∀ apl result e, msg ≠ ResultMsg apl result e) →
  (∀ row, msg ≠ UpdateMsg row) →
  ∃ m' h' c, Update order m h msg = Ok (m', h', c).
Proof.
  intros Hkeeps Hreach Hnr Hnu.
  destruct (reachable_invariants m h Hkeeps Hreach) as (Hm & Ht & _).
  destruct msg as [key|apl0 result0 err0|row| | | | |tag]; simpl.
  - unfold updateKey.
    destruct (ready m); simpl; [|by eexists _, _, _].
    destruct (String.eqb key "ctrl+c"); [by eexists _, _, _|].
    destruct (state m).
    + destruct (String.eqb key "enter").
      * destruct (negb (String.eqb (TrimSpace (tavalue (textarea m))) ""));
          simpl; by eexists _, _, _.
      * destruct (textarea_Update (textarea m) (KeyMsg key)) as [ta cmd].
        by eexists _, _, _.
    + by eexists _, _, _.
    + destruct (String.eqb key "esc"); [by eexists _, _, _|].
      unfold updateTables, alloc.
      destruct (totalsTable m) as [pt|] eqn:Hpt.
      * destruct (Ht pt Hpt) as [t ->]. simpl.
        destruct (tfocus t); simpl; [|by eexists _, _, _].
        destruct (table_Update t (KeyMsg key)) as [t' cmd]. by eexists _, _, _.
      * destruct (matchesTable m) as [pm|] eqn:Hpm; [|by eexists _, _, _].
        destruct (Hm pm Hpm) as (t & r & -> & _). simpl.
        destruct (table_Update t (KeyMsg key)) as [t' cmd].
        assert (∀ inc, ∃ m1,
                  UpdateMatchesHighlight (set_matchesTable m (Some (length h)))
                    (h ++ [t']) inc = Ok m1) as Hhl.
        { intros inc. unfold UpdateMatchesHighlight, load. simpl.
          rewrite list_lookup_middle by done. simpl.
          repeat match goal with
            | |- context [if ?b then _ else _] => destruct b
            end; by eexists. }
        destruct (String.eqb key "down").
        { destruct (Hhl 1%Z) as [m1 ->]. by eexists _, _, _. }
        destruct (String.eqb key "up").
        { destruct (Hhl (-1)%Z) as [m1 ->]. by eexists _, _, _. }
        by eexists _, _, _.
  - by destruct (Hnr apl0 result0 err0).
  - by destruct (Hnu row).
  - destruct (state m); try by eexists _, _, _.
    destruct (spinner_Update (spinner m) SpinnerTickMsg) as [sp cmd]. by eexists _, _, _.
  - destruct (state m); by eexists _, _, _.
  - destruct (state m); by eexists _, _, _.
  - destruct (negb (ready m)); by eexists _, _, _.
  - destruct (tafocus (textarea m)); [|by eexists _, _, _].
    destruct (textarea_Update (textarea m) (OtherMsg tag)) as [ta cmd]. by eexists _, _, _.
Qed.

Lemma X9_view_never_panics_witness :
  ∃ m h,
    run [(listed, KeyMsg "x");
         (listed, ResultMsg "q" (Some matchesOnly) None);
         (listed, KeyMsg "down")] = Ok (m, h) ∧
    tableUpdateKeepsRows ∧ reachable m h ∧
    ∃ s h', View m h = Ok (s, h').
Proof.
  match eval vm_compute in
        (run [(listed, KeyMsg "x");
              (listed, ResultMsg "q" (Some matchesOnly) None);
              (listed, KeyMsg "down")]) with
  | Ok (?m, ?h) => pose (m' := m); pose (h' := h)
  end.
  assert (run [(listed, KeyMsg "x");
               (listed, ResultMsg "q" (Some matchesOnly) None);
               (listed, KeyMsg "down")] = Ok (m', h')) as Hrun by by_evaluation.
  assert (reachable m' h') as Hreach.
  { refine (run_reachable _ m' h' _ Hrun).
    repeat constructor; apply validOrder_listed. }
  exists m', h'. split; [exact Hrun|].
  split; [exact plainToolkit_tableUpdateKeepsRows|]. split; [exact Hreach|].
  exact (X9_view_never_panics m' h' plainToolkit_tableUpdateKeepsRows Hreach).
Defined.

Lemma X10_keys_and_ticks_never_panic_witness :
  ∃ m h,
    run [(listed, KeyMsg "x");
         (listed, ResultMsg "q" (Some twoGroups) None)] = Ok (m, h) ∧
    tableUpdateKeepsRows ∧ reachable m h ∧
    (∀ apl result e, KeyMsg "down" ≠ ResultMsg apl result e) ∧
    (∀ row, KeyMsg "down" ≠ UpdateMsg row) ∧
    ∃ m' h' c, Update listed m h (KeyMsg "down") = Ok (m', h', c).
Proof.
  match eval vm_compute in
        (run [(listed, KeyMsg "x");
              (listed, ResultMsg "q" (Some twoGroups) None)]) with
  | Ok (?m, ?h) => pose (m' := m); pose (h' := h)
  end.
  assert (run [(listed, KeyMsg "x");
               (listed, ResultMsg "q" (Some twoGroups) None)] = Ok (m', h')) as Hrun
    by by_evaluation.
  assert (reachable m' h') as Hreach.
  { refine (run_reachable _ m' h' _ Hrun).
    repeat constructor; apply validOrder_listed. }
  exists m', h'. split; [exact Hrun|].
  split; [exact plainToolkit_tableUpdateKeepsRows|]. split; [exact Hreach|].
  split; [discriminate|]. split; [discriminate|].
  apply (X10_keys_and_ticks_never_panic listed m' h' (KeyMsg "down")
           plainToolkit_tableUpdateKeepsRows Hreach); discriminate.
Defined.

(** ** Highlighting a group *)

(** Two loops whose rounds simulate each other. *)
Lemma foldM_sim {A S1 S2} (R : S1 → S2 → Prop)
    (body1 : S1 → A → res S1) (body2 : S2 → A → res S2) (l : list A) s1 s2 s1' :
  (∀ s1 s2 a s1', R s1 s2 → body1 s1 a = Ok s1' → ∃ s2', body2 s2 a = Ok s2' ∧ R s1' s2') →
  R s1 s2 →
  foldM body1 s1 l = Ok s1' →
  ∃ s2', foldM body2 s2 l = Ok s2' ∧ R s1' s2'.
Proof.
  intros Hbody. revert s1 s2.
  induction l as [|a l IH]; intros s1 s2 HR Hf; simpl in Hf |- *.
  - inv_res. by exists s2.
  - inv_res. destruct (Hbody _ _ _ _ HR Hstep) as (s2a & -> & HR'). simpl.
    by eapply IH.
Qed.

Lemma sameData_lookup gs1 gs2 k G1 :
  sameData gs1 gs2 → gs1 !! k = Some G1 →
  ∃ G2, gs2 !! k = Some G2 ∧ data G2 = data G1 ∧ title G2 = title G1.
Proof.
  intros [Hd Ht] Hk.
  assert ((data <$> gs2) !! k = Some (data G1)) as Hd2.
  { rewrite <- Hd, list_lookup_fmap, Hk. done. }
  assert ((title <$> gs2) !! k = Some (title G1)) as Ht2.
  { rewrite <- Ht, list_lookup_fmap, Hk. done. }
  rewrite list_lookup_fmap in Hd2. rewrite list_lookup_fmap in Ht2.
  destruct (gs2 !! k) as [G2|]; simpl in *; [|done].
  exists G2. split; [done|]. split; congruence.
Qed.

Lemma writeCell_sim gs1 gs2 k g i v gs1' :
  sameData gs1 gs2 →
  writeCell gs1 k g i v = Ok gs1' →
  ∃ gs2', writeCell gs2 k g i v = Ok gs2' ∧ sameData gs1' gs2'.
Proof.
  intros Hsame Hw. unfold writeCell in Hw |- *. inv_res.
  destruct (sameData_lookup _ _ _ _ Hsame Hstep) as (G2 & HG2 & Hdata & Htitle).
  unfold index. rewrite HG2. simpl. rewrite Hdata, Hstep0. simpl.
  rewrite Hstep1. simpl.
  eexists. split; [done|].
  destruct Hsame as [Hd Ht]. unfold sameData.
  rewrite !list_fmap_insert. simpl. by rewrite Hd, Ht, Htitle.
Qed.

(** The data and titles that [UpdateGraphs] computes depend on the meta
    and the result only: under another highlight it succeeds as well and
    differs in the colors at most. *)
Lemma UpdateGraphs_sim `{Toolkit} m1 m2 result m1' :
  queryMeta m2 = queryMeta m1 →
  UpdateGraphs m1 result = Ok m1' →
  ∃ m2',
    UpdateGraphs m2 result = Ok m2' ∧
    match graphs m1', graphs m2' with
    | Some gs1, Some gs2 => sameData gs1 gs2
    | None, None => True
    | _, _ => False
    end.
Proof.
  intros Hq Hu. unfold UpdateGraphs in Hu |- *.
  destruct result as [r|]; [|inv_res; by eexists].
  destruct (length (Series (Buckets r)) =? 0)%nat; [inv_res; by eexists|].
  inv_res.
  destruct (queryMeta m1) as [qm|] eqn:Hq1; [|unfold makeGraphs in Hstep; by rewrite Hq1 in Hstep].
  rewrite (makeGraphs_Ok m1 qm Hq1) in Hstep. injection Hstep as <-.
  rewrite (makeGraphs_Ok m2 qm Hq). simpl.
  eapply (foldM_sim sameData) in Hstep0 as (gs2 & -> & Hsame).
  - simpl. eexists. split; [done|]. done.
  - intros gs1 gs2 [i interval] gs1' Hsame Hinner.
    eapply (foldM_sim sameData); [|exact Hsame|exact Hinner].
    intros gs3 gs4 group gs3' Hsame' Hgroup.
    unfold graphsGroupStep in Hgroup |- *. rewrite Hq1 in Hgroup. rewrite Hq.
    simpl in Hgroup |- *.
    eapply (foldM_sim sameData); [|exact Hsame'|exact Hgroup].
    intros gs5 gs6 [k agg] gs5' Hsame'' Hw. by eapply writeCell_sim.
  - clear. split; (induction (ops qm) as [|op l IH]; [done|]);
      [exact (f_equal (cons _) IH) | exact (f_equal (cons (name op)) IH)].
Qed.

(** With the same meta and the same highlight, [UpdateGraphs] computes the
    same graphs. *)
Lemma UpdateGraphs_dep `{Toolkit} m1 m2 result m1' :
  queryMeta m2 = queryMeta m1 →
  highlightedGroup m2 = highlightedGroup m1 →
  UpdateGraphs m1 result = Ok m1' →
  UpdateGraphs m2 result = Ok (set_graphs m2 (graphs m1')).
Proof.
  intros Hq Hh Hu. unfold UpdateGraphs, makeGraphs, graphsGroupStep in Hu |- *.
  rewrite Hq, Hh.
  destruct result as [r|]; [|by inv_res].
  destruct (length (Series (Buckets r)) =? 0)%nat; [by inv_res|].
  revert Hu.
  do 2 match goal with
  | |- (?X ≫= _) = _ → _ => destruct X as [?gs|?p]; simpl; [|done]
  end.
  intros Hu. by assert (m1' = set_graphs m1 (Some gs0)) as -> by congruence.
Qed.

Lemma graphsInv_frame `{Toolkit} (m m' : Model) :
  queryMeta m' = queryMeta m →
  highlightedGroup m' = highlightedGroup m →
  graphs m' = graphs m →
  result (query m') = result (query m) →
  graphsInv m → graphsInv m'.
Proof.
  unfold graphsInv. intros Hq Hh Hg Hr Hinv. rewrite Hr, Hg.
  by rewrite (UpdateGraphs_dep m m' _ _ Hq Hh Hinv).
Qed.

(** Messages other than a result and a highlight closure leave the meta,
    the highlight, the graphs and the stored query alone. *)
Lemma Update_artifacts_frame `{Toolkit} order m h msg m' h' c :
  (∀ apl result e, msg ≠ ResultMsg apl result e) →
  (∀ row, msg ≠ UpdateMsg row) →
  Update order m h msg = Ok (m', h', c) →
  queryMeta m' = queryMeta m ∧ highlightedGroup m' = highlightedGroup m ∧
  graphs m' = graphs m ∧ query m' = query m.
Proof.
  intros Hnr Hnu Hu.
  destruct msg as [key|apl0 result0 err0|row| | | | |tag]; simpl in Hu.
  - unfold updateKey in Hu.
    destruct (ready m); simpl in Hu; [|by inv_res].
    destruct (String.eqb key "ctrl+c"); [by inv_res|].
    destruct (state m).
    + destruct (String.eqb key "enter").
      * destruct (negb (String.eqb (TrimSpace (tavalue (textarea m))) ""));
          simpl in Hu; by inv_res.
      * destruct (textarea_Update (textarea m) (KeyMsg key)) as [ta cmd]. by inv_res.
    + by inv_res.
    + destruct (String.eqb key "esc").
      * destruct (negb (tafocus (textarea m))); by inv_res.
      * inv_res. unfold updateTables, alloc in *.
        destruct (totalsTable m).
        { inv_res. destruct (tfocus a); simpl in *.
          - destruct (table_Update a (KeyMsg key)) as [t' cmd]. by inv_res.
          - by inv_res. }
        destruct (matchesTable m); [|by inv_res].
        inv_res. destruct (table_Update a (KeyMsg key)) as [t' cmd]. inv_res.
        destruct (String.eqb key "down"); [|destruct (String.eqb key "up")];
          repeat match goal with
            | Hh : UpdateMatchesHighlight _ _ _ = Ok _ |- _ =>
                apply UpdateMatchesHighlight_frame in Hh; rewrite Hh
            end;
          by inv_res.
  - by destruct (Hnr apl0 result0 err0).
  - by destruct (Hnu row).
  - destruct (state m); inv_res; try done.
    destruct (spinner_Update (spinner m) SpinnerTickMsg) as [sp cmd]. by inv_res.
  - destruct (state m); inv_res; done.
  - destruct (state m); inv_res; done.
  - destruct (negb (ready m)); [|by inv_res].
    unfold UpdatePulse in Hu. destruct (pulseStep m <=? 0)%Z; inv_res; done.
  - destruct (tafocus (textarea m)); [|by inv_res].
    destruct (textarea_Update (textarea m) (OtherMsg tag)) as [ta cmd]. by inv_res.
Qed.

(** After a result, the graphs are the projection of the stored result. *)
Lemma updateResult_graphsInv `{Toolkit} order m h apl result e m' h' c :
  Update order m h (ResultMsg apl result e) = Ok (m', h', c) → graphsInv m'.
Proof.
  intros Hu. simpl in Hu. apply updateResult_steps in Hu
    as (qm & mt & h2 & tt & gs & _ & _ & _ & H4 & -> & ->).
  unfold graphsInv. simpl.
  match goal with
  | |- UpdateGraphs ?m2 _ = _ =>
      pose proof (λ Hq Hh, UpdateGraphs_dep _ m2 _ _ Hq Hh H4) as Hdep;
      exact (Hdep eq_refl eq_refl)
  end.
Qed.

Lemma Update_graphsInv `{Toolkit} order m h msg m' h' c :
  graphsInv m →
  Update order m h msg = Ok (m', h', c) →
  graphsInv m'.
Proof.
  intros Hinv Hu.
  destruct msg as [key|apl0 result0 err0|row| | | | |tag];
    try (apply Update_artifacts_frame in Hu as (Hq & Hh & Hg & Hr);
         [apply (graphsInv_frame m m'); congruence|done|done]).
  - by eapply updateResult_graphsInv.
  - simpl in Hu. inv_res. unfold highlightUpdate in Hstep. inv_res.
    match goal with
    | Hg : UpdateGraphs ?M _ = Ok m' |- _ =>
        pose proof (UpdateGraphs_frame _ _ _ Hg) as Hframe;
        assert (queryMeta m' = queryMeta M) as Hq by (by rewrite Hframe);
        assert (highlightedGroup m' = highlightedGroup M) as Hh
          by (by rewrite Hframe);
        assert (result (query m') = result (query M)) as Hr
          by (by rewrite Hframe);
        unfold graphsInv; rewrite Hr;
        exact (UpdateGraphs_dep _ m' _ _ Hq Hh Hg)
    end.
Qed.

Lemma reachable_graphsInv `{Toolkit} m h : reachable m h → graphsInv m.
Proof.
  intros Hreach.
  induction Hreach as [|order m h msg m' h' cmd _ _ IH Hu|m h s h' _ IH Hv].
  - reflexivity.
  - by eapply Update_graphsInv.
  - done.
Qed.

(** The same, panics included: the second model replays what the first
    computes and stores it. *)
Lemma UpdateGraphs_dep_eq `{Toolkit} m1 m2 result :
  queryMeta m2 = queryMeta m1 →
  highlightedGroup m2 = highlightedGroup m1 →
  UpdateGraphs m2 result =
    (m1' ← UpdateGraphs m1 result; Ok (set_graphs m2 (graphs m1'))).
Proof.
  intros Hq Hh. unfold UpdateGraphs, makeGraphs, graphsGroupStep.
  rewrite Hq, Hh.
  destruct result as [r|]; [|done].
  destruct (length (Series (Buckets r)) =? 0)%nat; [done|].
  do 2 match goal with
  | |- (?X ≫= _) = _ => destruct X as [?gs|?p]; simpl; [|done]
  end.
  done.
Qed.

(** The colors of the graphs [UpdateGraphs] stores. *)
Lemma UpdateGraphs_colors `{Toolkit} m qm result m' gs G :
  queryMeta m = Some qm →
  UpdateGraphs m result = Ok m' →
  graphs m' = Some gs →
  G ∈ gs →
  colors G = map (seriesColor m qm) (groups qm).
Proof.
  intros Hqm Hu Hgs HG.
  destruct result as [r|]; [|unfold UpdateGraphs in Hu; inv_res; done].
  destruct (Series (Buckets r)) as [|s l] eqn:Hseries.
  { unfold UpdateGraphs in Hu. rewrite Hseries in Hu. simpl in Hu. by inv_res. }
  destruct (UpdateGraphs_Some m qm r m' Hqm) as (gs' & -> & _ & Hcolors & _);
    [by rewrite Hseries|done|].
  simpl in Hgs. injection Hgs as ->.
  apply list_elem_of_lookup_1 in HG as [k Hk].
  assert ((colors <$> gs) !! k = Some (colors G)) as Hc
    by (by rewrite list_lookup_fmap, Hk).
  change (colors <$> gs) with (map colors gs) in Hc. rewrite Hcolors in Hc.
  change (map ?f ?l) with (f <$> l) in Hc.
  rewrite list_lookup_fmap in Hc.
  destruct (ops qm !! k); simpl in Hc; congruence.
Qed.

(** What the closure of [HighlightRow] does to a model whose graphs are
    the projection of its stored result. *)
Lemma highlight_recolors `{Toolkit} order m h row qm key :
  graphsInv m →
  queryMeta m = Some qm →
  rowGroupKey (orderedGroupKeys qm) row = Ok key →
  ∃ gs',
    Update order m h (UpdateMsg row)
      = Ok (set_graphs (set_highlightedGroup m key) gs', h, Batch []) ∧
    match graphs m, gs' with
    | Some gs, Some gs1 =>
        sameData gs gs1 ∧
        ∀ G, G ∈ gs1 →
          colors G = map (fun group =>
                            if negb (String.eqb key "")
                               && negb (String.eqb group key)
                            then SlateGray
                            else default Default (groupColors qm !! group))
                       (groups qm)
    | None, None => True
    | _, _ => False
    end.
Proof.
  intros Hinv Hqm Hkey. unfold graphsInv in Hinv.
  destruct (UpdateGraphs_sim m (set_highlightedGroup m key) _ _ eq_refl Hinv)
    as (m2 & Hu2 & Hsame).
  pose proof (UpdateGraphs_frame _ _ _ Hu2) as Hframe.
  exists (graphs m2). split.
  - simpl. unfold highlightUpdate. rewrite Hqm. simpl. rewrite Hkey. simpl.
    change (UpdateGraphs (set_highlightedGroup m key) (result (query m))
            ≫= (λ m0, Ok (m0, h, Batch [])) =
            Ok (set_graphs (set_highlightedGroup m key) (graphs m2), h, Batch [])).
    rewrite Hu2. simpl. by rewrite <- Hframe.
  - change (graphs (set_graphs m (graphs m))) with (graphs m) in Hsame.
    destruct (graphs m) as [gs|], (graphs m2) as [gs1|] eqn:Hgs1; try done.
    split; [done|]. intros G HG.
    exact (UpdateGraphs_colors (set_highlightedGroup m key) qm _ m2 gs1 G
             Hqm Hu2 Hgs1 HG).
Qed.


(** X11. Delivering the closure of [HighlightRow row] to a model the
    runtime can hold, with the meta of a result and a row from which the
    group key can be formed, never panics: the model takes the key as its
    highlighted group and its graphs are computed again from the stored
    result, with the same titles and data and with the colors of the new
    highlight (the color of its group for the highlighted series and for
    every series when the key is empty, slate gray for the others);
    nothing else in the model changes, the tables on the heap are left
    alone and no command is issued. *)
Theorem X11_highlight_recolors_only `{Toolkit} order m h row qm key :
  reachable m h →
  queryMeta m = Some qm →
  rowGroupKey (orderedGroupKeys qm) row = Ok key →
  ∃ gs',
    Update order m h (UpdateMsg row)
      = Ok (set_graphs (set_highlightedGroup m key) gs', h, Batch []) ∧
    match graphs m, gs' with
    | Some gs, Some gs1 =>
        sameData gs gs1 ∧
        ∀ G, G ∈ gs1 →
          colors G = map (fun group =>
                            if negb (String.eqb key "")
                               && negb (String.eqb group key)
                            then SlateGray
                            else default Default (groupColors qm !! group))
                       (groups qm)
    | None, None => True
    | _, _ => False
    end.
Proof.
  intros Hreach. apply highlight_recolors. by eapply reachable_graphsInv.
Qed.

Lemma X11_highlight_recolors_only_witness :
  ∃ m h,
    run [(listed, KeyMsg "x");
         (listed, ResultMsg "q" (Some twoGroups) None)] = Ok (m, h) ∧
    ∃ qm gs gs1,
      queryMeta m = Some qm ∧ graphs m = Some gs ∧
      rowGroupKey (orderedGroupKeys qm) ["a"; "<float>"] = Ok "a" ∧
      Update listed m h (UpdateMsg ["a"; "<float>"])
        = Ok (set_graphs (set_highlightedGroup m "a") (Some gs1),
              h, Batch []) ∧
      sameData gs gs1.
Proof.
  match eval vm_compute in
        (run [(listed, KeyMsg "x");
              (listed, ResultMsg "q" (Some twoGroups) None)]) with
  | Ok (?m, ?h) => pose (m' := m); pose (h' := h)
  end.
  assert (run [(listed, KeyMsg "x");
               (listed, ResultMsg "q" (Some twoGroups) None)] = Ok (m', h'))
    as Hrun by by_evaluation.
  assert (reachable m' h') as Hreach.
  { refine (run_reachable _ m' h' _ Hrun).
    repeat constructor; apply validOrder_listed. }
  match eval vm_compute in (queryMeta m') with
  | Some ?q => pose (qm' := q)
  end.
  assert (queryMeta m' = Some qm') as Hqm by by_evaluation.
  assert (rowGroupKey (orderedGroupKeys qm') ["a"; "<float>"] = Ok "a")
    as Hkey by by_evaluation.
  destruct (X11_highlight_recolors_only listed m' h' ["a"; "<float>"] qm'
              "a" Hreach Hqm Hkey) as (gs' & Hu & Hgs).
  match eval vm_compute in (graphs m') with
  | Some ?g => pose (gs0 := g)
  end.
  assert (graphs m' = Some gs0) as Hg by by_evaluation.
  rewrite Hg in Hgs. destruct gs' as [gs1|]; [|destruct Hgs].
  exists m', h'. split; [exact Hrun|].
  exists qm', gs0, gs1.
  split; [exact Hqm|]. split; [exact Hg|]. split; [exact Hkey|].
  split; [exact Hu|]. exact (proj1 Hgs).
Defined.

(** X12. A highlight closure forgets the highlight before it: delivering
    the closure of a second row after that of a first gives exactly what
    the second alone gives, a panic included; in particular delivering the
    same closure twice changes nothing the second time. *)
Theorem X12_highlight_overrides `{Toolkit} order m h row1 row2 m1 h1 c1 :
  Update order m h (UpdateMsg row1) = Ok (m1, h1, c1) →
  Update order m1 h1 (UpdateMsg row2) = Update order m h (UpdateMsg row2) ∧
  Update order m1 h1 (UpdateMsg row1) = Ok (m1, h1, c1).
Proof.
  intros Hu.
  assert (∀ row, Update order m1 h1 (UpdateMsg row) = Update order m h (UpdateMsg row))
    as Hover.
  { clear row2. intros row2. simpl in Hu |- *. inv_res. unfold highlightUpdate in *. inv_res.
    match goal with
    | Hg : UpdateGraphs _ _ = Ok m1 |- _ =>
        pose proof (UpdateGraphs_frame _ _ _ Hg) as Hframe
    end.
    assert (queryMeta m1 = queryMeta m) as -> by (by rewrite Hframe).
    destruct (queryMeta m) as [qm|]; [simpl|done].
    destruct (rowGroupKey (orderedGroupKeys qm) row2) as [key|p]; [simpl|done].
    rewrite (UpdateGraphs_dep_eq (set_highlightedGroup m key)
               (set_highlightedGroup m1 key)) by (by rewrite Hframe).
    assert (result (query m1) = result (query m)) as -> by (by rewrite Hframe).
    destruct (UpdateGraphs (set_highlightedGroup m key) (result (query m)))
      as [m2|p] eqn:Hu2; [simpl|done].
    rewrite (UpdateGraphs_frame _ _ _ Hu2), Hframe. done. }
  split; [apply Hover|]. by rewrite Hover.
Qed.

Lemma X12_highlight_overrides_witness :
  ∃ m h m1,
    run [(listed, KeyMsg "x");
         (listed, ResultMsg "q" (Some twoGroups) None)] = Ok (m, h) ∧
    Update listed m h (UpdateMsg ["a"; "<float>"]) = Ok (m1, h, Batch []) ∧
    Update listed m1 h (UpdateMsg ["b"; "<float>"])
      = Update listed m h (UpdateMsg ["b"; "<float>"]) ∧
    Update listed m1 h (UpdateMsg ["a"; "<float>"]) = Ok (m1, h, Batch []).
Proof.
  match eval vm_compute in
        (run [(listed, KeyMsg "x");
              (listed, ResultMsg "q" (Some twoGroups) None)]) with
  | Ok (?m, ?h) => pose (m' := m); pose (h' := h)
  end.
  assert (run [(listed, KeyMsg "x");
               (listed, ResultMsg "q" (Some twoGroups) None)] = Ok (m', h'))
    as Hrun by by_evaluation.
  match eval vm_compute in (Update listed m' h' (UpdateMsg ["a"; "<float>"])) with
  | Ok (?m, _, _) => pose (m1' := m)
  end.
  assert (Update listed m' h' (UpdateMsg ["a"; "<float>"]) = Ok (m1', h', Batch []))
    as Hu by by_evaluation.
  exists m', h', m1'. split; [exact Hrun|]. split; [exact Hu|].
  exact (X12_highlight_overrides listed m' h' ["a"; "<float>"] ["b"; "<float>"]
           m1' h' (Batch []) Hu).
Defined.
(** ** The first key after a result with totals *)

(** X13. The totals table is built without focus so that the first key
    focuses it: after a result with totals has been processed (which
    requires intervals), the first key other than ctrl+c and esc is not
    forwarded to the table; it gives the table the focus in place, leaves
    the model and the cursor (row 0) alone and issues the highlight
    closure of the first total's row.  Delivering that closure never
    panics and highlights the group of the first total. *)
Theorem X13_first_key_highlights_first_total `{Toolkit}
    order order1 order2 m h apl r e m1 h1 c1 key total rest :
  validOrder order →
  ready m = true →
  key ≠ "ctrl+c" → key ≠ "esc" →
  Totals (Buckets r) = total :: rest →
  Update order m h (ResultMsg apl (Some r) e) = Ok (m1, h1, c1) →
  ∃ p t qm gs,
    totalsTable m1 = Some p ∧ h1 !! p = Some t ∧ queryMeta m1 = Some qm ∧
    tfocus t = false ∧ tcursor t = 0%Z ∧
    let row := totalsRow (orderedGroupKeys qm) total in
    let h2 := <[p := table_setFocus t true]> h1 in
    Update order1 m1 h1 (KeyMsg key) = Ok (m1, h2, Batch [HighlightRowCmd row]) ∧
    Update order2 m1 h2 (UpdateMsg row)
      = Ok (set_graphs
              (set_highlightedGroup m1
                 (getGroupKey (orderedGroupKeys qm) (Group total))) gs,
            h2, Batch []).
Proof.
  intros [Hvg Hvd] Hready Hk1 Hk2 Htot Hu.
  pose proof (updateResult_graphsInv _ _ _ _ _ _ _ _ _ Hu) as Hinv.
  simpl in Hu. apply updateResult_steps in Hu
    as (qm' & mt & h2 & tt & gs' & H1 & H2 & H3 & H4 & -> & ->).
  destruct (decide (Series (Buckets r) = [])) as [Hs|Hs].
  { rewrite UpdateQueryMeta_None in H1 by eauto.
    assert (qm' = None) as -> by (by inv_res).
    unfold UpdateTotals in H3. rewrite Htot in H3. simpl in H3. by inv_res. }
  destruct (UpdateQueryMeta_Some (rangeGroup order)
              (UpdateQuery
                 (set_highlightedGroup
                    (set_textarea m (textarea_setFocus (textarea m) false)) "")
                 apl (Some r) e) r Hs) as (qm & Hq0 & _).
  pose proof H1 as H1'. rewrite Hq0 in H1'.
  assert (qm' = Some qm) as -> by (by inv_res). clear H1'.
  pose proof (UpdateQueryMeta_keys_NoDup _ _ _ _ qm Hvg H1 eq_refl) as Hnd.
  rewrite (UpdateTotals_Some _ _ _ qm) in H3 by (by rewrite ?Htot).
  injection H3 as <- <-.
  set (keys := orderedGroupKeys qm) in *.
  set (row := totalsRow keys total).
  assert (rowGroupKey keys row = Ok (getGroupKey keys (Group total))) as Hkey.
  { rewrite rowGroupKey_take; [|done|].
    - subst row. rewrite totalsRow_eq, getGroupKey_eq.
      rewrite take_app_length'; [done|]. by rewrite length_map.
    - subst row. rewrite totalsRow_eq, length_app, !length_map. lia. }
  match type of Hinv with graphsInv ?M => set (m1 := M) in * end.
  set (hfoc := <[length h2 := table_setFocus (totalsTableFor qm r) true]>
                 (h2 ++ [totalsTableFor qm r])).
  destruct (highlight_recolors order2 m1 hfoc row qm _ Hinv eq_refl Hkey)
    as (gs & Hup & _).
  exists (length h2), (totalsTableFor qm r), qm, gs.
  split; [done|]. split; [by apply list_lookup_middle|]. split; [done|].
  split; [done|]. split; [done|]. split; [|exact Hup].
  assert (table_SelectedRow (table_setFocus (totalsTableFor qm r) true) = row)
    as Hsel.
  { subst row. unfold table_SelectedRow, totalsTableFor. simpl.
    rewrite Htot. simpl. by rewrite totalsRow_eq. }
  assert (tfocus (totalsTableFor qm r) = false) as Hfocus by done.
  clear Hup. subst hfoc. generalize dependent (totalsTableFor qm r).
  intros t Hsel Hfocus.
  simpl. unfold updateKey.
  change (ready m1) with (ready m). rewrite Hready. simpl.
  apply String.eqb_neq in Hk1, Hk2. rewrite Hk1, Hk2.
  unfold updateTables. change (totalsTable m1) with (Some (length h2)).
  cbv iota. rewrite list_lookup_middle by done. simpl.
  rewrite Hfocus. simpl. unfold HighlightRow. by rewrite Hsel.
Qed.

Lemma X13_first_key_highlights_first_total_witness :
  ∃ m1 h1 c1 p t qm gs,
    Update listed (set_ready initialModel true) []
      (ResultMsg "q" (Some twoGroups) None) = Ok (m1, h1, c1) ∧
    totalsTable m1 = Some p ∧ h1 !! p = Some t ∧ queryMeta m1 = Some qm ∧
    tfocus t = false ∧ tcursor t = 0%Z ∧
    let h2 := <[p := table_setFocus t true]> h1 in
    Update backwards m1 h1 (KeyMsg "down")
      = Ok (m1, h2, Batch [HighlightRowCmd ["a"; "<float>"]]) ∧
    Update listed m1 h2 (UpdateMsg ["a"; "<float>"])
      = Ok (set_graphs (set_highlightedGroup m1 "a") gs, h2, Batch []).
Proof.
  match eval vm_compute in
        (Update listed (set_ready initialModel true) []
           (ResultMsg "q" (Some twoGroups) None)) with
  | Ok (?m, ?h, ?c) => pose (m1 := m); pose (h1 := h); pose (c1 := c)
  end.
  assert (Update listed (set_ready initialModel true) []
            (ResultMsg "q" (Some twoGroups) None) = Ok (m1, h1, c1))
    as Hu by by_evaluation.
  destruct (X13_first_key_highlights_first_total listed backwards listed
              (set_ready initialModel true) [] "q" twoGroups None m1 h1 c1
              "down" (svcGroup "a" "avg" (AFloat 12.5))
              [svcGroup "b" "avg" (AFloat 20)]
              validOrder_listed eq_refl ltac:(discriminate) ltac:(discriminate)
              eq_refl Hu)
    as (p & t & qm & gs & Hp & Ht & Hqm & Hf & Hc & Hkey & Hup).
  exists m1, h1, c1, p, t, qm, gs.
  split; [exact Hu|]. split; [exact Hp|]. split; [exact Ht|].
  split; [exact Hqm|]. split; [exact Hf|]. split; [exact Hc|].
  assert (queryMeta m1 = Some qm → totalsRow (orderedGroupKeys qm)
            (svcGroup "a" "avg" (AFloat 12.5)) = ["a"; "<float>"]) as Hrow.
  { intros [= <-]. by_evaluation. }
  assert (queryMeta m1 = Some qm →
          getGroupKey (orderedGroupKeys qm)
            (Group (svcGroup "a" "avg" (AFloat 12.5))) = "a") as Hgk.
  { intros [= <-]. by_evaluation. }
  rewrite (Hrow Hqm), (Hgk Hqm) in *. split; [exact Hkey|exact Hup].
Defined.
(** ** When a result is processed *)

(** A loop whose body succeeds in every state of [P] and keeps [P]
    succeeds. *)
Lemma foldM_total {A S} (P : S → Prop) (body : S → A → res S) (l : list A) (s : S) :
  (∀ s a, a ∈ l → P s → ∃ s', body s a = Ok s' ∧ P s') →
  P s → ∃ s', foldM body s l = Ok s' ∧ P s'.
Proof.
  revert s. induction l as [|a l IH]; intros s Hbody Hs; simpl.
  - by exists s.
  - destruct (Hbody s a) as (s1 & -> & Hs1); [by left|done|]. simpl.
    apply IH; [|done]. intros s2 a2 Hin. apply Hbody. by right.
Qed.

(** A loop that has succeeded has run its body on every element. *)
Lemma foldM_steps {A S} (P : S → Prop) (Q : A → Prop) (body : S → A → res S)
    (l : list A) (s s' : S) :
  (∀ s a s', a ∈ l → P s → body s a = Ok s' → P s' ∧ Q a) →
  P s → foldM body s l = Ok s' → P s' ∧ Forall Q l.
Proof.
  revert s. induction l as [|a l IH]; intros s Hbody Hs Hf; simpl in Hf.
  - inv_res. by split.
  - inv_res.
    match goal with
    | Hb : body s a = Ok ?s1 |- _ =>
        destruct (Hbody s a s1) as [Hs1 Ha]; [by left|done|done|];
        destruct (IH s1) as [Hs' Hl]; [|done|done|by split; [|constructor]]
    end.
    intros s2 a2 s2' Hin. apply Hbody. by right.
Qed.

Lemma allGroups_elem_of (r : Result) (g : EntryGroup) :
  g ∈ allGroups r ↔ ∃ interval, interval ∈ Series (Buckets r) ∧ g ∈ Groups interval.
Proof.
  unfold allGroups. rewrite list_elem_of_In, in_concat. split.
  - intros (l & Hl & Hg). apply in_map_iff in Hl as (interval & <- & Hi).
    exists interval. by rewrite !list_elem_of_In.
  - intros (interval & Hi & Hg). exists (Groups interval).
    rewrite <- !list_elem_of_In. split; [|done].
    apply list_elem_of_In, in_map. by apply list_elem_of_In.
Qed.

(** A write inside the matrices succeeds. *)
Lemma writeCell_total qm gs k g i v :
  shapeOk qm gs →
  (k < length (ops qm))%nat → (g < length (groups qm))%nat → (i < intervals qm)%nat →
  ∃ gs', writeCell gs k g i v = Ok gs'.
Proof.
  intros [Hlen Hall] Hk Hg Hi. unfold writeCell, index.
  destruct (lookup_lt_is_Some_2 gs k) as [G HG]; [lia|]. rewrite HG. simpl.
  rewrite Forall_forall in Hall.
  destruct (Hall G) as [Hrows Hrow]; [by eapply list_elem_of_lookup_2|].
  destruct (lookup_lt_is_Some_2 (data G) g) as [row Hr]; [lia|]. rewrite Hr. simpl.
  rewrite Forall_forall in Hrow.
  unfold store. rewrite (Hrow row) by (by eapply list_elem_of_lookup_2).
  destruct (Nat.ltb_spec i (intervals qm)); [|lia]. by eexists.
Qed.

(** A successful write is one into an existing graph. *)
Lemma writeCell_Ok_lt gs k g i v gs' :
  writeCell gs k g i v = Ok gs' → (k < length gs)%nat.
Proof.
  unfold writeCell. intros Hw. inv_res. by eapply lookup_lt_Some.
Qed.

(** [UpdateGraphs] succeeds when every entry group of the intervals has
    its key among the groups of the meta and no more aggregations than
    there are ops. *)
Lemma UpdateGraphs_total `{Toolkit} m qm r :
  queryMeta m = Some qm →
  intervals qm = length (Series (Buckets r)) →
  Sorted strLe (groups qm) →
  (∀ g, g ∈ allGroups r →
     getGroupKey (orderedGroupKeys qm) (Group g) ∈ groups qm ∧
     (length (Aggregations g) ≤ length (ops qm))%nat) →
  ∃ gs, UpdateGraphs m (Some r) = Ok (set_graphs m gs).
Proof.
  intros Hqm Hint Hsorted Hgroups. unfold UpdateGraphs.
  destruct (length (Series (Buckets r)) =? 0)%nat; [by eexists|].
  rewrite (makeGraphs_Ok m qm Hqm). simpl.
  match goal with
  | |- ∃ gs, (foldM ?body ?gs0 ?l ≫= _) = _ =>
      destruct (foldM_total (shapeOk qm) body l gs0) as (gs1 & -> & _)
  end; [| |by eexists].
  - intros gs [i interval] Hin Hshape.
    apply enumerate_elem_of in Hin.
    apply foldM_total; [|done].
    intros gs2 group Hgroup Hshape2.
    destruct (Hgroups group) as [Hkey Haggs].
    { apply allGroups_elem_of. exists interval. split; [|done].
      by eapply list_elem_of_lookup_2. }
    unfold graphsGroupStep. rewrite Hqm. simpl.
    apply foldM_total; [|done].
    intros gs3 [k agg] Hagg Hshape3.
    apply enumerate_elem_of in Hagg.
    destruct (writeCell_total qm gs3 k
                (SearchStrings (groups qm)
                   (getGroupKey (orderedGroupKeys qm) (Group group)))
                i (intervalValueOf agg)) as [gs4 Hw]; [done| | | |].
    + apply lookup_lt_Some in Hagg. lia.
    + eapply lookup_lt_Some. by apply SearchStrings_found.
    + rewrite Hint. by eapply lookup_lt_Some.
    + exists gs4. split; [done|]. by eapply writeCell_shape.
  - eapply makeGraphs_shape; [done|]. by apply makeGraphs_Ok.
Qed.

(** A successful [UpdateGraphs] has indexed the graphs with every
    aggregation index of every entry group. *)
Lemma UpdateGraphs_Ok_aggregations `{Toolkit} m qm r m' :
  queryMeta m = Some qm →
  Series (Buckets r) ≠ [] →
  UpdateGraphs m (Some r) = Ok m' →
  ∀ g, g ∈ allGroups r → (length (Aggregations g) ≤ length (ops qm))%nat.
Proof.
  intros Hqm Hseries Hu. unfold UpdateGraphs in Hu.
  destruct (Nat.eqb_spec (length (Series (Buckets r))) 0) as [Hz|_].
  { by apply length_zero_iff_nil in Hz. }
  inv_res.
  match goal with
  | Hm : makeGraphs m = Ok ?gs0, Hf : foldM _ ?gs0 _ = Ok _ |- _ =>
      pose proof (makeGraphs_shape m qm gs0 Hqm Hm) as Hshape;
      eapply (foldM_steps (shapeOk qm)
                (fun ii => Forall (fun g => (length (Aggregations g)
                                             ≤ length (ops qm))%nat)
                             (Groups ii.2))) in Hf as [_ Hall]; [|clear Hf|done]
  end.
  - intros g Hg. apply allGroups_elem_of in Hg as (interval & Hi & Hg).
    apply list_elem_of_lookup_1 in Hi as [i Hi].
    apply enumerate_lookup, list_elem_of_lookup_2 in Hi.
    rewrite Forall_forall in Hall. specialize (Hall _ Hi). simpl in Hall.
    rewrite Forall_forall in Hall. by apply Hall.
  - intros gs [i interval] gs1 _ Hshape1 Hinner. simpl.
    eapply (foldM_steps (shapeOk qm)); [|done|exact Hinner].
    intros gs2 group gs3 _ Hshape2 Hgroup.
    unfold graphsGroupStep in Hgroup. rewrite Hqm in Hgroup. simpl in Hgroup.
    eapply (foldM_steps (shapeOk qm)
              (fun ka => (ka.1 < length (ops qm))%nat)) in Hgroup
      as [Hshape3 Hks]; [| |done].
    + split; [done|]. revert Hks.
      generalize (Aggregations group). intros aggs Hks.
      destruct aggs as [|agg0 l0 _] using rev_ind; [simpl; lia|].
      rewrite Forall_forall in Hks.
      specialize (Hks (length l0, agg0)). simpl in Hks.
      rewrite length_app. simpl.
      assert (length l0 < length (ops qm))%nat; [|lia].
      apply Hks. apply enumerate_elem_of. by apply list_lookup_middle.
    + intros gs4 [k agg] gs5 _ Hshape4 Hw. simpl.
      split; [by eapply writeCell_shape|].
      apply writeCell_Ok_lt in Hw. destruct Hshape4 as [Hlen _]. lia.
Qed.

(** Once the ordered keys are fixed (or while every group map is empty),
    the walk of [UpdateQueryMeta] keeps them and collects the key of every
    group under them. *)
Lemma metaGroupStep_fixed `{Toolkit} range keys count gs group :
  (keys ≠ [] ∨ Group group = ∅) →
  ∃ count' gs',
    metaGroupStep range (keys, count, gs) group = (keys, count', gs') ∧
    (∀ x, x ∈ gs → x ∈ gs') ∧
    getGroupKey keys (Group group) ∈ gs'.
Proof.
  intros Hfixed. unfold metaGroupStep.
  assert ((length keys =? 0)%nat && (0 <? size (Group group))%nat = false) as ->.
  { destruct Hfixed as [Hk| ->].
    - destruct keys; [done|]. done.
    - rewrite map_size_empty. by rewrite andb_false_r. }
  destruct (stringInSlice _ gs) eqn:Hin; simpl.
  - apply stringInSlice_spec in Hin. by eexists _, _.
  - eexists _, _. split; [done|]. split.
    + intros x Hx. apply elem_of_app. by left.
    + apply elem_of_app. right. by apply list_elem_of_singleton.
Qed.

Lemma metaLoop_fixed `{Toolkit} range (l : list EntryGroup) keys count gs :
  (keys ≠ [] ∨ Forall (fun g => Group g = ∅) l) →
  ∃ count' gs',
    fold_left (metaGroupStep range) l (keys, count, gs) = (keys, count', gs') ∧
    (∀ x, x ∈ gs → x ∈ gs') ∧
    (∀ g, g ∈ l → getGroupKey keys (Group g) ∈ gs').
Proof.
  revert count gs. induction l as [|g l IH]; intros count gs Hfixed; cbn [fold_left].
  - exists count, gs. split; [done|]. split; [done|].
    intros g Hg. by apply elem_of_nil in Hg.
  - destruct (metaGroupStep_fixed range keys count gs g)
      as (c1 & gs1 & -> & Hsub1 & Hkey1).
    { destruct Hfixed as [?|Hall]; [by left|right]. by inversion Hall. }
    destruct (IH c1 gs1) as (c2 & gs2 & -> & Hsub2 & Hkeys2).
    { destruct Hfixed as [?|Hall]; [by left|right]. by inversion Hall. }
    exists c2, gs2. split; [done|]. split; [by auto|].
    intros g' Hg'. apply elem_of_cons in Hg' as [->|Hg']; by auto.
Qed.

(** The keys are fixed by the first group when its map is not empty. *)
Lemma meta_keys_consistent `{Toolkit} range (l : list EntryGroup) keys count gs :
  validRange range →
  (Forall (fun g => Group g = ∅) l ∨ ∃ g0 l', l = g0 :: l' ∧ Group g0 ≠ ∅) →
  fold_left (metaGroupStep range) l ([], 0%nat, []) = (keys, count, gs) →
  ∀ g, g ∈ l → getGroupKey keys (Group g) ∈ gs.
Proof.
  intros Hrange [Hall|(g0 & l' & -> & Hne)] Hfold.
  - destruct (metaLoop_fixed range l [] 0%nat []) as (c & gs' & Hf & _ & Hkeys);
      [by right|].
    rewrite Hf in Hfold. by injection Hfold as <- <- <-.
  - cbn [fold_left] in Hfold.
    destruct (metaGroupStep range ([], 0%nat, []) g0) as [[k1 c1] gs1] eqn:Hfirst.
    assert (k1 ≠ [] ∧ getGroupKey k1 (Group g0) ∈ gs1) as [Hk1 Hkey1].
    { unfold metaGroupStep in Hfirst. simpl in Hfirst.
      assert ((0 <? size (Group g0))%nat = true) as Hsize.
      { apply Nat.ltb_lt. apply map_size_non_empty_iff in Hne. lia. }
      rewrite Hsize in Hfirst. injection Hfirst as <- _ <-. split.
      - intros Hnil. apply (f_equal length) in Hnil.
        rewrite sort_Strings_length, (fold_left_snoc id), map_id in Hnil.
        simpl in Hnil. rewrite (Hrange (Group g0)) in Hnil.
        unfold keysOf in Hnil. rewrite length_fmap, length_map_to_list in Hnil.
        apply map_size_non_empty_iff in Hne. simpl in Hnil. lia.
      - apply list_elem_of_singleton. done. }
    destruct (metaLoop_fixed range l' k1 c1 gs1) as (c & gs' & Hf & Hsub & Hkeys);
      [by left|].
    rewrite Hf in Hfold. injection Hfold as <- <- <-.
    intros g Hg. apply elem_of_cons in Hg as [->|Hg]; by auto.
Qed.

(** The number of ops is the number of distinct aliases of the totals. *)
Lemma ops_loop_length (aggs : list EntryGroupAgg) :
  length (fold_left opsStep aggs []) = length (remove_dups (map Alias aggs)).
Proof.
  rewrite <- (length_map name), ops_loop_names, length_reverse.
  apply Permutation_length, NoDup_Permutation; [apply NoDup_remove_dups..|].
  intros a. by rewrite !elem_of_remove_dups, elem_of_reverse.
Qed.

(** The result case of [Update] succeeds when its four projections do. *)
Lemma updateResult_from_steps `{Toolkit} order m h apl result e m1 m2 h2 m3 h3 m4 :
  UpdateQueryMeta (rangeGroup order)
    (UpdateQuery
       (set_highlightedGroup
          (set_textarea m (textarea_setFocus (textarea m) false)) "")
       apl result e) result = Ok m1 →
  UpdateMatchesTable (rangeData order) m1 h result = (m2, h2) →
  UpdateTotals m2 h2 result = Ok (m3, h3) →
  UpdateGraphs m3 result = Ok m4 →
  ∃ m' h' c, Update order m h (ResultMsg apl result e) = Ok (m', h', c).
Proof.
  intros H1 H2 H3 H4. cbn [Update]. unfold updateResult.
  rewrite H1. cbn [mbind]. unfold res_bind at 1. rewrite H2.
  rewrite H3. cbn [mbind]. unfold res_bind at 1. rewrite H4. by eexists _, _, _.
Qed.

(** X14. When a result message is processed and when it panics.  If it is
    processed, the result has totals only if it has intervals, and no
    entry group of an interval has more aggregations than the totals have
    distinct aliases.  Conversely these two conditions suffice when the
    ordered keys are the same for all entry groups, that is when the
    first entry group of the intervals has a group map that is not empty,
    or every entry group has an empty one. *)
Theorem X14_result_processed `{Toolkit} order m h apl r e :
  validOrder order →
  ((∃ m' h' c, Update order m h (ResultMsg apl (Some r) e) = Ok (m', h', c)) →
   (Series (Buckets r) = [] → Totals (Buckets r) = []) ∧
   (∀ g, g ∈ allGroups r →
      (length (Aggregations g) ≤ length (remove_dups (allAliases r)))%nat)) ∧
  ((Forall (fun g => Group g = ∅) (allGroups r) ∨
    ∃ g0 l, allGroups r = g0 :: l ∧ Group g0 ≠ ∅) →
   (Series (Buckets r) = [] → Totals (Buckets r) = []) →
   (∀ g, g ∈ allGroups r →
      (length (Aggregations g) ≤ length (remove_dups (allAliases r)))%nat) →
   ∃ m' h' c, Update order m h (ResultMsg apl (Some r) e) = Ok (m', h', c)).
Proof.
  intros [Hvg Hvd]. split.
  - intros (m' & h' & c & Hu). simpl in Hu.
    apply updateResult_steps in Hu
      as (qm' & mt & h2 & tt & gs' & H1 & H2 & H3 & H4 & _ & _).
    destruct (decide (Series (Buckets r) = [])) as [Hs|Hs].
    + split.
      * intros _. rewrite UpdateQueryMeta_None in H1 by eauto.
        assert (qm' = None) as -> by (by inv_res).
        destruct (Totals (Buckets r)) as [|total rest] eqn:Htot; [done|].
        unfold UpdateTotals in H3. rewrite Htot in H3. simpl in H3. by inv_res.
      * intros g Hg. unfold allGroups in Hg. rewrite Hs in Hg.
        by apply elem_of_nil in Hg.
    + split; [done|].
      destruct (UpdateQueryMeta_Some (rangeGroup order)
                  (UpdateQuery
                     (set_highlightedGroup
                        (set_textarea m (textarea_setFocus (textarea m) false)) "")
                     apl (Some r) e) r Hs) as (qm & Hq0 & _).
      pose proof H1 as H1'. rewrite Hq0 in H1'.
      assert (qm' = Some qm) as -> by (by inv_res). clear H1'.
      destruct (UpdateQueryMeta_fields _ _ _ _ qm H1 eq_refl)
        as (gs & _ & _ & Hops & _).
      intros g Hg. unfold allAliases.
      rewrite <- ops_loop_length, <- Hops.
      revert g Hg.
      refine (UpdateGraphs_Ok_aggregations _ qm r _ _ Hs H4). done.
  - intros Hkeys Htotals Haggs.
    set (m0 := UpdateQuery
                 (set_highlightedGroup
                    (set_textarea m (textarea_setFocus (textarea m) false)) "")
                 apl (Some r) e).
    destruct (decide (Series (Buckets r) = [])) as [Hs|Hs].
    + destruct (UpdateMatchesTable (rangeData order) (set_queryMeta m0 None)
                  h (Some r)) as [m2 h2] eqn:H2.
      eapply (updateResult_from_steps order m h apl (Some r) e);
        [by apply UpdateQueryMeta_None; eauto|exact H2
        |by apply UpdateTotals_None; eauto|].
      unfold UpdateGraphs. by rewrite Hs.
    + destruct (UpdateQueryMeta_Some (rangeGroup order) m0 r Hs)
        as (qm & Hq0 & _ & Hsorted & _).
      destruct (UpdateQueryMeta_fields _ _ _ _ qm Hq0 eq_refl)
        as (gs & Hfold & Hgroups & Hops & Hint & _).
      destruct (UpdateMatchesTable (rangeData order) (set_queryMeta m0 (Some qm))
                  h (Some r)) as [m2 h2] eqn:H2.
      pose proof (UpdateMatchesTable_frame _ _ _ _ _ _ H2) as Hframe.
      assert (queryMeta m2 = Some qm) as Hqm2 by (by rewrite Hframe).
      assert (∃ tt h3, UpdateTotals m2 h2 (Some r)
                       = Ok (set_totalsTable m2 tt, h3)) as (tt & h3 & H3).
      { destruct (decide (Totals (Buckets r) = [])) as [Ht|Ht].
        - rewrite UpdateTotals_None by eauto. by eexists _, _.
        - rewrite (UpdateTotals_Some _ _ _ qm) by done. by eexists _, _. }
      destruct (UpdateGraphs_total (set_totalsTable m2 tt) qm r)
        as [gs3 H4]; [done|done|done| |].
      * intros g Hg. split.
        -- rewrite Hgroups. apply sort_Strings_elem_of.
           by eapply (meta_keys_consistent (rangeGroup order) (allGroups r)).
        -- rewrite Hops, ops_loop_length. by apply Haggs.
      * by eapply (updateResult_from_steps order m h apl (Some r) e).
Qed.

Lemma X14_result_processed_witness :
  validOrder listed ∧
  (∃ m' h' c,
     Update listed initialModel [] (ResultMsg "q" (Some twoGroups) None)
       = Ok (m', h', c)) ∧
  ¬ (∃ m' h' c,
       Update listed initialModel [] (ResultMsg "q" (Some extraAggregation) None)
         = Ok (m', h', c)).
Proof.
  split; [exact validOrder_listed|]. split.
  - apply (proj2 (X14_result_processed listed initialModel [] "q" twoGroups None
                    validOrder_listed)).
    + right. eexists _, _. split; [reflexivity|]. vm_compute. discriminate.
    + vm_compute. discriminate.
    + intros g Hg. vm_compute in Hg.
      repeat (apply elem_of_cons in Hg as [->|Hg]; [vm_compute; lia|]).
      by apply elem_of_nil in Hg.
  - intros Hok.
    destruct (proj1 (X14_result_processed listed initialModel [] "q"
                       extraAggregation None validOrder_listed) Hok) as [_ Haggs].
    specialize (Haggs _ (list_elem_of_here _ _)). vm_compute in Haggs. lia.
Defined.
(** ** Submitting a query *)

(** X15. In Typing, enter submits the trimmed text of the text area and
    nothing else: a blank text changes nothing and issues no command;
    otherwise the model enters Querying with the status message set and
    issues the spinner tick together with the query for the trimmed text.
    While Querying, every key other than ctrl+c is dropped, so are
    countdown ticks, re-run and pulse messages, and the status line shows
    the spinner and no countdown. *)
Theorem X15_enter_submits_trimmed_text `{Toolkit} order m h :
  ready m = true → state m = TYPING →
  let q := TrimSpace (tavalue (textarea m)) in
  (q = "" → Update order m h (KeyMsg "enter") = Ok (m, h, Batch [])) ∧
  (q ≠ "" →
   let m1 := set_state (set_msg m "Running query...") QUERYING in
   Update order m h (KeyMsg "enter")
     = Ok (m1, h, Batch [Batch [SpinnerTick; QueryCmd q]]) ∧
   (∀ key, key ≠ "ctrl+c" → Update order m1 h (KeyMsg key) = Ok (m1, h, Batch [])) ∧
   (∀ msg, msg ∈ [RefreshMsg; ReRunMsg; PulseMsg] →
           Update order m1 h msg = Ok (m1, h, Batch [])) ∧
   ViewSpinner m1 = JoinHorizontal [spinner_View (spinner m); "Running query..."] ∧
   ViewRefreshTimeout m1 = "").
Proof.
  intros Hready Hstate q. split.
  - intros Hq. simpl. unfold updateKey. rewrite Hready, Hstate. simpl.
    fold q. by rewrite Hq.
  - intros Hq m1. split; [|split; [|split; [|done]]].
    + simpl. unfold updateKey. rewrite Hready, Hstate. simpl. fold q.
      apply String.eqb_neq in Hq. by rewrite Hq.
    + intros key Hkey. simpl. unfold updateKey.
      change (ready m1) with (ready m). rewrite Hready. simpl.
      apply String.eqb_neq in Hkey. by rewrite Hkey.
    + intros msg0 Hmsg.
      repeat (apply elem_of_cons in Hmsg as [->|Hmsg]); try done.
      * simpl. by rewrite Hready.
      * by apply elem_of_nil in Hmsg.
Qed.

Lemma X15_enter_submits_trimmed_text_witness :
  ∃ m h,
    run [(listed, KeyMsg "x"); (listed, KeyMsg "q")] = Ok (m, h) ∧
    ready m = true ∧ state m = TYPING ∧
    TrimSpace (tavalue (textarea m)) = "q" ∧
    Update listed m h (KeyMsg "enter")
      = Ok (set_state (set_msg m "Running query...") QUERYING, h,
            Batch [Batch [SpinnerTick; QueryCmd "q"]]).
Proof.
  match eval vm_compute in (run [(listed, KeyMsg "x"); (listed, KeyMsg "q")]) with
  | Ok (?m, ?h) => pose (m' := m); pose (h' := h)
  end.
  assert (run [(listed, KeyMsg "x"); (listed, KeyMsg "q")] = Ok (m', h'))
    as Hrun by by_evaluation.
  assert (TrimSpace (tavalue (textarea m')) = "q") as Hq by by_evaluation.
  exists m', h'. split; [exact Hrun|]. split; [reflexivity|].
  split; [reflexivity|]. split; [exact Hq|].
  destruct (X15_enter_submits_trimmed_text listed m' h' eq_refl eq_refl)
    as [_ Hsubmit].
  rewrite Hq in Hsubmit.
  exact (proj1 (Hsubmit ltac:(discriminate))).
Defined.

(** ** The screen after a failed query *)

(** X16. After a failed query (no result, an error) the screen of a ready
    model has exactly three parts, in this order: the status line with the
    countdown at 5 and no spinner, the blurred text area, and the error
    message; graphs, totals, matches and match details of earlier results
    are gone.  Rendering leaves the heap as it is. *)
Theorem X16_failed_query_screen `{Toolkit} order m h apl e :
  ready m = true →
  ∃ m',
    Update order m h (ResultMsg apl None (Some e))
      = Ok (m', h, Batch [TickCmd 1000 RefreshMsg]) ∧
    View m' h
      = Ok (JoinVertical
              [tableStyle_Render (JoinHorizontal [""; "Refresh in 5"]);
               tableStyle_Render
                 (textarea_View (textarea_setFocus (textarea m) false));
               String.append "Error: " e],
            h).
Proof.
  intros Hready. eexists. split; [reflexivity|].
  unfold View. simpl. rewrite Hready. reflexivity.
Qed.

Lemma X16_failed_query_screen_witness :
  ∃ m h m',
    run [(listed, KeyMsg "x");
         (listed, ResultMsg "q" (Some twoGroups) None)] = Ok (m, h) ∧
    ready m = true ∧ graphs m ≠ None ∧
    Update listed m h (ResultMsg "q" None (Some "timeout"))
      = Ok (m', h, Batch [TickCmd 1000 RefreshMsg]) ∧
    View m' h
      = Ok (JoinVertical
              [tableStyle_Render (JoinHorizontal [""; "Refresh in 5"]);
               tableStyle_Render
                 (textarea_View (textarea_setFocus (textarea m) false));
               "Error: timeout"],
            h).
Proof.
  match eval vm_compute in
        (run [(listed, KeyMsg "x");
              (listed, ResultMsg "q" (Some twoGroups) None)]) with
  | Ok (?m, ?h) => pose (m0 := m); pose (h0 := h)
  end.
  assert (run [(listed, KeyMsg "x");
               (listed, ResultMsg "q" (Some twoGroups) None)] = Ok (m0, h0))
    as Hrun by by_evaluation.
  destruct (X16_failed_query_screen listed m0 h0 "q" "timeout" eq_refl)
    as (m' & Hu & Hv).
  exists m0, h0, m'. split; [exact Hrun|]. split; [reflexivity|].
  split; [discriminate|]. split; [exact Hu|exact Hv].
Defined.
(** ** When the highlight closure panics *)

Lemma rowGroup_total (keys : list string) (row : Row) (acc : gmap string any) :
  (length keys ≤ length row)%nat →
  ∃ group,
    foldM (fun (group : gmap string any) '(i, key) =>
             cell ← index row i; Ok (<[key := AString cell]> group))
      acc (enumerate keys) = Ok group.
Proof.
  intros Hlen.
  destruct (foldM_total (fun _ => True)
              (fun (group : gmap string any) '(i, key) =>
                 cell ← index row i; Ok (<[key := AString cell]> group))
              (enumerate keys) acc) as (group & Hf & _); [|done|by exists group].
  intros group [i key] Hin _. apply enumerate_elem_of, lookup_lt_Some in Hin.
  destruct (lookup_lt_is_Some_2 row i) as [c Hc]; [lia|].
  unfold index. rewrite Hc. simpl. by eexists.
Qed.

Lemma rowGroup_short (keys : list string) (row : Row) (acc : gmap string any) :
  (length row < length keys)%nat →
  foldM (fun (group : gmap string any) '(i, key) =>
           cell ← index row i; Ok (<[key := AString cell]> group))
    acc (enumerate keys) = Panic IndexOutOfRange.
Proof.
  induction keys as [|k keys IH] using rev_ind; intros Hlen; [simpl in Hlen; lia|].
  rewrite length_app in Hlen. simpl in Hlen.
  rewrite enumerate_snoc, foldM_app.
  destruct (decide (length row < length keys)%nat) as [Hlt|Hge].
  - by rewrite IH.
  - destruct (rowGroup_total keys row acc) as [group ->]; [lia|]. simpl.
    unfold index. rewrite (lookup_ge_None_2 row (length keys)) by lia. done.
Qed.

Lemma rowGroupKey_short `{Toolkit} (keys : list string) (row : Row) :
  (length row < length keys)%nat → rowGroupKey keys row = Panic IndexOutOfRange.
Proof. intros Hlen. unfold rowGroupKey. by rewrite rowGroup_short. Qed.

Lemma rowGroupKey_total `{Toolkit} (keys : list string) (row : Row) :
  (length keys ≤ length row)%nat → ∃ key, rowGroupKey keys row = Ok key.
Proof.
  intros Hlen. unfold rowGroupKey.
  destruct (rowGroup_total keys row ∅ Hlen) as [group ->]. by eexists.
Qed.

(** X17. The outcome of a highlight closure on a reachable model depends
    on the meta the model has when the closure is delivered, not on the
    one it had when the closure was issued: without a meta the closure
    panics on the nil meta, with a meta of more ordered keys than the row
    has cells it panics on the row index, and otherwise it is processed
    and leaves the heap alone.  A closure issued for a totals row thus
    panics when a result that leaves no meta, a failed query say, is
    processed before it. *)
Theorem X17_highlight_closure_outcome `{Toolkit} order m h row :
  reachable m h →
  match queryMeta m with
  | None => Update order m h (UpdateMsg row) = Panic NilDereference
  | Some qm =>
      if decide (length row < length (orderedGroupKeys qm))%nat
      then Update order m h (UpdateMsg row) = Panic IndexOutOfRange
      else ∃ m', Update order m h (UpdateMsg row) = Ok (m', h, Batch [])
  end.
Proof.
  intros Hreach.
  destruct (queryMeta m) as [qm|] eqn:Hqm.
  - destruct (decide _) as [Hlt|Hge].
    + simpl. unfold highlightUpdate. rewrite Hqm. simpl.
      by rewrite rowGroupKey_short.
    + destruct (rowGroupKey_total (orderedGroupKeys qm) row) as [key Hkey]; [lia|].
      destruct (highlight_recolors order m h row qm key) as (gs & Hu & _);
        [by eapply reachable_graphsInv|done|done|].
      by eexists.
  - simpl. unfold highlightUpdate. by rewrite Hqm.
Qed.

Lemma X17_highlight_closure_outcome_witness :
  ∃ m1 h1 h2 row m3 h3,
    run [(listed, KeyMsg "x");
         (listed, ResultMsg "q" (Some twoGroups) None)] = Ok (m1, h1) ∧
    Update listed m1 h1 (KeyMsg "down") = Ok (m1, h2, Batch [HighlightRowCmd row]) ∧
    (∃ m', Update listed m1 h2 (UpdateMsg row) = Ok (m', h2, Batch [])) ∧
    run [(listed, KeyMsg "x");
         (listed, ResultMsg "q" (Some twoGroups) None);
         (listed, KeyMsg "down");
         (listed, ResultMsg "q" None (Some "timeout"))] = Ok (m3, h3) ∧
    reachable m3 h3 ∧
    Update listed m3 h3 (UpdateMsg row) = Panic NilDereference.
Proof.
  match eval vm_compute in
        (run [(listed, KeyMsg "x");
              (listed, ResultMsg "q" (Some twoGroups) None)]) with
  | Ok (?m, ?h) => pose (m1 := m); pose (h1 := h)
  end.
  assert (run [(listed, KeyMsg "x");
               (listed, ResultMsg "q" (Some twoGroups) None)] = Ok (m1, h1))
    as Hrun1 by by_evaluation.
  match eval vm_compute in (Update listed m1 h1 (KeyMsg "down")) with
  | Ok (_, ?h, Batch [HighlightRowCmd ?r]) => pose (h2 := h); pose (row := r)
  end.
  assert (Update listed m1 h1 (KeyMsg "down")
          = Ok (m1, h2, Batch [HighlightRowCmd row])) as Hkey by by_evaluation.
  assert (run [(listed, KeyMsg "x");
               (listed, ResultMsg "q" (Some twoGroups) None);
               (listed, KeyMsg "down")] = Ok (m1, h2)) as Hrun2 by by_evaluation.
  assert (reachable m1 h2) as Hreach2.
  { refine (run_reachable _ m1 h2 _ Hrun2).
    repeat constructor; apply validOrder_listed. }
  match eval vm_compute in
        (run [(listed, KeyMsg "x");
              (listed, ResultMsg "q" (Some twoGroups) None);
              (listed, KeyMsg "down");
              (listed, ResultMsg "q" None (Some "timeout"))]) with
  | Ok (?m, ?h) => pose (m3 := m); pose (h3 := h)
  end.
  assert (run [(listed, KeyMsg "x");
               (listed, ResultMsg "q" (Some twoGroups) None);
               (listed, KeyMsg "down");
               (listed, ResultMsg "q" None (Some "timeout"))] = Ok (m3, h3))
    as Hrun3 by by_evaluation.
  assert (reachable m3 h3) as Hreach3.
  { refine (run_reachable _ m3 h3 _ Hrun3).
    repeat constructor; apply validOrder_listed. }
  exists m1, h1, h2, row, m3, h3.
  split; [exact Hrun1|]. split; [exact Hkey|]. split.
  - exact (X17_highlight_closure_outcome listed m1 h2 row Hreach2).
  - split; [exact Hrun3|]. split; [exact Hreach3|].
    exact (X17_highlight_closure_outcome listed m3 h3 row Hreach3).
Defined.
